(** * Interview-analysis pipeline: meeting queue and emotion alignment

    A shallow embedding of

    - [src/zoom_bot/meeting_queue.py] (class [MeetingQueue]), and
    - the extraction / alignment helpers of [src/analytics/processor.py]
      ([_extract_emotion_frames_from_raw], [_average_emotions_for_segment],
      [_filter_relevant_questions]),

    followed by the properties of the specification that concern them; and
    of the code around them,

    - [ZoomBotScheduler.schedule_meeting] and [join_meeting_now]
      ([src/zoom_bot/scheduler.py]), the owner of the queue,
    - [DatabaseManager._execute_with_retry] ([src/database/manager.py]),
    - the polling loop of [process_recording], [_combine_insights],
      [_process_transcript_with_emotions] and [_extract_emotion_data]
      ([src/analytics/processor.py]),
    - [format_transcript] in its [conversation] format
      ([src/utils/transcript_formatter.py]),

    with further properties of all of these. *)

From Stdlib Require Import ZArith List String Ascii Bool Lia.
From Stdlib Require Import Sorting.Permutation.
From Stdlib Require Import Floats.
From Stdlib Require Import DecimalString DecimalPos.
From stdpp Require Import gmap.

Import ListNotations.
Local Open Scope Z_scope.

(* ===================================================================== *)
(** * Part I: [MeetingQueue] *)
(* ===================================================================== *)

Module MeetingQueue.

(** ** Time

    A [datetime] is the number of microseconds since the epoch (the
    resolution of Python's [datetime]); a [timedelta] is a number of
    microseconds.  Every [datetime.now()] of the source is an explicit
    argument [now] of the operation that reads the clock. *)

Definition timedelta_minutes (n : Z) : Z := n * 60000000.

(** ** The join callback

    [join_callback : (meeting_id, url) -> bool] is supplied by the owner of
    the queue and is not part of this class.  A call either returns a
    boolean or raises, and it does not call back into the queue (the one of
    [ZoomBotScheduler] hands the join over to a thread of its own).  The
    callback is an argument of each operation that may invoke it; the state
    records every invocation in [join_calls].

    Every public method runs under [self._lock] from its first statement to
    its last, so the methods are the atomic steps of the model; the worker
    thread is the sequence of its [_process_next_meeting] steps. *)

Inductive outcome : Type :=
| Returns (b : bool)
| Raises.

Definition callback : Type := Z -> string -> outcome.

(** ** Data *)

(** A value of [self._meetings]:
    [(scheduled_time, url, retry_count, max_retries, is_urgent)]. *)
Record Meeting : Type := mkMeeting {
  scheduled_time : Z;
  url : string;
  retry_count : Z;
  max_retries : Z;
  is_urgent : bool
}.

(** An element of [self._queue]:
    [(scheduled_time, meeting_id, url, retry_count)]. *)
Record Entry : Type := mkEntry {
  next_time : Z;
  entry_id : Z;
  entry_url : string;
  entry_retry : Z
}.

(** Python orders tuples lexicographically. *)
Definition entry_compare (a b : Entry) : comparison :=
  match next_time a ?= next_time b with
  | Eq =>
      match entry_id a ?= entry_id b with
      | Eq =>
          match String.compare (entry_url a) (entry_url b) with
          | Eq => entry_retry a ?= entry_retry b
          | c => c
          end
      | c => c
      end
  | c => c
  end.

(** [heapq] is used through [heappush], [heappop] and a peek at
    [self._queue[0]] only, so all that is observed of the heap is its least
    entry.  The heap is kept as the ascending list of its entries:
    [heappush] inserts in order, the head is [self._queue[0]] and [heappop]
    drops it. *)
Fixpoint heappush (q : list Entry) (e : Entry) : list Entry :=
  match q with
  | [] => [e]
  | x :: q' =>
      match entry_compare e x with
      | Gt => x :: heappush q' e
      | _ => e :: q
      end
  end.

Definition heappop (q : list Entry) : list Entry := tl q.

Record State : Type := mkState {
  _queue : list Entry;
  _meetings : gmap Z Meeting;
  join_calls : list (Z * string)
}.

Definition set_queue (st : State) (q : list Entry) : State :=
  mkState q (_meetings st) (join_calls st).

Definition set_meetings (st : State) (ms : gmap Z Meeting) : State :=
  mkState (_queue st) ms (join_calls st).

(** Invoking [self._join_callback(meeting_id, url)]. *)
Definition call_join (cb : callback) (st : State) (meeting_id : Z) (u : string)
  : outcome * State :=
  (cb meeting_id u,
   mkState (_queue st) (_meetings st) (join_calls st ++ [(meeting_id, u)])).

Definition _urgent_retry_minutes : Z := 3.
Definition _normal_retry_minutes : Z := 5.

(** ** Operations *)

Definition _remove_meeting (st : State) (meeting_id : Z) : State :=
  match _meetings st !! meeting_id with
  | Some _ => set_meetings st (delete meeting_id (_meetings st))
  | None => st
  end.

Definition schedule_meeting (cb : callback) (now : Z) (st : State)
    (meeting_id : Z) (u : string) (sched : Z) (maxr : Z) : outcome * State :=
  let st :=
    match _meetings st !! meeting_id with
    | Some _ => _remove_meeting st meeting_id
    | None => st
    end in
  let actual_join_time := sched + timedelta_minutes 1 in
  if actual_join_time <? now then
    call_join cb st meeting_id u
  else
    let urgent := actual_join_time - now <=? timedelta_minutes 15 in
    let st :=
      set_meetings st
        (<[meeting_id := mkMeeting actual_join_time u 0 maxr urgent]>
           (_meetings st)) in
    let st :=
      set_queue st
        (heappush (_queue st) (mkEntry actual_join_time meeting_id u 0)) in
    (Returns true, st).

Definition reschedule_meeting (now : Z) (st : State) (meeting_id : Z)
    (delay_minutes : option Z) : bool * State :=
  match _meetings st !! meeting_id with
  | None => (false, st)
  | Some m =>
      if max_retries m <=? retry_count m then (false, st)
      else
        let delay :=
          match delay_minutes with
          | None =>
              if is_urgent m then _urgent_retry_minutes
              else _normal_retry_minutes
          | Some d => d
          end in
        let new_time := now + timedelta_minutes delay in
        let new_retry_count := retry_count m + 1 in
        let st :=
          set_meetings st
            (<[meeting_id :=
                 mkMeeting new_time (url m) new_retry_count (max_retries m)
                   (is_urgent m)]> (_meetings st)) in
        let st :=
          set_queue st
            (heappush (_queue st)
               (mkEntry new_time meeting_id (url m) new_retry_count)) in
        (true, st)
  end.

Definition cancel_meeting (st : State) (meeting_id : Z) : bool * State :=
  match _meetings st !! meeting_id with
  | None => (false, st)
  | Some _ => (true, _remove_meeting st meeting_id)
  end.

(** [now] is the clock as read by the [reschedule_meeting] that a failed
    join triggers. *)
Definition _join_meeting (cb : callback) (now : Z) (st : State)
    (meeting_id : Z) (u : string) (retry : Z) (maxr : Z) (urgent : bool)
  : State :=
  let delay :=
    if urgent then _urgent_retry_minutes else _normal_retry_minutes in
  match call_join cb st meeting_id u with
  | (Returns true, st) => _remove_meeting st meeting_id
  | (Returns false, st) =>
      snd (reschedule_meeting now st meeting_id (Some delay))
  | (Raises, st) =>
      snd (reschedule_meeting now st meeting_id (Some delay))
  end.

(** One iteration of the worker loop [_process_queue].  [now] is the clock
    read of [_process_next_meeting], [now_retry] the later one of the
    reschedule after a failed join. *)
Definition _process_next_meeting (cb : callback) (now now_retry : Z)
    (st : State) : State :=
  match _queue st with
  | [] => st
  | e :: _ =>
      if next_time e <=? now then
        let st := set_queue st (heappop (_queue st)) in
        match _meetings st !! entry_id e with
        | None => st
        | Some m =>
            if negb (retry_count m =? entry_retry e) then st
            else
              _join_meeting cb now_retry st (entry_id e) (url m)
                (retry_count m) (max_retries m) (is_urgent m)
        end
      else st
  end.

(** The loop over [list(self._meetings.items())]: the snapshot is walked
    and the live table is assigned to. *)
Definition check_step (now : Z) (ms : gmap Z Meeting) (kv : Z * Meeting)
  : gmap Z Meeting :=
  let '(meeting_id, m) := kv in
  if negb (is_urgent m) && (scheduled_time m - now <=? timedelta_minutes 15)
  then
    <[meeting_id :=
        mkMeeting (scheduled_time m) (url m) (retry_count m) (max_retries m)
          true]> ms
  else ms.

Definition check_for_urgent_meetings (now : Z) (st : State) : State :=
  set_meetings st
    (fold_left (check_step now) (map_to_list (_meetings st)) (_meetings st)).

End MeetingQueue.

(* ===================================================================== *)
(** * Part II: the extraction engine of [AnalyticsProcessor] *)
(* ===================================================================== *)

Module Analytics.

Local Open Scope string_scope.
Local Open Scope list_scope.
Local Open Scope Z_scope.

(** ** Python [str]

    A [str] is a [string]; a character is a code point below 256. *)

Definition code (a : ascii) : N := N_of_ascii a.

Definition in_range (lo hi : N) (a : ascii) : bool :=
  ((lo <=? code a) && (code a <=? hi))%N.

Definition is_digit (a : ascii) : bool := in_range 48 57 a.

(** [str.isspace] for one character, also the class [\s] of [re]:
    TAB..CR, FS..US, space, NEL and NBSP. *)
Definition is_space (a : ascii) : bool :=
  in_range 9 13 a || in_range 28 32 a || (code a =? 133)%N
  || (code a =? 160)%N.

(** [str.lower] on one character: A..Z and the accented capitals
    U+00C0..U+00DE (the multiplication sign U+00D7 apart). *)
Definition lower_char (a : ascii) : ascii :=
  if in_range 65 90 a
     || (in_range 192 222 a && negb (code a =? 215)%N)
  then ascii_of_N (code a + 32)
  else a.

Fixpoint lower (s : string) : string :=
  match s with
  | EmptyString => EmptyString
  | String a s' => String (lower_char a) (lower s')
  end.

Fixpoint lstrip (s : string) : string :=
  match s with
  | String a s' => if is_space a then lstrip s' else s
  | EmptyString => EmptyString
  end.

Fixpoint rstrip (s : string) : string :=
  match s with
  | EmptyString => EmptyString
  | String a s' =>
      match rstrip s' with
      | EmptyString => if is_space a then EmptyString else String a EmptyString
      | r => String a r
      end
  end.

Definition strip (s : string) : string := rstrip (lstrip s).

(** [s] with the prefix [p] removed, when [s] starts with [p]. *)
Fixpoint drop_prefix (p s : string) : option string :=
  match p with
  | EmptyString => Some s
  | String a p' =>
      match s with
      | String b s' => if Ascii.eqb a b then drop_prefix p' s' else None
      | EmptyString => None
      end
  end.

(** [sub in s]. *)
Fixpoint contains (sub s : string) : bool :=
  match drop_prefix sub s with
  | Some _ => true
  | None =>
      match s with
      | EmptyString => false
      | String _ s' => contains sub s'
      end
  end.

(** [s.split(sep)] for a one-character separator. *)
Fixpoint split (sep : ascii) (s : string) : list string :=
  match s with
  | EmptyString => [EmptyString]
  | String a s' =>
      if Ascii.eqb a sep then EmptyString :: split sep s'
      else
        match split sep s' with
        | w :: ws => String a w :: ws
        | [] => [String a EmptyString]
        end
  end.

(** [s.split(sep, 1)]: at most one cut, at the first separator. *)
Fixpoint split1 (sep : ascii) (s : string) : list string :=
  match s with
  | EmptyString => [EmptyString]
  | String a s' =>
      if Ascii.eqb a sep then [EmptyString; s']
      else
        match split1 sep s' with
        | w :: ws => String a w :: ws
        | [] => [String a EmptyString]
        end
  end.

Definition digit_value (a : ascii) : Z := Z.of_N (code a) - 48.

(** [int(s)] in base 10: surrounding white space, an optional sign, then
    digits, where single underscores may separate digits.  [None] is
    [ValueError].  (The limit that recent interpreters put on the number of
    digits is not modelled.) *)
Fixpoint int_digits (s : string) (acc : Z) (after_digit : bool) : option Z :=
  match s with
  | EmptyString => if after_digit then Some acc else None
  | String a s' =>
      if is_digit a then int_digits s' (10 * acc + digit_value a) true
      else if Ascii.eqb a "_"%char && after_digit then int_digits s' acc false
      else None
  end.

Definition py_int (s : string) : option Z :=
  match strip s with
  | String "-"%char s' => option_map Z.opp (int_digits s' 0 false)
  | String "+"%char s' => int_digits s' 0 false
  | s' => int_digits s' 0 false
  end.

(** ** Python [float]

    A [float] is a binary64 number, the primitive [float] of the kernel.
    [float(s)] is only applied to what the group [([0-9.]+)] captured: a
    non-empty string of digits and dots.  It is a number exactly when it has
    at most one dot and at least one digit, and then [float] is the
    binary64 nearest to the decimal (ties to even).  [None] is
    [ValueError]. *)

Fixpoint decimal_digits (s : string) (mant : Z) (frac : option Z)
    (seen_digit : bool) : option (Z * Z) :=
  match s with
  | EmptyString =>
      if seen_digit then
        Some (mant, match frac with Some k => k | None => 0 end)
      else None
  | String a s' =>
      if is_digit a then
        decimal_digits s' (10 * mant + digit_value a)
          (option_map Z.succ frac) true
      else if Ascii.eqb a "."%char then
        match frac with
        | None => decimal_digits s' mant (Some 0) seen_digit
        | Some _ => None
        end
      else None
  end.

Definition SF_of_Z (z : Z) : spec_float :=
  match z with
  | Z0 => S754_zero false
  | Zpos p => S754_finite false p 0
  | Zneg p => S754_finite true p 0
  end.

(** The binary64 nearest to [m / 10^k]. *)
Definition float_of_decimal (m k : Z) : float :=
  SF2Prim (SFdiv prec emax (SF_of_Z m) (SF_of_Z (10 ^ k))).

Definition py_float (s : string) : option float :=
  match decimal_digits s 0 None false with
  | Some (m, k) => Some (float_of_decimal m k)
  | None => None
  end.

(** [float(n)] for an [int n] as the operand of a true division. *)
Definition float_of_int (n : Z) : float :=
  SF2Prim (binary_normalize prec emax n 0 false).

(** Comparing an [int] with a [float] is exact in Python. *)
Definition int_compare_SF (z : Z) (f : spec_float) : option comparison :=
  match f with
  | S754_nan => None
  | S754_infinity s => Some (if s then Gt else Lt)
  | S754_zero _ => Some (z ?= 0)
  | S754_finite s m e =>
      let v := if s then Zneg m else Zpos m in
      Some (if 0 <=? e then z ?= v * 2 ^ e else z * 2 ^ (- e) ?= v)
  end.

(** [z <= f]. *)
Definition int_le_float (z : Z) (f : float) : bool :=
  match int_compare_SF z (Prim2SF f) with
  | Some Lt | Some Eq => true
  | _ => false
  end.

(** [f < z]. *)
Definition float_lt_int (f : float) (z : Z) : bool :=
  match int_compare_SF z (Prim2SF f) with
  | Some Gt => true
  | _ => false
  end.

(** ** Python [dict] with [str] keys: insertion-ordered *)

Definition dict (V : Type) : Type := list (string * V).

Fixpoint dict_get {V} (d : dict V) (k : string) : option V :=
  match d with
  | [] => None
  | (k', v) :: d' => if String.eqb k' k then Some v else dict_get d' k
  end.

(** [d[k] = v]: in place for a key that is there, at the end otherwise. *)
Fixpoint dict_set {V} (d : dict V) (k : string) (v : V) : dict V :=
  match d with
  | [] => [(k, v)]
  | (k', v') :: d' =>
      if String.eqb k' k then (k', v) :: d' else (k', v') :: dict_set d' k v
  end.

Definition dict_values {V} (d : dict V) : list V := map snd d.

(** ** Python [re]

    The two patterns of the source use literals, character classes, greedy
    and lazy repetition and capture groups.  [re] matches by backtracking:
    alternatives are tried in priority order and the first complete match
    wins. *)

Inductive regex : Type :=
| Lit (l : string)                  (* a literal run of characters *)
| Class (p : ascii -> bool)         (* one character of a class; [.] *)
| Seq (r1 r2 : regex)
| Star (greedy : bool) (r : regex)  (* [r*] and [r*?] *)
| Group (n : nat) (r : regex).      (* the n-th capture group *)

Definition Plus (r : regex) : regex := Seq r (Star true r).

Definition captures : Type := list (nat * string).

Fixpoint capture (c : captures) (n : nat) : string :=
  match c with
  | [] => EmptyString
  | (m, s) :: c' => if Nat.eqb m n then s else capture c' n
  end.

(** What [s] has lost to reach its suffix [rest]. *)
Definition consumed (s rest : string) : string :=
  substring 0 (String.length s - String.length rest) s.

Section Matcher.
Context {R : Type}.

(** [rmatch r s c k]: match [r] at the start of [s], then hand the rest
    of the input and the groups to the continuation [k]; [None] makes the
    matcher backtrack. *)
Fixpoint rmatch (r : regex) (s : string) (c : captures)
    (k : string -> captures -> option R) {struct r} : option R :=
  match r with
  | Lit l =>
      match drop_prefix l s with
      | Some s' => k s' c
      | None => None
      end
  | Class p =>
      match s with
      | String a s' => if p a then k s' c else None
      | EmptyString => None
      end
  | Seq r1 r2 => rmatch r1 s c (fun s' c' => rmatch r2 s' c' k)
  | Star greedy r1 =>
      (fix loop (fuel : nat) (s : string) (c : captures) {struct fuel}
         : option R :=
         match fuel with
         | O => k s c
         | S fuel' =>
             if greedy then
               match
                 rmatch r1 s c (fun s' c' =>
                   if (String.length s' <? String.length s)%nat
                   then loop fuel' s' c' else None)
               with
               | Some x => Some x
               | None => k s c
               end
             else
               match k s c with
               | Some x => Some x
               | None =>
                   rmatch r1 s c (fun s' c' =>
                     if (String.length s' <? String.length s)%nat
                     then loop fuel' s' c' else None)
               end
         end) (S (String.length s)) s c
  | Group n r1 =>
      rmatch r1 s c (fun s' c' => k s' ((n, consumed s s') :: c'))
  end.
End Matcher.

(** The match of [r] that starts at the first character of [s]: the rest of
    the input after it, and its groups. *)
Definition match_here (r : regex) (s : string) : option (string * captures) :=
  rmatch r s [] (fun rest c => Some (rest, c)).

(** [re.findall] for a pattern with two groups: the matches from left to
    right, without overlap, each as the pair of its groups.  [skip] counts
    the characters still covered by the last match.  Neither pattern of the
    source matches the empty string. *)
Fixpoint findall_from (r : regex) (s : string) (skip : nat)
  : list (string * string) :=
  match s with
  | EmptyString => []
  | String _ s' =>
      match skip with
      | S n => findall_from r s' n
      | O =>
          match match_here r s with
          | Some (rest, c) =>
              (capture c 1, capture c 2)
              :: findall_from r s'
                   (String.length s - String.length rest - 1)
          | None => findall_from r s' 0
          end
      end
  end.

Definition findall (r : regex) (s : string) : list (string * string) :=
  findall_from r s 0.

Definition any_char (a : ascii) : bool := true.      (* [.] under DOTALL *)
Definition digits_or_dot (a : ascii) : bool :=       (* [[0-9.]] *)
  is_digit a || Ascii.eqb a ".".
(** The class of the two quote characters, single (39) and double (34),
    and its complement. *)
Definition quote (a : ascii) : bool :=
  (code a =? 39)%N || (code a =? 34)%N.
Definition not_quote (a : ascii) : bool := negb (quote a).

(** [FacePrediction\(frame=\d+,\s*time=([0-9.]+).*?emotions=\[(.*?)\]] *)
Definition pattern : regex :=
  Seq (Lit "FacePrediction(frame=")
 (Seq (Plus (Class is_digit))
 (Seq (Lit ",")
 (Seq (Star true (Class is_space))
 (Seq (Lit "time=")
 (Seq (Group 1 (Plus (Class digits_or_dot)))
 (Seq (Star false (Class any_char))
 (Seq (Lit "emotions=[")
 (Seq (Group 2 (Star false (Class any_char)))
      (Lit "]"))))))))).

(** [EmotionScore\(name=Q([^Q]+)Q,\s*score=([0-9.]+)], where [Q] stands
    for the class of the two quote characters. *)
Definition emotion_pattern : regex :=
  Seq (Lit "EmotionScore(name=")
 (Seq (Class quote)
 (Seq (Group 1 (Plus (Class not_quote)))
 (Seq (Class quote)
 (Seq (Lit ",")
 (Seq (Star true (Class is_space))
 (Seq (Lit "score=")
      (Group 2 (Plus (Class digits_or_dot))))))))).

(** ** Emotion frames *)

(** [{"name": name, "score": score}] *)
Record Emotion : Type := mkEmotion {
  name : string;
  score : float
}.

(** [{"time": time, "emotions": emotions}] *)
Record Frame : Type := mkFrame {
  time : float;
  emotions : list Emotion
}.

(** The inner loop over [emotion_matches]: a score that is no number
    counts as [0.0]. *)
Definition emotion_of_match (m : string * string) : Emotion :=
  let '(nm, score_str) := m in
  mkEmotion nm
    match py_float score_str with
    | Some v => v
    | None => 0%float
    end.

Definition emotions_of (emotions_str : string) : list Emotion :=
  fold_left (fun emotions m => emotions ++ [emotion_of_match m])
    (findall emotion_pattern emotions_str) [].

(** One turn of the loop over [matches]. *)
Definition frames_step (frames : list Frame) (m : string * string)
  : list Frame :=
  let '(time_str, emotions_str) := m in
  match py_float time_str with
  | None => frames                                   (* [continue] *)
  | Some time_val =>
      match emotions_of emotions_str with
      | [] => frames
      | ems => frames ++ [mkFrame time_val ems]
      end
  end.

(** The scan of a raw text that is not empty. *)
Definition extract_emotion_frames (raw : string) : list Frame :=
  fold_left frames_step (findall pattern raw) [].

(** The part of [hume_data] that the function reads: [raw_result], and the
    [raw_result] of [result] when there is a [result]. *)
Record HumeData : Type := mkHumeData {
  raw_result : option string;
  result : option (option string)
}.

Definition get_or_empty (o : option string) : string :=
  match o with
  | Some s => s
  | None => EmptyString
  end.

Definition _extract_emotion_frames_from_raw (hume_data : HumeData)
  : list Frame :=
  let raw := get_or_empty (raw_result hume_data) in
  let raw :=
    match raw, result hume_data with
    | EmptyString, Some r => get_or_empty r
    | _, _ => raw
    end in
  match raw with
  | EmptyString => []
  | _ => extract_emotion_frames raw
  end.

(** ** Averaging over a time window *)

(** The frames are those that [_extract_emotion_frames_from_raw] builds, so
    every key that [.get] asks for is there. *)
Definition in_segment (start_time end_time : float) (frame : Frame) : bool :=
  (start_time <=? time frame)%float && (time frame <=? end_time)%float.

Definition add_emotion (emotion_totals : dict float) (emotion : Emotion)
  : dict float :=
  let prev :=
    match dict_get emotion_totals (name emotion) with
    | Some t => t
    | None => 0%float
    end in
  dict_set emotion_totals (name emotion) (prev + score emotion)%float.

Definition add_frame (acc : dict float * Z) (frame : Frame)
  : dict float * Z :=
  let '(emotion_totals, count) := acc in
  (fold_left add_emotion (emotions frame) emotion_totals, count + 1).

Definition _average_emotions_for_segment (frames : list Frame)
    (start_time end_time : float) : dict float :=
  let selected := List.filter (in_segment start_time end_time) frames in
  match selected with
  | [] => []
  | _ =>
      let '(emotion_totals, count) := fold_left add_frame selected ([], 0) in
      map (fun '(nm, total) => (nm, (total / float_of_int count)%float))
        emotion_totals
  end.

(** ** Questions and answers *)

(** An element of [transcript_with_emotions], as
    [_process_transcript_with_emotions] builds it.  An [avg_emotions] that
    is missing reads as the empty dict. *)
Record Segment : Type := mkSegment {
  transcript : string;
  start : float;
  seg_end : float;
  avg_emotions : dict float
}.

Record Question : Type := mkQuestion {
  timestamp : string;
  time_seconds : Z;
  text : string;
  index : nat
}.

Record QAPair : Type := mkQAPair {
  question : string;
  question_timestamp : string;
  response : Segment;
  all_response_segments : list Segment
}.

Definition newline : ascii := ascii_of_N 10.

Definition question_indicators : list string :=
  ["tell me about"; "what is"; "how would"; "describe";
   "explain"; "can you"; "do you"; "have you"].

Definition irrelevant_patterns : list string :=
  ["how are you"; "nice to meet"; "your name"; "introduce yourself";
   "weather"; "doing today"; "go for it"; "pan"; "testing"; "hear me";
   "can you see"; "technical"; "connection"].

Definition is_question (txt : string) : bool :=
  contains "?" txt
  || existsb (fun q => contains q (lower txt)) question_indicators.

(** [minutes, seconds = timestamp.split(':')] and the two [int]s; whatever
    is raised there gives 0. *)
Definition seconds_of_timestamp (ts : string) : Z :=
  match split ":" ts with
  | [minutes; seconds] =>
      match py_int minutes, py_int seconds with
      | Some m, Some sec => m * 60 + sec
      | _, _ => 0
      end
  | _ => 0
  end.

(** The body of the loop over [enumerate(transcript_lines)]: the question
    that the line [i] appends, if any. *)
Definition question_of_line (i : nat) (line : string) : option Question :=
  if negb (contains "|" line) then None
  else
    match split1 "|" line with
    | part0 :: part1 :: _ =>
        let speaker := hd EmptyString (split newline (strip part1)) in
        let txt := strip part1 in
        if contains "Daniel Kraft" speaker then None
        else if is_question txt then
          let ts :=
            match strip part0 with
            | EmptyString => "00:00"
            | t => t
            end in
          Some (mkQuestion ts (seconds_of_timestamp ts) txt i)
        else None
    | _ => None
    end.

Definition enumerate {A} (l : list A) : list (nat * A) :=
  combine (seq 0 (List.length l)) l.

Definition questions_of (full_transcript : string) : list Question :=
  fold_left
    (fun questions '(i, line) =>
       match question_of_line i line with
       | Some q => questions ++ [q]
       | None => questions
       end)
    (enumerate (split newline full_transcript)) [].

Definition is_irrelevant (q : Question) : bool :=
  existsb (fun p => contains p (lower (text q))) irrelevant_patterns.

Definition relevant_questions_of (questions : list Question)
  : list Question :=
  fold_left
    (fun relevant q => if negb (is_irrelevant q) then relevant ++ [q]
                       else relevant)
    questions [].

(** [end_time]: the next question's [int], or [float('inf')]. *)
Inductive bound : Type :=
| Finite (z : Z)
| Infinite.

(** A [float] start below 1000 is taken as seconds, any other as
    milliseconds. *)
Definition seconds_of_start (seg_start : float) : float :=
  if float_lt_int seg_start 1000 then seg_start
  else (seg_start / 1000)%float.

Definition before (seg_start : float) (end_time : bound) : bool :=
  match end_time with
  | Finite z => float_lt_int seg_start z
  | Infinite => (seg_start <? infinity)%float
  end.

Definition in_window (start_time : Z) (end_time : bound) (segment : Segment)
  : bool :=
  let seg_start := seconds_of_start (start segment) in
  int_le_float start_time seg_start && before seg_start end_time.

(** [max] keeps its first argument until a strictly greater one comes. *)
Fixpoint max_by {A} (key : A -> float) (best : A) (rest : list A) : A :=
  match rest with
  | [] => best
  | x :: rest' =>
      max_by key (if (key best <? key x)%float then x else best) rest'
  end.

(** The [key] of the [max] over the response segments. *)
Definition strongest_key (s : Segment) : float :=
  match dict_values (avg_emotions s) with
  | [] => 0%float
  | v :: vs => max_by (fun x => x) v vs
  end.

Definition end_time_of (relevant : list Question) (i : nat) (q : Question)
  : bound :=
  if Z.of_nat i <? Z.of_nat (List.length relevant) - 1
  then Finite (time_seconds (nth (i + 1) relevant q))
  else Infinite.

Definition response_segments_of (segments : list Segment) (start_time : Z)
    (end_time : bound) : list Segment :=
  fold_left
    (fun response_segments segment =>
       if in_window start_time end_time segment
       then response_segments ++ [segment]
       else response_segments)
    segments [].

Definition qa_step (segments : list Segment) (relevant : list Question)
    (qa_pairs : list QAPair) (iq : nat * Question) : list QAPair :=
  let '(i, q) := iq in
  let start_time := time_seconds q in
  let end_time := end_time_of relevant i q in
  match response_segments_of segments start_time end_time with
  | [] => qa_pairs
  | s :: rest =>
      qa_pairs
      ++ [mkQAPair (text q) (timestamp q) (max_by strongest_key s rest)
            (s :: rest)]
  end.

Definition qa_pairs_of (segments : list Segment) (relevant : list Question)
  : list QAPair :=
  fold_left (qa_step segments relevant) (enumerate relevant) [].

Definition _filter_relevant_questions
    (transcript_with_emotions : list Segment) (full_transcript : string)
  : list QAPair :=
  qa_pairs_of transcript_with_emotions
    (relevant_questions_of (questions_of full_transcript)).

End Analytics.

(* ===================================================================== *)
(** * Part III: vocabulary of the properties *)
(* ===================================================================== *)

Module QueueSpec.
Import MeetingQueue.

(** How often the join callback has been invoked for [meeting_id]. *)
Definition attempts (meeting_id : Z) (st : State) : nat :=
  length (List.filter (fun c => fst c =? meeting_id) (join_calls st)).

(** The queue entries of one meeting. *)
Definition entries_for (meeting_id : Z) (q : list Entry) : list Entry :=
  List.filter (fun e => entry_id e =? meeting_id) q.

(** The fencing check of [_process_next_meeting]: the entry is honored when
    its meeting is in the table with the entry's retry count. *)
Definition honored (st : State) (e : Entry) : bool :=
  match _meetings st !! entry_id e with
  | Some m => retry_count m =? entry_retry e
  | None => false
  end.

(** A run of [reschedule_meeting] calls on one meeting, each with its clock
    reading and its [delay_minutes]. *)
Definition reschedules (meeting_id : Z) (calls : list (Z * option Z))
    (st : State) : State :=
  fold_left
    (fun st '(now, delay) => snd (reschedule_meeting now st meeting_id delay))
    calls st.

(** One iteration of the worker loop: what the callback would answer, and
    the two clock readings. *)
Record Tick : Type := mkTick {
  tick_callback : callback;
  tick_now : Z;
  tick_now_retry : Z
}.

Definition tick (st : State) (tk : Tick) : State :=
  _process_next_meeting (tick_callback tk) (tick_now tk) (tick_now_retry tk)
    st.

Definition ticks (tks : list Tick) (st : State) : State :=
  fold_left tick tks st.

(** The callback fails for [meeting_id]: it returns [False] or raises. *)
Definition fails_for (meeting_id : Z) (cb : callback) : Prop :=
  forall u, cb meeting_id u <> Returns true.

(** The calls that leave a meeting in its scheduling generation: all but
    [schedule_meeting]. *)
Inductive Op : Type :=
| OpReschedule (now : Z) (meeting_id : Z) (delay_minutes : option Z)
| OpCheckUrgent (now : Z)
| OpTick (tk : Tick)
| OpCancel (meeting_id : Z).

Definition run_op (st : State) (op : Op) : State :=
  match op with
  | OpReschedule now meeting_id delay =>
      snd (reschedule_meeting now st meeting_id delay)
  | OpCheckUrgent now => check_for_urgent_meetings now st
  | OpTick tk => tick st tk
  | OpCancel meeting_id => snd (cancel_meeting st meeting_id)
  end.

Definition run_ops (ops : list Op) (st : State) : State :=
  fold_left run_op ops st.

Definition is_call (op : Op) : bool :=
  match op with
  | OpReschedule _ _ _ | OpCheckUrgent _ => true
  | _ => false
  end.

(** The record that a promoted meeting is replaced by. *)
Definition promoted (now : Z) (m : Meeting) : Meeting :=
  mkMeeting (scheduled_time m) (url m) (retry_count m) (max_retries m)
    (is_urgent m || (scheduled_time m - now <=? timedelta_minutes 15)).

(** The meeting is in the table and urgent. *)
Definition urgent_in (st : State) (meeting_id : Z) : Prop :=
  exists m, _meetings st !! meeting_id = Some m /\ is_urgent m = true.

(** The meeting is urgent if it is in the table at all. *)
Definition urgent_or_gone (st : State) (meeting_id : Z) : Prop :=
  match _meetings st !! meeting_id with
  | Some m => is_urgent m = true
  | None => True
  end.

(** The entries that one scheduling generation of a meeting has pushed on
    top of the heap [q0]: the latest carries the stored retry count, all
    earlier ones a smaller one. *)
Definition generation (q0 : list Entry) (meeting_id : Z) (st : State)
    (pushed : list Entry) : Prop :=
  Permutation (_queue st) (pushed ++ q0)
  /\ Forall (fun e => entry_id e = meeting_id) pushed
  /\ exists m latest older,
       pushed = latest :: older
       /\ _meetings st !! meeting_id = Some m
       /\ entry_retry latest = retry_count m
       /\ Forall (fun e => entry_retry e < retry_count m) older.

(** A meeting with [max_retries = n] on its way to exhaustion, [a0] being
    the number of join attempts made for it before it was scheduled: it is
    in the table, and either the attempt after [retry_count] failures is
    pending as the only entry of the meeting in the heap, or all [n + 1]
    attempts have been made and the heap has no entry for it. *)
Definition exhausting (a0 : nat) (n : Z) (meeting_id : Z) (st : State)
  : Prop :=
  exists m,
    _meetings st !! meeting_id = Some m
    /\ max_retries m = n
    /\ 0 <= retry_count m <= n
    /\ ((attempts meeting_id st = (a0 + Z.to_nat (retry_count m))%nat
         /\ exists e, entries_for meeting_id (_queue st) = [e]
                      /\ entry_retry e = retry_count m)
        \/ (attempts meeting_id st = (a0 + Z.to_nat n + 1)%nat
            /\ retry_count m = n
            /\ entries_for meeting_id (_queue st) = [])).

(** Every tick of the list comes when the head of the heap is due. *)
Fixpoint all_due (tks : list Tick) (st : State) : Prop :=
  match tks with
  | [] => True
  | tk :: tks' =>
      match _queue st with
      | e :: _ => next_time e <= tick_now tk
      | [] => True
      end
      /\ all_due tks' (tick st tk)
  end.

(** The entries of a meeting in the heap are fenced: no two carry the same
    retry count, and none a retry count above the stored one. *)
Definition fenced (meeting_id : Z) (st : State) : Prop :=
  NoDup (map entry_retry (entries_for meeting_id (_queue st)))
  /\ forall m,
       _meetings st !! meeting_id = Some m ->
       Forall (fun e => entry_retry e <= retry_count m)
         (entries_for meeting_id (_queue st)).

End QueueSpec.

Module AnalyticsSpec.
Import Analytics.

(** The scores that the emotions [es] give to the name [nm], in their
    order. *)
Definition scores_of (nm : string) (es : list Emotion) : list float :=
  map score (List.filter (fun e => String.eqb (name e) nm) es).

Definition all_emotions (frames : list Frame) : list Emotion :=
  flat_map emotions frames.

(** The sum as Python accumulates it, from 0 and from left to right. *)
Definition sum_scores (l : list float) : float :=
  fold_left PrimFloat.add l 0%float.

(** The name occurs in one of the frames. *)
Definition named_in (frames : list Frame) (nm : string) : Prop :=
  exists f e, In f frames /\ In e (emotions f) /\ name e = nm.

(** What the totals hold after the emotions [es] have been added. *)
Definition totals_agree (totals : dict float) (es : list Emotion) : Prop :=
  forall nm,
    dict_get totals nm =
      match scores_of nm es with
      | [] => None
      | l => Some (sum_scores l)
      end.

(** One turn of the loop over [matches], as a function of the match: the
    frame that the turn appends, if any. *)
Definition frame_of_block (m : string * string) : option Frame :=
  match py_float (fst m) with
  | None => None
  | Some time_val =>
      match map emotion_of_match (findall emotion_pattern (snd m)) with
      | [] => None
      | ems => Some (mkFrame time_val ems)
      end
  end.

(** Each question with the end of its answer window: the time of the
    question after it, no end for the last one. *)
Fixpoint windows (qs : list Question) : list (Question * bound) :=
  match qs with
  | [] => []
  | q :: rest =>
      (q, match rest with
          | q' :: _ => Finite (time_seconds q')
          | [] => Infinite
          end) :: windows rest
  end.

(** The segments that start in the window of [q]. *)
Definition answers (segments : list Segment) (q : Question) (end_time : bound)
  : list Segment :=
  List.filter (in_window (time_seconds q) end_time) segments.

(** [r] is the first of the strongest elements of [l]: nothing before it
    has a key that is at least as large, nothing after it a larger one. *)
Definition first_strongest {A} (key : A -> float) (l : list A) (r : A)
  : Prop :=
  exists before after,
    l = before ++ r :: after
    /\ (forall s, In s before -> (key r <=? key s)%float = false)
    /\ (forall s, In s after -> (key r <? key s)%float = false).

(** The pair that a question gives, if any. *)
Definition pair_of (segments : list Segment) (w : Question * bound)
  : option QAPair :=
  let '(q, end_time) := w in
  match answers segments q end_time with
  | [] => None
  | s :: rest =>
      Some (mkQAPair (text q) (timestamp q) (max_by strongest_key s rest)
              (s :: rest))
  end.

End AnalyticsSpec.


(* ===================================================================== *)
(** * Part III, continued: the code around the two classes

    The callers and the neighbours of the functions above, and the
    vocabulary of their properties. *)
(* ===================================================================== *)

Module QueueLifecycle.
Import MeetingQueue QueueSpec.

(** Any call of the public interface, or an iteration of the worker. *)
Inductive Call : Type :=
| CallSchedule (cb : callback) (now : Z) (meeting_id : Z) (u : string)
    (sched : Z) (maxr : Z)
| CallOp (op : Op).

Definition run_call (st : State) (c : Call) : State :=
  match c with
  | CallSchedule cb now meeting_id u sched maxr =>
      snd (schedule_meeting cb now st meeting_id u sched maxr)
  | CallOp op => run_op st op
  end.

Definition run_calls (cs : list Call) (st : State) : State :=
  fold_left run_call cs st.

(** Whenever the worker asks the callback of [op] to join [meeting_id], the
    join succeeds. *)
Definition joins_succeed (meeting_id : Z) (op : Op) : Prop :=
  match op with
  | OpTick tk => forall u, tick_callback tk meeting_id u = Returns true
  | _ => True
  end.

(** The [max_retries] that a call hands in is not negative. *)
Definition budget_given (c : Call) : Prop :=
  match c with
  | CallSchedule _ _ _ _ _ maxr => 0 <= maxr
  | CallOp _ => True
  end.

(** No meeting of the table has used more retries than it was given. *)
Definition within_budget (st : State) : Prop :=
  forall meeting_id m,
    _meetings st !! meeting_id = Some m -> 0 <= retry_count m <= max_retries m.

(** Every honored entry of the heap carries the time and the URL that the
    table stores for its meeting. *)
Definition punctual (st : State) : Prop :=
  forall e m,
    In e (_queue st) -> _meetings st !! entry_id e = Some m ->
    retry_count m = entry_retry e ->
    next_time e = scheduled_time m /\ entry_url e = url m.

End QueueLifecycle.

(** ** [DatabaseManager._execute_with_retry]
    ([src/database/manager.py]) *)

Module Database.

(** What one execution of [operation] comes to: it returns a value, or it
    raises.  Of an exception the loop asks whether it is an
    [sqlite3.OperationalError] whose text contains [database is locked]; any
    other [OperationalError] and any other [Exception] are raised again. *)
Inductive error : Type :=
| DatabaseLocked
| OtherError.

Inductive attempt (A : Type) : Type :=
| Done (v : A)
| Fails (e : error).
Arguments Done {A} v.
Arguments Fails {A} e.

(** What [_execute_with_retry] comes to: [Returned None] is the [None] of a
    loop that ends without a [return]. *)
Inductive result (A : Type) : Type :=
| Returned (v : option A)
| Raised (e : error).
Arguments Returned {A} v.
Arguments Raised {A} e.

(** The run of the loop: its result, how often [operation] was executed,
    and the arguments of the [time.sleep] calls, in order. *)
Record Run (A : Type) : Type := mkRun {
  outcome : result A;
  executions : nat;
  sleeps : list float
}.
Arguments mkRun {A} outcome executions sleeps.
Arguments outcome {A} r.
Arguments executions {A} r.
Arguments sleeps {A} r.

(** The settings of [__init__]: five tries, and a tenth of a second (the
    binary64 nearest to 0.1). *)
Definition default_max_retries : Z := 5.
Definition default_retry_delay : float := 0x1.999999999999ap-4%float.

(** [self._retry_delay * (2 ** attempt)] *)
Definition backoff (_retry_delay : float) (attempt : Z) : float :=
  (_retry_delay * Analytics.float_of_int (2 ^ attempt))%float.

(** [for attempt in range(self._max_retries)], from [attempt] on, with
    [todo] values of the range left.  [operation k] is what the execution
    number [k] of the operation comes to. *)
Fixpoint retry_loop {A} (operation : nat -> attempt A)
    (_max_retries : Z) (_retry_delay : float)
    (attempt : Z) (todo : nat) (done : nat) (slept : list float) : Run A :=
  match todo with
  | O => mkRun (Returned None) done slept
  | S todo' =>
      match operation done with
      | Done v => mkRun (Returned (Some v)) (S done) slept
      | Fails DatabaseLocked =>
          if attempt <? _max_retries - 1 then
            retry_loop operation _max_retries _retry_delay (attempt + 1)
              todo' (S done) (slept ++ [backoff _retry_delay attempt])
          else mkRun (Raised DatabaseLocked) (S done) slept
      | Fails OtherError => mkRun (Raised OtherError) (S done) slept
      end
  end.

Definition _execute_with_retry {A} (operation : nat -> attempt A)
    (_max_retries : Z) (_retry_delay : float) : Run A :=
  retry_loop operation _max_retries _retry_delay 0 (Z.to_nat _max_retries)
    0 [].

(** The first [k] executions of the operation find the database locked. *)
Definition locked_until {A} (operation : nat -> attempt A) (k : nat) : Prop :=
  forall j, (j < k)%nat -> operation j = Fails DatabaseLocked.

(** The delays of [k] retries: [_retry_delay * 2 ** 0], ...,
    [_retry_delay * 2 ** (k - 1)]. *)
Definition backoffs (_retry_delay : float) (k : nat) : list float :=
  map (fun i => backoff _retry_delay (Z.of_nat i)) (seq 0 k).

End Database.

(** ** The polling loop of [AnalyticsProcessor.process_recording]
    ([src/analytics/processor.py]) *)

Module Polling.

(** What one [get_job_details] comes to: the status read from the answer,
    or an exception. *)
Inductive poll : Type :=
| Completed                 (* [status == "COMPLETED"] *)
| Failed                    (* [status == "FAILED"] *)
| InProgress                (* any other status *)
| Error.                    (* the request raised *)

Definition max_retries : Z := 30.

(** The variables of the loop, with the number of requests made and the
    seconds slept so far. *)
Record Loop : Type := mkLoop {
  job_complete : bool;
  retry_count : Z;
  polls : nat;
  slept : Z
}.

(** One turn of the loop body.  [FAILED] raises inside the [try] and is
    caught by its [except Exception], as a failed request is. *)
Definition poll_step (answers : nat -> poll) (l : Loop) : Loop :=
  match answers (polls l) with
  | Completed => mkLoop true (retry_count l) (S (polls l)) (slept l)
  | InProgress =>
      mkLoop (job_complete l) (retry_count l + 1) (S (polls l)) (slept l + 10)
  | Failed | Error =>
      mkLoop (job_complete l) (retry_count l + 1) (S (polls l)) (slept l + 10)
  end.

(** [while not job_complete and retry_count < max_retries]; [fuel] bounds
    the number of turns. *)
Fixpoint poll_loop (answers : nat -> poll) (fuel : nat) (l : Loop) : option Loop :=
  if negb (job_complete l) && (retry_count l <? max_retries) then
    match fuel with
    | O => None
    | S fuel' => poll_loop answers fuel' (poll_step answers l)
    end
  else Some l.

(** The loop from its start. *)
Definition wait_for_job (answers : nat -> poll) (fuel : nat) : option Loop :=
  poll_loop answers fuel (mkLoop false 0 0 0).

(** None of the first [k] answers is [COMPLETED]. *)
Definition pending_until (answers : nat -> poll) (k : nat) : Prop :=
  forall j, (j < k)%nat -> answers j <> Completed.

End Polling.

(** ** [ZoomBotScheduler] ([src/zoom_bot/scheduler.py]): the owner of the
    queue *)

Module Scheduler.
Import MeetingQueue.

(** What the database and the thread library answer during one call:
    whether the [update_meeting] that writes the status [joining] returns
    (it raises otherwise), whether [thread.start()] does, and whether the
    [update_meeting] that writes the status [scheduled] does. *)
Record World : Type := mkWorld {
  joining_written : bool;
  thread_started : bool;
  scheduled_written : bool
}.

(** What a call leaves behind outside the queue. *)
Inductive Effect : Type :=
| StatusWritten (meeting_id : Z) (status : string)
| ThreadStarted (meeting_id : Z) (u : string).

(** [join_meeting_now]: the join itself is left to the thread, and every
    [Exception] is answered with [False]. *)
Definition join_meeting_now (w : World) (meeting_id : Z) (meeting_url : string)
  : bool * list Effect :=
  if joining_written w then
    if thread_started w then
      (true,
       [StatusWritten meeting_id "joining";
        ThreadStarted meeting_id meeting_url])
    else (false, [StatusWritten meeting_id "joining"])
  else (false, []).

(** [MeetingQueue(self.join_meeting_now)]: the callback of the queue. *)
Definition join_callback (w : World) : callback :=
  fun meeting_id u => Returns (fst (join_meeting_now w meeting_id u)).

(** The effects of the callback invocations that the queue has made
    between two of its states. *)
Definition effects_since (w : World) (before after : State) : list Effect :=
  flat_map (fun c => snd (join_meeting_now w (fst c) (snd c)))
    (skipn (length (join_calls before)) (join_calls after)).

(** [schedule_meeting].  [now] is the clock as the scheduler reads it,
    [now_queue] as the queue reads it afterwards; [st] is the state of
    [self.meeting_queue].  The queue is called with its default
    [max_retries] of 5. *)
Definition schedule_meeting (w : World) (now now_queue : Z) (st : State)
    (meeting_id : Z) (meeting_url : string) (meeting_time : Z)
  : bool * State * list Effect :=
  let time_diff := meeting_time - now in
  if time_diff <=? 0 then
    let '(joined, effects) := join_meeting_now w meeting_id meeting_url in
    (joined, st, effects)
  else
    let '(success, st') :=
      MeetingQueue.schedule_meeting (join_callback w) now_queue st
        meeting_id meeting_url meeting_time 5 in
    let effects := effects_since w st st' in
    match success with
    | Returns true =>
        if scheduled_written w then
          (true, st', effects ++ [StatusWritten meeting_id "scheduled"])
        else (false, st', effects)
    | _ => (false, st', effects)
    end.

End Scheduler.

(** ** Vocabulary for the edges of the alignment *)

Module AnalyticsEdges.
Import Analytics AnalyticsSpec.

Local Open Scope string_scope.
Local Open Scope list_scope.
Local Open Scope Z_scope.

(** How often the character occurs in the string. *)
Fixpoint count_char (c : ascii) (s : string) : nat :=
  match s with
  | EmptyString => 0%nat
  | String a s' =>
      if Ascii.eqb a c then S (count_char c s') else count_char c s'
  end.

(** The window has room: it has no end, or its end is after its start. *)
Definition has_room (w : Question * bound) : bool :=
  match snd w with
  | Finite z => time_seconds (fst w) <? z
  | Infinite => true
  end.

(** Some selected frame has an emotion. *)
Definition some_emotion (frames : list Frame) : Prop :=
  exists f, In f frames /\ emotions f <> [].

End AnalyticsEdges.

(** ** What the two patterns can capture *)

Module Captures.
Import Analytics.

Local Open Scope string_scope.
Local Open Scope list_scope.

(** Every character of the string is in the class. *)
Fixpoint all_chars (p : ascii -> bool) (s : string) : bool :=
  match s with
  | EmptyString => true
  | String a s' => p a && all_chars p s'
  end.

(** How many characters of the string are in the class. *)
Fixpoint count_chars (p : ascii -> bool) (s : string) : nat :=
  match s with
  | EmptyString => 0%nat
  | String a s' => if p a then S (count_chars p s') else count_chars p s'
  end.

Definition is_dot (a : ascii) : bool := Ascii.eqb a ".".

(** The matches of a regular expression, as a relation: [r] matches from
    [s] to its suffix [rest] and turns the groups [c] into [c']. *)
Inductive matches : regex -> string -> string -> captures -> captures -> Prop :=
| matches_Lit l s rest c :
    drop_prefix l s = Some rest -> matches (Lit l) s rest c c
| matches_Class p a rest c :
    p a = true -> matches (Class p) (String a rest) rest c c
| matches_Seq r1 r2 s mid rest c c1 c2 :
    matches r1 s mid c c1 -> matches r2 mid rest c1 c2 ->
    matches (Seq r1 r2) s rest c c2
| matches_Star_stop greedy r s c :
    matches (Star greedy r) s s c c
| matches_Star_more greedy r s mid rest c c1 c2 :
    matches r s mid c c1 -> matches (Star greedy r) mid rest c1 c2 ->
    matches (Star greedy r) s rest c c2
| matches_Group n r s rest c c1 :
    matches r s rest c c1 ->
    matches (Group n r) s rest c ((n, consumed s rest) :: c1).

(** The expression has no capture group. *)
Fixpoint groupless (r : regex) : bool :=
  match r with
  | Lit _ | Class _ => true
  | Seq r1 r2 => groupless r1 && groupless r2
  | Star _ r1 => groupless r1
  | Group _ _ => false
  end.

(** The loop of [rmatch] for [Star greedy r], by itself. *)
Section StarLoop.
Context {R : Type} (greedy : bool) (r : regex)
  (k : string -> captures -> option R).

Fixpoint star_loop (fuel : nat) (s : string) (c : captures) {struct fuel}
  : option R :=
  match fuel with
  | O => k s c
  | S fuel' =>
      if greedy then
        match
          rmatch r s c (fun s' c' =>
            if (String.length s' <? String.length s)%nat
            then star_loop fuel' s' c' else None)
        with
        | Some x => Some x
        | None => k s c
        end
      else
        match k s c with
        | Some x => Some x
        | None =>
            rmatch r s c (fun s' c' =>
              if (String.length s' <? String.length s)%nat
              then star_loop fuel' s' c' else None)
        end
  end.
End StarLoop.

End Captures.

(** ** The frame blocks of a raw text *)

Module Blocks.
Import Analytics Captures.

Local Open Scope list_scope.
Local Open Scope string_scope.

(** A frame block as it is written in the raw text:

    [FacePrediction(frame=N,<gap>time=T<middle>emotions=[E]]

    with the frame number [N], the white space [<gap>], the time [T], what
    stands between the time and the emotion list, and the emotion list
    [E]. *)
Record Block : Type := mkBlock {
  frame_number : string;
  time_gap : string;
  time_text : string;
  block_middle : string;
  emotions_text : string
}.

Definition block_open : string := "FacePrediction(frame=".
Definition emotions_open : string := "emotions=[".

Definition block_text (b : Block) : string :=
  block_open ++ frame_number b ++ "," ++ time_gap b ++ "time=" ++ time_text b
  ++ block_middle b ++ emotions_open ++ emotions_text b ++ "]".

(** [l] occurs in [s ++ l] at the end only: no occurrence of [l] starts
    in [s]. *)
Fixpoint first_at_end (l s : string) : bool :=
  match s with
  | EmptyString => true
  | String _ s' =>
      match drop_prefix l (s ++ l) with
      | Some _ => false
      | None => first_at_end l s'
      end
  end.

Definition starts_in (p : ascii -> bool) (s : string) : bool :=
  match s with
  | String a _ => p a
  | EmptyString => false
  end.

Definition nonempty (s : string) : bool :=
  match s with
  | EmptyString => false
  | String _ _ => true
  end.

Definition closing (a : ascii) : bool := Ascii.eqb a "]".

(** The block is written in full: a frame number of digits, a time of
    digits and dots (a number or not) that ends where the middle begins, an
    emotion list of its own, which opens at the first [emotions=[] after the
    time and closes at the first bracket after that; and it is one block: no
    other block opens inside it. *)
Definition well_formed (b : Block) : bool :=
  nonempty (frame_number b) && all_chars is_digit (frame_number b)
  && all_chars is_space (time_gap b)
  && nonempty (time_text b) && all_chars digits_or_dot (time_text b)
  && negb (starts_in digits_or_dot (block_middle b))
  && first_at_end emotions_open (block_middle b)
  && all_chars (fun a => negb (closing a)) (emotions_text b)
  && negb (contains block_open (block_middle b))
  && negb (contains block_open (emotions_text b)).

(** A text of frame blocks: each block after a gap, and a tail after the
    last one. *)
Fixpoint text_of (parts : list (string * Block)) (tail : string) : string :=
  match parts with
  | [] => tail
  | (gap, b) :: parts' => gap ++ block_text b ++ text_of parts' tail
  end.

(** Every block is written in full, and no block opens in a gap or in the
    tail. *)
Definition well_formed_text (parts : list (string * Block)) (tail : string)
  : bool :=
  forallb (fun '(gap, b) => first_at_end block_open gap && well_formed b)
    parts
  && negb (contains block_open tail).

(** The frame of a block, in the words of the specification: none for a
    time that is no number, none when no emotion pair is extracted from the
    emotion list. *)
Definition frame_of_text_block (b : Block) : option Frame :=
  match py_float (time_text b) with
  | None => None
  | Some time_val =>
      match emotions_of (emotions_text b) with
      | [] => None
      | ems => Some (mkFrame time_val ems)
      end
  end.

End Blocks.

(** ** From the raw transcript to the segments:
    [_process_transcript_with_emotions] and [_extract_emotion_data] *)

Module Transcript.
Import Analytics.

Local Open Scope string_scope.
Local Open Scope list_scope.
Local Open Scope Z_scope.

(** An utterance of [transcript_raw.json], as far as it is read: the two
    numbers are JSON integers (milliseconds), [transcription] is an object;
    each of the three may be missing. *)
Record Utterance : Type := mkUtterance {
  timestamp_ms : option Z;
  duration_ms : option Z;
  transcription_transcript : option string
}.

(** [segment.get(key, 0)] *)
Definition get_or_zero (o : option Z) : Z :=
  match o with
  | Some z => z
  | None => 0
  end.

(** The [float] that an [int] is converted to as the operand of a division
    by a [float]; [None] is [OverflowError]. *)
Definition float_of_int_checked (n : Z) : option float :=
  match binary_normalize prec emax n 0 false with
  | S754_infinity _ => None
  | f => Some (SF2Prim f)
  end.

(** [n / 1000.0] *)
Definition seconds_of_ms (n : Z) : option float :=
  match float_of_int_checked n with
  | Some f => Some (f / 1000)%float
  | None => None
  end.

(** [min(segment.get("timestamp_ms", 0) for segment in transcript_data)],
    for data that is not empty. *)
Definition min_timestamp (first : Utterance) (others : list Utterance) : Z :=
  fold_left (fun m u => Z.min m (get_or_zero (timestamp_ms u))) others
    (get_or_zero (timestamp_ms first)).

(** One turn of the loop: the segment that is appended, unless a
    conversion raises. *)
Definition segment_of (emotion_frames : list Frame) (baseline : float)
    (segment : Utterance) : option Segment :=
  match seconds_of_ms (get_or_zero (timestamp_ms segment)) with
  | None => None
  | Some t =>
      let seg_start := (t - baseline)%float in
      match seconds_of_ms (get_or_zero (duration_ms segment)) with
      | None => None
      | Some seg_duration =>
          let seg_end := (seg_start + seg_duration)%float in
          Some (mkSegment
                  (get_or_empty (transcription_transcript segment))
                  seg_start seg_end
                  (_average_emotions_for_segment emotion_frames seg_start
                     seg_end))
      end
  end.

(** The loop; an exception in any turn leaves the function through its
    [except], which returns the empty list. *)
Fixpoint segments_of (emotion_frames : list Frame) (baseline : float)
    (transcript_data : list Utterance) (insights : list Segment)
  : option (list Segment) :=
  match transcript_data with
  | [] => Some insights
  | segment :: rest =>
      match segment_of emotion_frames baseline segment with
      | None => None
      | Some s => segments_of emotion_frames baseline rest (insights ++ [s])
      end
  end.

(** [transcript_data] is what [json.load] has read, [None] when the file
    cannot be opened or parsed. *)
Definition _process_transcript_with_emotions
    (transcript_data : option (list Utterance)) (emotion_frames : list Frame)
  : list Segment :=
  match transcript_data with
  | None => []
  | Some [] => []
  | Some (first :: others) =>
      match seconds_of_ms (min_timestamp first others) with
      | None => []
      | Some baseline =>
          match segments_of emotion_frames baseline (first :: others) [] with
          | Some insights => insights
          | None => []
          end
      end
  end.

(** [analytics_data], as far as it is read: [emotion_frames] when the key
    is there, the raw text of the Hume result, and [result_path]. *)
Record AnalyticsData : Type := mkAnalyticsData {
  emotion_frames_entry : option (list Frame);
  hume_data : HumeData;
  result_path : option string
}.

(** The file [transcript_raw.json] beside [result_path]. *)
Inductive raw_transcript : Type :=
| Missing                                (* [os.path.exists] is false *)
| Unreadable                             (* it cannot be opened or parsed *)
| Parsed (transcript_data : list Utterance).

Definition emotion_frames_of (analytics_data : AnalyticsData) : list Frame :=
  match emotion_frames_entry analytics_data with
  | Some frames => frames
  | None => _extract_emotion_frames_from_raw (hume_data analytics_data)
  end.

(** [None] is the [KeyError] of [analytics_data["result_path"]]. *)
Definition _extract_emotion_data (analytics_data : AnalyticsData)
    (file : raw_transcript) : option (list Segment) :=
  let emotion_frames := emotion_frames_of analytics_data in
  match result_path analytics_data with
  | None => None
  | Some _ =>
      match file, emotion_frames with
      | Missing, _ => Some []
      | _, [] => Some []
      | Unreadable, _ =>
          Some (_process_transcript_with_emotions None emotion_frames)
      | Parsed transcript_data, _ =>
          Some (_process_transcript_with_emotions (Some transcript_data)
                  emotion_frames)
      end
  end.

(** The [emotion_data] and the [filtered_qa_pairs] that [generate_insights]
    returns, [transcript] being the text of the transcript file (empty
    without one). *)
Definition emotion_data_and_pairs (analytics_data : AnalyticsData)
    (file : raw_transcript) (transcript : string)
  : option (list Segment * list QAPair) :=
  match _extract_emotion_data analytics_data file with
  | None => None
  | Some transcript_with_emotions =>
      Some (transcript_with_emotions,
            _filter_relevant_questions transcript_with_emotions transcript)
  end.

(** Both numbers of the utterance can be converted. *)
Definition convertible (u : Utterance) : Prop :=
  float_of_int_checked (get_or_zero (timestamp_ms u)) <> None
  /\ float_of_int_checked (get_or_zero (duration_ms u)) <> None.

End Transcript.

(** ** [_combine_insights] *)

Module Insights.
Import Analytics.

Section Combine.

(** The two dicts come from JSON.  Of their values the function looks into
    the lists under [strengths] and [development_areas] only: a list is an
    object of the heap, known by its address, so that two dicts can hold
    the same list; every other value is opaque.  The items of the lists are
    compared with [==]. *)
Context {Item Other : Type} `{EqDecision Item}.

Definition loc : Type := positive.

Inductive value : Type :=
| VList (l : loc)
| VOther (o : Other).

Definition heap : Type := gmap loc (list Item).

Definition insights : Type := dict value.

(** [if x not in items: items.append(x)] *)
Definition append_unique (items : list Item) (x : Item) : list Item :=
  if decide (x ∈ items) then items else items ++ [x].

(** [for x in new: if x not in items: items.append(x)] *)
Definition merge_unique (items new : list Item) : list Item :=
  fold_left append_unique new items.

(** The merge of the lists under [key].  [None] stands for what is not
    modelled: a value under [key] that is not a list. *)
Definition merge_key (key : string) (combined emotional_analysis : insights)
    (h : heap) : option (insights * heap) :=
  match dict_get emotional_analysis key with
  | None => Some (combined, h)
  | Some source =>
      let '(combined, h) :=
        match dict_get combined key with
        | Some _ => (combined, h)
        | None =>
            let l := fresh (dom h) in
            (dict_set combined key (VList l), <[l := []]> h)
        end in
      match source, dict_get combined key with
      | VList src, Some (VList dst) =>
          match h !! src, h !! dst with
          | Some new, Some items =>
              Some (combined, <[dst := merge_unique items new]> h)
          | _, _ => None
          end
      | _, _ => None
      end
  end.

(** [combined[key] = emotional_analysis[key]] when the key is there. *)
Definition take_key (key : string) (combined emotional_analysis : insights)
  : insights :=
  match dict_get emotional_analysis key with
  | Some v => dict_set combined key v
  | None => combined
  end.

(** [None] for a dict is Python's [None]; an empty dict is as falsy. *)
Definition _combine_insights (primary_insights emotional_analysis
    : option insights) (h : heap) : option (insights * heap) :=
  let combined :=
    match primary_insights with
    | Some (kv :: rest) => kv :: rest          (* [.copy()] *)
    | _ => []
    end in
  match emotional_analysis with
  | Some (kv :: rest) =>
      let emotional_analysis := kv :: rest in
      let combined :=
        match dict_get combined "emotional_response_analysis" with
        | None =>
            take_key "emotional_response_analysis" combined
              emotional_analysis
        | Some _ => combined
        end in
      let combined :=
        take_key "question_specific_insights" combined emotional_analysis in
      match merge_key "strengths" combined emotional_analysis h with
      | None => None
      | Some (combined, h) =>
          match
            merge_key "development_areas" combined emotional_analysis h
          with
          | None => None
          | Some (combined, h) =>
              Some (take_key "word_emotion_correlations" combined
                      emotional_analysis, h)
          end
      end
  | _ => Some (combined, h)
  end.

(** What the merge loop appends, position by position: the item at
    position [i] of [new] when it is neither among [items] nor at an earlier
    position of [new]. *)
Definition first_new (items new : list Item) (i : nat) : option Item :=
  match new !! i with
  | Some x =>
      if decide (x ∈ items \/ x ∈ take i new) then None else Some x
  | None => None
  end.

Definition appended (items new : list Item) : list Item :=
  omap (first_new items new) (seq 0 (length new)).

(** The list that a dict holds under a key, read through the heap. *)
Definition list_under (d : insights) (key : string) (h : heap)
  : option (list Item) :=
  match dict_get d key with
  | Some (VList l) => h !! l
  | _ => None
  end.

End Combine.

End Insights.

(** ** [format_transcript] ([src/utils/transcript_formatter.py]), in the
    [conversation] format that the bot controller asks for *)

Module Formatter.
Import Analytics.

Local Open Scope string_scope.
Local Open Scope list_scope.
Local Open Scope Z_scope.

(** An entry of the raw transcript, as far as it is read: the speaker and
    the timestamp may be missing; [text] is what [extract_full_text] makes
    of the transcription. *)
Record RawEntry : Type := mkRawEntry {
  speaker_name : option string;
  entry_timestamp_ms : option Z;
  entry_text : string
}.

(** [f"{n:02d}"]: the decimal digits, after the sign of a negative number,
    padded with a zero to two characters. *)
Definition format_02d (n : Z) : string :=
  let digits := NilZero.string_of_int (Z.to_int n) in
  if (0 <=? n) && (n <? 10) then String "0" digits else digits.

Section Conversation.

(** [format_timestamp_relative] computes its minutes and seconds with
    [float] arithmetic, which is not modelled: the two [int]s that it
    formats are given by [relative], in terms of its two arguments; [None]
    stands for an exception. *)
Context (relative : Z -> Z -> option (Z * Z)).

Definition format_timestamp_relative (start_ms current_ms : Z)
  : option string :=
  if (start_ms =? 0) || (current_ms =? 0) then Some "00:00"
  else
    match relative start_ms current_ms with
    | Some (minutes, seconds) =>
        Some (format_02d minutes ++ ":" ++ format_02d seconds)%string
    | None => None
    end.

(** [entry.get("speaker_name", "Unknown")] *)
Definition speaker_of (entry : RawEntry) : string :=
  match speaker_name entry with
  | Some s => s
  | None => "Unknown"
  end.

(** [entry.get("timestamp_ms", 0)] *)
Definition timestamp_of (entry : RawEntry) : Z :=
  match entry_timestamp_ms entry with
  | Some t => t
  | None => 0
  end.

Definition same_speaker (current_speaker : option string) (speaker : string)
  : bool :=
  match current_speaker with
  | Some s => String.eqb s speaker
  | None => false
  end.

(** One turn of the loop: [current_speaker] and what has been written so
    far; [None] when the turn raises. *)
Definition write_entry (start_timestamp_ms : Z)
    (state : option string * string) (entry : RawEntry)
  : option (option string * string) :=
  let '(current_speaker, written) := state in
  let speaker := speaker_of entry in
  match entry_text entry with
  | EmptyString => Some state                               (* [continue] *)
  | _ =>
      if same_speaker current_speaker speaker then
        Some (current_speaker,
              (written ++ entry_text entry
                 ++ String newline (String newline ""))
              %string)
      else
        match
          format_timestamp_relative start_timestamp_ms (timestamp_of entry)
        with
        | None => None
        | Some timestamp =>
            Some (Some speaker,
                  (written ++ timestamp ++ " | " ++ speaker
                     ++ String newline
                          (entry_text entry
                             ++ String newline (String newline "")))%string)
        end
  end.

(** The loop; an exception ends the function with what has been written
    before. *)
Fixpoint write_entries (start_timestamp_ms : Z)
    (state : option string * string) (entries : list RawEntry)
  : bool * string :=
  match entries with
  | [] => (true, snd state)
  | entry :: rest =>
      match write_entry start_timestamp_ms state entry with
      | None => (false, snd state)
      | Some state' => write_entries start_timestamp_ms state' rest
      end
  end.

Definition heading : string :=
  ("Interview Transcript" ++ String newline
     ("===================" ++ String newline (String newline "")))%string.

(** The answer of [format_transcript] and the text that it leaves in the
    output file; no file when the first entry has no [timestamp_ms]. *)
Definition format_transcript_conversation (transcript_data : list RawEntry)
  : bool * option string :=
  match
    match transcript_data with
    | [] => Some 0
    | first :: _ => entry_timestamp_ms first    (* [transcript_data[0][...]] *)
    end
  with
  | None => (false, None)
  | Some start_timestamp_ms =>
      let '(ok, written) :=
        write_entries start_timestamp_ms (None, heading) transcript_data in
      (ok, Some written)
  end.

End Conversation.

(** The characters of a formatted number, and of a formatted time. *)
Definition number_char (a : ascii) : bool :=
  is_digit a || Ascii.eqb a "-".

Definition stamp_char (a : ascii) : bool :=
  number_char a || Ascii.eqb a ":".

(** The line that opens the turn of a speaker. *)
Definition turn_line (timestamp : string) (entry : RawEntry) : string :=
  (timestamp ++ " | " ++ speaker_of entry)%string.

(** What a line of the written text is: a line without bar, or the line
    that opens the turn of one of the entries. *)
Definition line_ok (entries : list RawEntry) (line : string) : Prop :=
  contains "|" line = false
  \/ exists entry timestamp,
       In entry entries /\ contains "|" timestamp = false
       /\ line = turn_line timestamp entry.

(** The written text ends a line, and all its lines are as above. *)
Definition well_written (entries : list RawEntry) (written : string) : Prop :=
  exists w,
    written = (w ++ String newline "")%string
    /\ Forall (line_ok entries) (split newline w).

(** The entry is written on lines of its own: no bar in the text, no end
    of line in the name of the speaker. *)
Definition plain (entry : RawEntry) : Prop :=
  contains "|" (entry_text entry) = false
  /\ AnalyticsEdges.count_char newline (speaker_of entry) = 0%nat.

End Formatter.


(* ===================================================================== *)
(** * Part IV: properties of [MeetingQueue] *)
(* ===================================================================== *)

Module QueueProofs.
Import MeetingQueue QueueSpec.

(** ** The heap *)

Lemma heappush_perm (q : list Entry) (e : Entry) :
  Permutation (heappush q e) (e :: q).
Proof.
  induction q as [|x q IH]; simpl; [reflexivity|].
  destruct (entry_compare e x); try reflexivity.
  rewrite IH. apply perm_swap.
Qed.

Lemma entries_for_heappush (q : list Entry) (e : Entry) (meeting_id : Z) :
  Permutation (entries_for meeting_id (heappush q e))
    (if entry_id e =? meeting_id
     then e :: entries_for meeting_id q
     else entries_for meeting_id q).
Proof.
  unfold entries_for.
  induction q as [|x q IH]; simpl.
  - destruct (entry_id e =? meeting_id); reflexivity.
  - destruct (entry_compare e x); simpl;
      destruct (entry_id e =? meeting_id) eqn:He;
      destruct (entry_id x =? meeting_id) eqn:Hx;
      try reflexivity; rewrite IH; try reflexivity; apply perm_swap.
Qed.

Lemma entries_for_heappush_other (q : list Entry) (e : Entry) (meeting_id : Z) :
  entry_id e <> meeting_id ->
  entries_for meeting_id (heappush q e) = entries_for meeting_id q.
Proof.
  intros Hne. unfold entries_for.
  apply Z.eqb_neq in Hne.
  induction q as [|x q IH]; simpl.
  - rewrite Hne. reflexivity.
  - destruct (entry_compare e x); simpl; rewrite ?Hne, ?IH; reflexivity.
Qed.

Lemma entries_for_heappush_first (q : list Entry) (e : Entry) :
  entries_for (entry_id e) q = [] ->
  entries_for (entry_id e) (heappush q e) = [e].
Proof.
  intros Hq.
  pose proof (entries_for_heappush q e (entry_id e)) as Hp.
  rewrite Z.eqb_refl, Hq in Hp.
  apply Permutation_sym, Permutation_length_1_inv in Hp. exact Hp.
Qed.

(** ** [reschedule_meeting] *)

Lemma heappush_not_same (q : list Entry) (e : Entry) : heappush q e <> q.
Proof.
  intros Heq. pose proof (heappush_perm q e) as Hp.
  rewrite Heq in Hp. apply Permutation_length in Hp. simpl in Hp. lia.
Qed.

(** The three ways out of [reschedule_meeting]. *)
Lemma reschedule_meeting_cases (now : Z) (st : State) (meeting_id : Z)
    (delay_minutes : option Z) :
  let r := reschedule_meeting now st meeting_id delay_minutes in
  (fst r = false <->
     _meetings st !! meeting_id = None
     \/ exists m, _meetings st !! meeting_id = Some m
                  /\ retry_count m >= max_retries m)
  /\ (fst r = false -> snd r = st)
  /\ (fst r = true ->
      exists m, _meetings st !! meeting_id = Some m
         /\ let delay :=
              match delay_minutes with
              | Some d => d
              | None => if is_urgent m then 3 else 5
              end in
            let new_time := now + timedelta_minutes delay in
            _meetings (snd r) =
              <[meeting_id :=
                  mkMeeting new_time (url m) (retry_count m + 1)
                    (max_retries m) (is_urgent m)]> (_meetings st)
            /\ _queue (snd r) =
                 heappush (_queue st)
                   (mkEntry new_time meeting_id (url m) (retry_count m + 1))
            /\ join_calls (snd r) = join_calls st).
Proof.
  unfold reschedule_meeting.
  destruct (_meetings st !! meeting_id) as [m|] eqn:Hm; simpl.
  - destruct (Z.leb_spec (max_retries m) (retry_count m)) as [Hle|Hlt]; simpl.
    + split; [|split]; [split| |]; try done.
      intros _. right. exists m. split; [done|lia].
    + split; [|split]; [split| |]; try done.
      * intros [Hn|[m' [Hm' Hge]]]; [done|].
        injection Hm' as <-. lia.
      * intros _. by exists m.
  - split; [|split]; [split| |]; try done. intros _. by left.
Qed.

(** ** [schedule_meeting] *)

Lemma _remove_meeting_meetings (st : State) (meeting_id : Z) :
  _meetings (_remove_meeting st meeting_id) = delete meeting_id (_meetings st).
Proof.
  unfold _remove_meeting.
  destruct (_meetings st !! meeting_id) eqn:Hm; simpl; [done|].
  symmetry. by apply delete_id.
Qed.

Lemma _remove_meeting_queue (st : State) (meeting_id : Z) :
  _queue (_remove_meeting st meeting_id) = _queue st.
Proof. unfold _remove_meeting. by destruct (_meetings st !! meeting_id). Qed.

Lemma _remove_meeting_calls (st : State) (meeting_id : Z) :
  join_calls (_remove_meeting st meeting_id) = join_calls st.
Proof. unfold _remove_meeting. by destruct (_meetings st !! meeting_id). Qed.

(** What the first statement of [schedule_meeting] leaves. *)
Lemma schedule_purge (st : State) (meeting_id : Z) :
  match _meetings st !! meeting_id with
  | Some _ => _remove_meeting st meeting_id
  | None => st
  end = set_meetings st (delete meeting_id (_meetings st)).
Proof.
  unfold _remove_meeting.
  destruct (_meetings st !! meeting_id) eqn:Hm; [done|].
  rewrite delete_id by done. by destruct st.
Qed.

(** The two ways out of [schedule_meeting]. *)
Lemma schedule_meeting_cases (cb : callback) (now : Z) (st : State)
    (meeting_id : Z) (u : string) (t maxr : Z) :
  let r := schedule_meeting cb now st meeting_id u t maxr in
  let due := t + timedelta_minutes 1 in
  let purged := delete meeting_id (_meetings st) in
  (due < now ->
     fst r = cb meeting_id u
     /\ join_calls (snd r) = join_calls st ++ [(meeting_id, u)]
     /\ _queue (snd r) = _queue st
     /\ _meetings (snd r) = purged)
  /\ (now <= due ->
     fst r = Returns true
     /\ join_calls (snd r) = join_calls st
     /\ _queue (snd r) = heappush (_queue st) (mkEntry due meeting_id u 0)
     /\ _meetings (snd r) =
          <[meeting_id :=
              mkMeeting due u 0 maxr (due - now <=? timedelta_minutes 15)]>
            purged).
Proof.
  unfold schedule_meeting. rewrite schedule_purge.
  destruct (Z.ltb_spec (t + timedelta_minutes 1) now) as [Hlt|Hge]; simpl.
  - split; [done|]. intros ?; lia.
  - split; [intros ?; lia|done].
Qed.

(** C3 as stated fails twice.  A meeting whose offset join time is exactly
    [now] is queued and the callback is not invoked; and a bypassing call for
    a meeting that is in the table removes it from the table. *)
Lemma schedule_meeting_bypass_counterexample :
  let cb : callback := fun _ _ => Returns true in
  let st0 := mkState [] ∅ [] in
  let r0 := schedule_meeting cb 60000000 st0 1 "u" 0 5 in
  let st1 := mkState [] {[ 1 := mkMeeting 900000000 "u" 0 5 false ]} [] in
  let r1 := schedule_meeting cb 900000000 st1 1 "u" 0 5 in
  (0 + timedelta_minutes 1 <= 60000000
   /\ join_calls (snd r0) = []
   /\ _queue (snd r0) = [mkEntry 60000000 1 "u" 0])
  /\ (0 + timedelta_minutes 1 <= 900000000
      /\ join_calls (snd r1) = [(1, "u"%string)]
      /\ _meetings st1 !! 1 = Some (mkMeeting 900000000 "u" 0 5 false)
      /\ _meetings (snd r1) !! 1 = None).
Proof. vm_compute. repeat split; congruence. Qed.



(** ** [check_for_urgent_meetings] *)

Lemma check_step_other (now : Z) (ms : gmap Z Meeting) (kv : Z * Meeting)
    (meeting_id : Z) :
  kv.1 <> meeting_id -> check_step now ms kv !! meeting_id = ms !! meeting_id.
Proof.
  destruct kv as [k m]; simpl. intros Hne.
  destruct (negb (is_urgent m) && _); [|done].
  by rewrite lookup_insert_ne.
Qed.

Lemma check_fold_other (now : Z) (l : list (Z * Meeting)) (ms : gmap Z Meeting)
    (meeting_id : Z) :
  meeting_id ∉ l.*1 ->
  fold_left (check_step now) l ms !! meeting_id = ms !! meeting_id.
Proof.
  revert ms. induction l as [|kv l IH]; intros ms Hnot; simpl; [done|].
  rewrite fmap_cons, not_elem_of_cons in Hnot. destruct Hnot as [Hne Hnot].
  rewrite IH by done. by apply check_step_other.
Qed.

Lemma promoted_step (now : Z) (ms : gmap Z Meeting) (meeting_id : Z)
    (m : Meeting) :
  ms !! meeting_id = Some m ->
  check_step now ms (meeting_id, m) !! meeting_id = Some (promoted now m).
Proof.
  intros Hm. unfold promoted; simpl.
  destruct m as [t u rc mr urg]; simpl in *.
  destruct urg; simpl.
  - by rewrite Hm.
  - destruct (t - now <=? timedelta_minutes 15); simpl.
    + by rewrite lookup_insert_eq.
    + by rewrite Hm.
Qed.

Lemma check_fold_here (now : Z) (l : list (Z * Meeting)) (ms : gmap Z Meeting)
    (meeting_id : Z) (m : Meeting) :
  NoDup l.*1 -> (meeting_id, m) ∈ l -> ms !! meeting_id = Some m ->
  fold_left (check_step now) l ms !! meeting_id = Some (promoted now m).
Proof.
  revert ms. induction l as [|kv l IH]; intros ms Hnd Hin Hm; simpl.
  - by apply elem_of_nil in Hin.
  - rewrite fmap_cons in Hnd. apply NoDup_cons in Hnd as [Hhd Hnd].
    apply elem_of_cons in Hin as [<-|Hin].
    + rewrite check_fold_other by done. by apply promoted_step.
    + apply IH; [done..|].
      rewrite check_step_other; [done|].
      intros Heq. apply Hhd. rewrite Heq.
      apply list_elem_of_fmap. by exists (meeting_id, m).
Qed.

Lemma check_for_urgent_meetings_lookup (now : Z) (st : State)
    (meeting_id : Z) :
  _meetings (check_for_urgent_meetings now st) !! meeting_id =
    promoted now <$> _meetings st !! meeting_id.
Proof.
  unfold check_for_urgent_meetings; simpl.
  destruct (_meetings st !! meeting_id) as [m|] eqn:Hm; simpl.
  - apply check_fold_here; [apply NoDup_fst_map_to_list| |done].
    by apply elem_of_map_to_list.
  - rewrite check_fold_other; [done|].
    intros Hin. apply list_elem_of_fmap in Hin as [[k m] [-> Hin]].
    apply elem_of_map_to_list in Hin. simpl in *. congruence.
Qed.

(** C9: at [schedule_meeting] a queued meeting is stored as urgent exactly
    when its offset join time minus [now] is at most 15 minutes; and
    [check_for_urgent_meetings] touches nothing but urgency flags: each
    meeting of the table that is not yet urgent becomes urgent exactly when
    its stored time minus [now] is at most 15 minutes, and an urgent one
    stays urgent. *)
Theorem urgency_threshold :
  (forall cb now st meeting_id u t maxr,
     now <= t + timedelta_minutes 1 ->
     exists m,
       _meetings (snd (schedule_meeting cb now st meeting_id u t maxr))
         !! meeting_id = Some m
       /\ scheduled_time m = t + timedelta_minutes 1
       /\ (is_urgent m = true <->
           t + timedelta_minutes 1 - now <= timedelta_minutes 15))
  /\ (forall now st,
        _queue (check_for_urgent_meetings now st) = _queue st
        /\ join_calls (check_for_urgent_meetings now st) = join_calls st
        /\ forall meeting_id,
             match _meetings st !! meeting_id with
             | None =>
                 _meetings (check_for_urgent_meetings now st) !! meeting_id
                 = None
             | Some m =>
                 exists m',
                   _meetings (check_for_urgent_meetings now st) !! meeting_id
                   = Some m'
                   /\ scheduled_time m' = scheduled_time m
                   /\ url m' = url m
                   /\ retry_count m' = retry_count m
                   /\ max_retries m' = max_retries m
                   /\ (is_urgent m' = true <->
                       is_urgent m = true
                       \/ scheduled_time m - now <= timedelta_minutes 15)
             end).
Proof.
  split.
  - intros cb now st meeting_id u t maxr Hdue.
    destruct (schedule_meeting_cases cb now st meeting_id u t maxr)
      as [_ Hq]. destruct (Hq Hdue) as (_ & _ & _ & ->).
    eexists. split; [apply lookup_insert_eq|]. simpl.
    split; [done|]. apply Z.leb_le.
  - intros now st. split; [done|]. split; [done|]. intros meeting_id.
    rewrite check_for_urgent_meetings_lookup.
    destruct (_meetings st !! meeting_id) as [m|]; simpl; [|done].
    exists (promoted now m). repeat split; try done; simpl.
    + intros H. apply orb_true_iff in H as [H|H]; [by left|right].
      by apply Z.leb_le.
    + intros [H|H]; apply orb_true_iff; [by left|right]. by apply Z.leb_le.
Qed.

Lemma urgency_threshold_witness :
  (exists m,
     _meetings
       (snd (schedule_meeting (fun _ _ => Returns true) 0
               (mkState [] ∅ []) 1 "u" 1140000000 5)) !! 1 = Some m
     /\ scheduled_time m = 1200000000
     /\ (is_urgent m = true <-> 1200000000 - 0 <= timedelta_minutes 15))
  /\ exists m',
       _meetings
         (check_for_urgent_meetings 360000000
            (snd (schedule_meeting (fun _ _ => Returns true) 0
                    (mkState [] ∅ []) 1 "u" 1140000000 5))) !! 1
       = Some m'
       /\ is_urgent m' = true.
Proof.
  destruct urgency_threshold as [Hs Hc]. split.
  - apply (Hs (fun _ _ => Returns true) 0 (mkState [] ∅ []) 1 "u"%string
             1140000000 5).
    vm_compute. congruence.
  - destruct (Hc 360000000
                (snd (schedule_meeting (fun _ _ => Returns true) 0
                        (mkState [] ∅ []) 1 "u" 1140000000 5)))
      as (_ & _ & Hl).
    specialize (Hl 1). vm_compute in Hl.
    destruct Hl as (m' & Hm' & _ & _ & _ & _ & Hu).
    exists m'. split; [exact Hm'|]. apply Hu. right. congruence.
Defined.

(** ** Urgency only grows *)

Lemma reschedule_meeting_lookup (now : Z) (st : State)
    (meeting_id other : Z) (delay_minutes : option Z) :
  match
    _meetings (snd (reschedule_meeting now st meeting_id delay_minutes))
      !! other
  with
  | Some m' =>
      exists m, _meetings st !! other = Some m
                /\ is_urgent m' = is_urgent m
                /\ max_retries m' = max_retries m
  | None => _meetings st !! other = None
  end.
Proof.
  unfold reschedule_meeting.
  destruct (_meetings st !! meeting_id) as [m|] eqn:Hm; simpl.
  - destruct (max_retries m <=? retry_count m); simpl.
    + destruct (_meetings st !! other) as [m0|]; [by exists m0|done].
    + destruct (decide (meeting_id = other)) as [<-|Hne].
      * rewrite lookup_insert_eq. by exists m.
      * rewrite lookup_insert_ne by done.
        destruct (_meetings st !! other) as [m0|]; [by exists m0|done].
  - destruct (_meetings st !! other) as [m0|]; [by exists m0|done].
Qed.

Lemma reschedule_keeps_urgent (now : Z) (st : State) (meeting_id other : Z)
    (delay_minutes : option Z) :
  urgent_in st other ->
  urgent_in (snd (reschedule_meeting now st meeting_id delay_minutes)) other.
Proof.
  intros (m & Hm & Hu).
  pose proof (reschedule_meeting_lookup now st meeting_id other delay_minutes)
    as H.
  destruct (_meetings (snd _) !! other) as [m'|] eqn:Hm'.
  - destruct H as (m0 & Hm0 & Hu' & _). exists m'. split; [done|].
    rewrite Hu'. congruence.
  - congruence.
Qed.

Lemma check_keeps_urgent (now : Z) (st : State) (other : Z) :
  urgent_in st other -> urgent_in (check_for_urgent_meetings now st) other.
Proof.
  intros (m & Hm & Hu). exists (promoted now m).
  rewrite check_for_urgent_meetings_lookup, Hm. split; [done|].
  simpl. by rewrite Hu.
Qed.

Lemma urgent_in_or_gone (st : State) (meeting_id : Z) :
  urgent_in st meeting_id -> urgent_or_gone st meeting_id.
Proof. intros (m & Hm & Hu). unfold urgent_or_gone. by rewrite Hm. Qed.

Lemma urgent_or_gone_cases (st : State) (meeting_id : Z) :
  urgent_or_gone st meeting_id ->
  urgent_in st meeting_id \/ _meetings st !! meeting_id = None.
Proof.
  unfold urgent_or_gone, urgent_in.
  destruct (_meetings st !! meeting_id) as [m|]; [|by right].
  intros Hu. left. by exists m.
Qed.

Lemma reschedule_keeps_gone (now : Z) (st : State) (meeting_id other : Z)
    (delay_minutes : option Z) :
  _meetings st !! other = None ->
  _meetings (snd (reschedule_meeting now st meeting_id delay_minutes))
    !! other = None.
Proof.
  intros Hnone.
  pose proof (reschedule_meeting_lookup now st meeting_id other delay_minutes)
    as H.
  destruct (_meetings (snd _) !! other) as [m'|]; [|done].
  destruct H as (m0 & Hm0 & _). congruence.
Qed.

Lemma reschedule_urgent_or_gone (now : Z) (st : State) (meeting_id other : Z)
    (delay_minutes : option Z) :
  urgent_or_gone st other ->
  urgent_or_gone (snd (reschedule_meeting now st meeting_id delay_minutes))
    other.
Proof.
  intros [H|H]%urgent_or_gone_cases.
  - by apply urgent_in_or_gone, reschedule_keeps_urgent.
  - unfold urgent_or_gone. by rewrite reschedule_keeps_gone.
Qed.

Lemma remove_urgent_or_gone (st : State) (meeting_id other : Z) :
  urgent_or_gone st other ->
  urgent_or_gone (_remove_meeting st meeting_id) other.
Proof.
  unfold urgent_or_gone. rewrite _remove_meeting_meetings.
  destruct (decide (meeting_id = other)) as [<-|Hne].
  - by rewrite lookup_delete_eq.
  - by rewrite lookup_delete_ne.
Qed.

Lemma tick_urgent_or_gone (st : State) (tk : Tick) (other : Z) :
  urgent_or_gone st other -> urgent_or_gone (tick st tk) other.
Proof.
  intros H. unfold tick, _process_next_meeting.
  destruct (_queue st) as [|e q]; [done|].
  destruct (next_time e <=? tick_now tk); [|done]. simpl.
  destruct (_meetings st !! entry_id e) as [m|]; [|done].
  destruct (negb _); [done|].
  unfold _join_meeting, call_join.
  destruct (tick_callback tk (entry_id e) (url m)) as [[|]|].
  - by apply remove_urgent_or_gone.
  - by apply reschedule_urgent_or_gone.
  - by apply reschedule_urgent_or_gone.
Qed.

Lemma run_op_urgent_or_gone (st : State) (op : Op) (other : Z) :
  urgent_or_gone st other -> urgent_or_gone (run_op st op) other.
Proof.
  intros H. destruct op as [now id d|now|tk|id]; simpl.
  - by apply reschedule_urgent_or_gone.
  - destruct (urgent_or_gone_cases _ _ H) as [Hu|Hn].
    + by apply urgent_in_or_gone, check_keeps_urgent.
    + unfold urgent_or_gone.
      by rewrite check_for_urgent_meetings_lookup, Hn.
  - by apply tick_urgent_or_gone.
  - unfold cancel_meeting.
    destruct (_meetings st !! id) eqn:Hid; simpl; [|done].
    by apply remove_urgent_or_gone.
Qed.

(** C10: within a scheduling generation urgency only grows.  Over every
    sequence of [reschedule_meeting] and [check_for_urgent_meetings] calls
    (on any meetings, with any explicit delay) a meeting that is urgent stays
    in the table and stays urgent; with worker iterations and cancellations
    in between it stays urgent for as long as it is in the table.  A fresh
    [schedule_meeting] computes the flag anew from its own time alone, and
    can so turn it off. *)
Theorem urgency_monotone :
  (forall ops st meeting_id,
     urgent_in st meeting_id ->
     forallb is_call ops = true ->
     urgent_in (run_ops ops st) meeting_id)
  /\ (forall ops st meeting_id,
        urgent_in st meeting_id ->
        urgent_or_gone (run_ops ops st) meeting_id)
  /\ (forall cb now st meeting_id u t maxr,
        now <= t + timedelta_minutes 1 ->
        exists m,
          _meetings (snd (schedule_meeting cb now st meeting_id u t maxr))
            !! meeting_id = Some m
          /\ is_urgent m =
               (t + timedelta_minutes 1 - now <=? timedelta_minutes 15))
  /\ (exists cb now st meeting_id u t maxr,
        urgent_in st meeting_id
        /\ exists m,
             _meetings (snd (schedule_meeting cb now st meeting_id u t maxr))
               !! meeting_id = Some m
             /\ is_urgent m = false).
Proof.
  split; [|split; [|split]].
  - intros ops. induction ops as [|op ops IH]; intros st id Hu Hops;
      simpl in *; [done|].
    apply andb_true_iff in Hops as [Hop Hops].
    apply IH; [|done].
    destruct op as [now id' d|now|tk|id']; simpl in *; try done.
    + by apply reschedule_keeps_urgent.
    + by apply check_keeps_urgent.
  - intros ops st id Hu. apply urgent_in_or_gone in Hu. revert st Hu.
    induction ops as [|op ops IH]; intros st Hu; simpl; [done|].
    by apply IH, run_op_urgent_or_gone.
  - intros cb now st id u t maxr Hdue.
    destruct (schedule_meeting_cases cb now st id u t maxr) as [_ Hq].
    destruct (Hq Hdue) as (_ & _ & _ & ->).
    eexists. split; [apply lookup_insert_eq|done].
  - exists (fun _ _ => Returns true), 0,
      (mkState [] {[ 1 := mkMeeting 0 "u" 0 5 true ]} []), 1, "u"%string,
      6000000000, 5.
    split.
    + eexists. split; [apply lookup_singleton_eq|done].
    + eexists. split; [vm_compute; reflexivity|done].
Qed.

Lemma urgency_monotone_witness :
  urgent_in
    (run_ops [OpReschedule 0 1 (Some 600); OpCheckUrgent 5; OpReschedule 9 1 None]
       (mkState [] {[ 1 := mkMeeting 0 "u" 0 5 true ]} [])) 1.
Proof.
  destruct urgency_monotone as [H _].
  apply H; [|reflexivity].
  eexists. split; [apply lookup_singleton_eq|reflexivity].
Defined.

(** ** Fencing *)

Lemma process_stale (cb : callback) (now now_retry : Z) (st : State)
    (e : Entry) (rest : list Entry) :
  _queue st = e :: rest -> next_time e <= now -> honored st e = false ->
  _process_next_meeting cb now now_retry st = set_queue st rest.
Proof.
  intros Hq Hdue Hh. unfold _process_next_meeting, honored in *.
  rewrite Hq. apply Z.leb_le in Hdue. rewrite Hdue. simpl.
  destruct (_meetings st !! entry_id e) as [m|]; [|done].
  by rewrite Hh.
Qed.

Lemma process_honored (cb : callback) (now now_retry : Z) (st : State)
    (e : Entry) (rest : list Entry) (m : Meeting) :
  _queue st = e :: rest -> next_time e <= now ->
  _meetings st !! entry_id e = Some m -> retry_count m = entry_retry e ->
  _process_next_meeting cb now now_retry st =
    _join_meeting cb now_retry (set_queue st rest) (entry_id e) (url m)
      (retry_count m) (max_retries m) (is_urgent m).
Proof.
  intros Hq Hdue Hm Hrc. unfold _process_next_meeting.
  rewrite Hq. apply Z.leb_le in Hdue. rewrite Hdue. simpl.
  rewrite Hm. apply Z.eqb_eq in Hrc. by rewrite Hrc.
Qed.

Lemma _join_meeting_calls (cb : callback) (now : Z) (st : State)
    (meeting_id : Z) (u : string) (retry maxr : Z) (urgent : bool) :
  join_calls (_join_meeting cb now st meeting_id u retry maxr urgent) =
    join_calls st ++ [(meeting_id, u)].
Proof.
  unfold _join_meeting, call_join.
  destruct (cb meeting_id u) as [[|]|].
  - by rewrite _remove_meeting_calls.
  - destruct (reschedule_meeting_cases now
      (mkState (_queue st) (_meetings st) (join_calls st ++ [(meeting_id, u)]))
      meeting_id
      (Some (if urgent then _urgent_retry_minutes else _normal_retry_minutes)))
      as (_ & Hf & Ht).
    destruct (fst (reschedule_meeting _ _ _ _)) eqn:Hr.
    + destruct (Ht eq_refl) as (m & _ & _ & _ & ->). done.
    + by rewrite (Hf eq_refl).
  - destruct (reschedule_meeting_cases now
      (mkState (_queue st) (_meetings st) (join_calls st ++ [(meeting_id, u)]))
      meeting_id
      (Some (if urgent then _urgent_retry_minutes else _normal_retry_minutes)))
      as (_ & Hf & Ht).
    destruct (fst (reschedule_meeting _ _ _ _)) eqn:Hr.
    + destruct (Ht eq_refl) as (m & _ & _ & _ & ->). done.
    + by rewrite (Hf eq_refl).
Qed.

Lemma generation_schedule (cb : callback) (now : Z) (st : State)
    (meeting_id : Z) (u : string) (t maxr : Z) :
  now <= t + timedelta_minutes 1 ->
  generation (_queue st) meeting_id
    (snd (schedule_meeting cb now st meeting_id u t maxr))
    [mkEntry (t + timedelta_minutes 1) meeting_id u 0].
Proof.
  intros Hdue.
  destruct (schedule_meeting_cases cb now st meeting_id u t maxr) as [_ Hq].
  destruct (Hq Hdue) as (_ & _ & Hqueue & Hms).
  split; [|split].
  - rewrite Hqueue. apply heappush_perm.
  - by constructor.
  - eexists _, _, []. split; [done|]. split.
    + rewrite Hms. apply lookup_insert_eq.
    + by split.
Qed.

Lemma generation_reschedule (q0 : list Entry) (now : Z) (st : State)
    (meeting_id : Z) (delay_minutes : option Z) (pushed : list Entry) :
  generation q0 meeting_id st pushed ->
  exists pushed',
    generation q0 meeting_id
      (snd (reschedule_meeting now st meeting_id delay_minutes)) pushed'.
Proof.
  intros (Hperm & Hids & m & latest & older & -> & Hm & Hrc & Hold).
  destruct (reschedule_meeting_cases now st meeting_id delay_minutes)
    as (_ & Hf & Ht).
  destruct (fst (reschedule_meeting now st meeting_id delay_minutes)) eqn:Hr.
  - destruct (Ht eq_refl) as (m' & Hm' & Hms & Hqueue & _).
    rewrite Hm in Hm'. injection Hm' as <-.
    eexists (_ :: latest :: older). split; [|split].
    + rewrite Hqueue, heappush_perm. by constructor.
    + by constructor.
    + eexists _, _, _. split; [done|]. split.
      * rewrite Hms. apply lookup_insert_eq.
      * simpl. split; [done|]. constructor; [lia|].
        eapply Forall_impl; [exact Hold|]. simpl. intros; lia.
  - rewrite (Hf eq_refl). exists (latest :: older).
    split; [done|]. split; [done|]. by eexists _, _, _.
Qed.

Lemma generation_reschedules (q0 : list Entry) (meeting_id : Z)
    (calls : list (Z * option Z)) (st : State) (pushed : list Entry) :
  generation q0 meeting_id st pushed ->
  exists pushed',
    generation q0 meeting_id (reschedules meeting_id calls st) pushed'.
Proof.
  revert st pushed. induction calls as [|[now d] calls IH];
    intros st pushed Hgen; simpl.
  - by exists pushed.
  - destruct (generation_reschedule q0 now st meeting_id d pushed Hgen)
      as [pushed' Hgen'].
    by apply (IH _ pushed').
Qed.

Lemma generation_one_honored (q0 : list Entry) (meeting_id : Z) (st : State)
    (pushed : list Entry) :
  generation q0 meeting_id st pushed ->
  exists latest, List.filter (honored st) pushed = [latest].
Proof.
  intros (_ & Hids & m & latest & older & -> & Hm & Hrc & Hold).
  exists latest. apply Forall_cons in Hids as [Hid Hids]. simpl.
  assert (honored st latest = true) as ->.
  { unfold honored. rewrite Hid, Hm. by apply Z.eqb_eq. }
  f_equal. clear Hid Hrc.
  induction older as [|e older IH]; simpl; [done|].
  apply Forall_cons in Hids as [Hid Hids].
  apply Forall_cons in Hold as [Hlt Hold].
  assert (honored st e = false) as ->.
  { unfold honored. rewrite Hid, Hm. apply Z.eqb_neq. lia. }
  by apply IH.
Qed.

(** ** Retry exhaustion *)

Lemma attempts_call (st : State) (q : list Entry) (ms : gmap Z Meeting)
    (called meeting_id : Z) (u : string) :
  attempts meeting_id (mkState q ms (join_calls st ++ [(called, u)])) =
    if called =? meeting_id then S (attempts meeting_id st)
    else attempts meeting_id st.
Proof.
  unfold attempts; simpl. rewrite List.filter_app, length_app; simpl.
  destruct (called =? meeting_id); simpl; lia.
Qed.

Lemma attempts_calls_eq (st st' : State) (meeting_id : Z) :
  join_calls st' = join_calls st ->
  attempts meeting_id st' = attempts meeting_id st.
Proof. unfold attempts. by intros ->. Qed.

Lemma reschedule_other (now : Z) (st : State) (called meeting_id : Z)
    (delay_minutes : option Z) :
  called <> meeting_id ->
  let st' := snd (reschedule_meeting now st called delay_minutes) in
  _meetings st' !! meeting_id = _meetings st !! meeting_id
  /\ entries_for meeting_id (_queue st') = entries_for meeting_id (_queue st)
  /\ join_calls st' = join_calls st.
Proof.
  intros Hne. simpl.
  destruct (reschedule_meeting_cases now st called delay_minutes)
    as (_ & Hf & Ht).
  destruct (fst (reschedule_meeting now st called delay_minutes)).
  - destruct (Ht eq_refl) as (m & _ & -> & -> & ->).
    rewrite lookup_insert_ne by done.
    by rewrite entries_for_heappush_other.
  - by rewrite (Hf eq_refl).
Qed.

Lemma _join_meeting_other (cb : callback) (now : Z) (st : State)
    (called meeting_id : Z) (u : string) (retry maxr : Z) (urgent : bool) :
  called <> meeting_id ->
  let st' := _join_meeting cb now st called u retry maxr urgent in
  _meetings st' !! meeting_id = _meetings st !! meeting_id
  /\ entries_for meeting_id (_queue st') = entries_for meeting_id (_queue st)
  /\ attempts meeting_id st' = attempts meeting_id st.
Proof.
  intros Hne. simpl. unfold _join_meeting, call_join.
  set (st1 := mkState (_queue st) (_meetings st)
                (join_calls st ++ [(called, u)])).
  assert (attempts meeting_id st1 = attempts meeting_id st) as Ha.
  { unfold st1. rewrite attempts_call.
    apply Z.eqb_neq in Hne. by rewrite Hne. }
  assert (forall d,
    let st' := snd (reschedule_meeting now st1 called d) in
    _meetings st' !! meeting_id = _meetings st !! meeting_id
    /\ entries_for meeting_id (_queue st') = entries_for meeting_id (_queue st)
    /\ attempts meeting_id st' = attempts meeting_id st) as Hres.
  { intros d. destruct (reschedule_other now st1 called meeting_id d Hne)
      as (H1 & H2 & H3). simpl. rewrite H1, H2.
    rewrite (attempts_calls_eq st1 _ _ H3). done. }
  destruct (cb called u) as [[|]|]; [|apply Hres..].
  rewrite _remove_meeting_meetings, _remove_meeting_queue.
  rewrite lookup_delete_ne by done.
  rewrite (attempts_calls_eq st1) by apply _remove_meeting_calls. done.
Qed.

Lemma exhausting_frame (a0 : nat) (n meeting_id : Z) (st st' : State) :
  _meetings st' !! meeting_id = _meetings st !! meeting_id ->
  entries_for meeting_id (_queue st') = entries_for meeting_id (_queue st) ->
  attempts meeting_id st' = attempts meeting_id st ->
  exhausting a0 n meeting_id st -> exhausting a0 n meeting_id st'.
Proof.
  intros Hm Hq Ha (m & Hl & Hmax & Hrc & Hcases).
  exists m. rewrite Hm, Hq, Ha. done.
Qed.

(** A failed attempt on the pending entry of an exhausting meeting. *)
Lemma _join_meeting_fails (a0 : nat) (cb : callback) (now : Z) (st : State)
    (meeting_id : Z) (m : Meeting) :
  fails_for meeting_id cb ->
  _meetings st !! meeting_id = Some m ->
  0 <= retry_count m <= max_retries m ->
  attempts meeting_id st = (a0 + Z.to_nat (retry_count m))%nat ->
  entries_for meeting_id (_queue st) = [] ->
  exhausting a0 (max_retries m) meeting_id
    (_join_meeting cb now st meeting_id (url m) (retry_count m)
       (max_retries m) (is_urgent m)).
Proof.
  intros Hfail Hm Hrc Ha Hq. unfold _join_meeting, call_join.
  set (st1 := mkState (_queue st) (_meetings st)
                (join_calls st ++ [(meeting_id, url m)])).
  set (d := Some (if is_urgent m then _urgent_retry_minutes
                  else _normal_retry_minutes)).
  assert (attempts meeting_id st1 = S (attempts meeting_id st)) as Ha1.
  { unfold st1. by rewrite attempts_call, Z.eqb_refl. }
  assert (exhausting a0 (max_retries m) meeting_id
            (snd (reschedule_meeting now st1 meeting_id d))) as Hres.
  { destruct (reschedule_meeting_cases now st1 meeting_id d)
      as (Hiff & Hf & Ht).
    destruct (fst (reschedule_meeting now st1 meeting_id d)) eqn:Hr.
    - destruct (Ht eq_refl) as (m' & Hm' & Hms & Hqueue & Hcalls).
      simpl in Hm'. rewrite Hm in Hm'. injection Hm' as <-.
      assert (retry_count m < max_retries m) as Hlt.
      { destruct (Z.lt_ge_cases (retry_count m) (max_retries m)) as [|Hge];
          [done|].
        destruct Hiff as [_ Hiff]. exfalso.
        assert (true = false) as Habs; [|done].
        apply Hiff. right. exists m. split; [done|lia]. }
      eexists. rewrite Hms, lookup_insert_eq. split; [done|]. simpl.
      split; [done|]. split; [lia|]. left. split.
      + rewrite (attempts_calls_eq st1 _ _ Hcalls), Ha1, Ha. lia.
      + rewrite Hqueue. eexists. split.
        * by apply (entries_for_heappush_first (_queue st)
                      (mkEntry _ meeting_id _ _)).
        * done.
    - rewrite (Hf eq_refl). exists m. split; [done|]. split; [done|].
      split; [done|]. right.
      assert (retry_count m = max_retries m) as Heq.
      { destruct Hiff as [Hiff _]. destruct (Hiff eq_refl) as [Hn|Hs].
        - simpl in Hn. congruence.
        - destruct Hs as (m' & Hm' & Hge). simpl in Hm'.
          rewrite Hm in Hm'. injection Hm' as <-. lia. }
      split; [|done]. rewrite Ha1, Ha, Heq. lia. }
  destruct (cb meeting_id (url m)) as [[|]|] eqn:Hcb; [|done..].
  by apply Hfail in Hcb.
Qed.

Lemma tick_exhausting (a0 : nat) (n meeting_id : Z) (st : State) (tk : Tick) :
  fails_for meeting_id (tick_callback tk) ->
  exhausting a0 n meeting_id st ->
  exhausting a0 n meeting_id (tick st tk).
Proof.
  intros Hfail Hex. unfold tick, _process_next_meeting.
  destruct (_queue st) as [|e rest] eqn:Hq; [done|].
  destruct (next_time e <=? tick_now tk); [|done].
  set (st2 := set_queue st (heappop (e :: rest))).
  destruct (decide (entry_id e = meeting_id)) as [Heq|Hne].
  - destruct Hex as (m & Hm & Hmax & Hrc & [[Ha [e0 [He0 Hr0]]]|[_ [_ Hnil]]]).
    + rewrite Hq in He0. unfold entries_for in He0. simpl in He0.
      apply Z.eqb_eq in Heq as Heqb. rewrite Heqb in He0.
      injection He0 as <- Hrest. apply Z.eqb_eq in Heqb.
      simpl. rewrite Heq, Hm. rewrite <- Hr0, Z.eqb_refl. simpl.
      rewrite <- Hmax. apply _join_meeting_fails; try done; lia.
    + rewrite Hq in Hnil. unfold entries_for in Hnil. simpl in Hnil.
      apply Z.eqb_eq in Heq. by rewrite Heq in Hnil.
  - assert (exhausting a0 n meeting_id st2) as Hex2.
    { apply (exhausting_frame a0 n meeting_id st); try done.
      simpl. rewrite Hq. unfold entries_for. simpl.
      apply Z.eqb_neq in Hne. by rewrite Hne. }
    fold st2.
    destruct (_meetings st2 !! entry_id e) as [m'|]; [|done].
    destruct (negb _); [done|].
    destruct (_join_meeting_other (tick_callback tk) (tick_now_retry tk) st2
                (entry_id e) meeting_id (url m') (retry_count m')
                (max_retries m') (is_urgent m') Hne) as (H1 & H2 & H3).
    by apply (exhausting_frame a0 n meeting_id st2).
Qed.

Lemma ticks_exhausting (a0 : nat) (n meeting_id : Z) (tks : list Tick)
    (st : State) :
  Forall (fun tk => fails_for meeting_id (tick_callback tk)) tks ->
  exhausting a0 n meeting_id st ->
  exhausting a0 n meeting_id (ticks tks st).
Proof.
  revert st. induction tks as [|tk tks IH]; intros st Hall Hex; simpl;
    [done|].
  apply Forall_cons in Hall as [Hfail Hall].
  by apply IH, tick_exhausting.
Qed.

(** A worker iteration on a heap without an entry of the meeting leaves
    the meeting alone. *)
Lemma tick_no_entry (meeting_id : Z) (st : State) (tk : Tick) :
  entries_for meeting_id (_queue st) = [] ->
  _meetings (tick st tk) !! meeting_id = _meetings st !! meeting_id
  /\ entries_for meeting_id (_queue (tick st tk)) = []
  /\ attempts meeting_id (tick st tk) = attempts meeting_id st.
Proof.
  intros Hnil. unfold tick, _process_next_meeting.
  destruct (_queue st) as [|e rest] eqn:Hq; [by rewrite Hq|].
  destruct (next_time e <=? tick_now tk); [|by rewrite Hq].
  set (st2 := set_queue st (heappop (e :: rest))).
  unfold entries_for in Hnil. simpl in Hnil.
  destruct (Z.eqb_spec (entry_id e) meeting_id) as [Heq|Hne]; [done|].
  assert (entries_for meeting_id (_queue st2) = []) as Hq2 by exact Hnil.
  destruct (_meetings st2 !! entry_id e) as [m'|]; [|done].
  destruct (negb _); [done|].
  destruct (_join_meeting_other (tick_callback tk) (tick_now_retry tk) st2
              (entry_id e) meeting_id (url m') (retry_count m')
              (max_retries m') (is_urgent m') Hne) as (H1 & H2 & H3).
  by rewrite H1, H2, H3.
Qed.

Lemma ticks_no_entry (meeting_id : Z) (tks : list Tick) (st : State) :
  entries_for meeting_id (_queue st) = [] ->
  _meetings (ticks tks st) !! meeting_id = _meetings st !! meeting_id
  /\ entries_for meeting_id (_queue (ticks tks st)) = []
  /\ attempts meeting_id (ticks tks st) = attempts meeting_id st.
Proof.
  revert st. induction tks as [|tk tks IH]; intros st Hnil; simpl; [done|].
  destruct (tick_no_entry meeting_id st tk Hnil) as (H1 & H2 & H3).
  destruct (IH (tick st tk) H2) as (H4 & H5 & H6).
  by rewrite H4, H6, H1, H3.
Qed.

Lemma schedule_exhausting (cb : callback) (now : Z) (st : State)
    (meeting_id : Z) (u : string) (t n : Z) :
  0 <= n -> now <= t + timedelta_minutes 1 ->
  entries_for meeting_id (_queue st) = [] ->
  exhausting (attempts meeting_id st) n meeting_id
    (snd (schedule_meeting cb now st meeting_id u t n)).
Proof.
  intros Hn Hdue Hnil.
  destruct (schedule_meeting_cases cb now st meeting_id u t n) as [_ Hq].
  destruct (Hq Hdue) as (_ & Hcalls & Hqueue & Hms).
  eexists. rewrite Hms, lookup_insert_eq. split; [done|]. simpl.
  split; [done|]. split; [lia|]. left. split.
  - rewrite (attempts_calls_eq st _ _ Hcalls). simpl. lia.
  - rewrite Hqueue. eexists. split.
    + by apply (entries_for_heappush_first (_queue st)
                  (mkEntry _ meeting_id _ _)).
    + done.
Qed.

Lemma ticks_empty (tks : list Tick) (st : State) :
  _queue st = [] -> ticks tks st = st.
Proof.
  intros Hq. induction tks as [|tk tks IH]; simpl; [done|].
  assert (tick st tk = st) as ->; [|exact IH].
  unfold tick, _process_next_meeting. by rewrite Hq.
Qed.

(** A due tick on a heap that holds the pending entry of the meeting and
    nothing else. *)
Lemma tick_alone (st : State) (tk : Tick) (e : Entry) (m : Meeting) :
  fails_for (entry_id e) (tick_callback tk) ->
  _queue st = [e] -> next_time e <= tick_now tk ->
  _meetings st !! entry_id e = Some m -> retry_count m = entry_retry e ->
  attempts (entry_id e) (tick st tk) = S (attempts (entry_id e) st)
  /\ if max_retries m <=? retry_count m then
       _queue (tick st tk) = [] /\ _meetings (tick st tk) = _meetings st
     else
       exists e' m',
         _queue (tick st tk) = [e'] /\ entry_id e' = entry_id e
         /\ _meetings (tick st tk) !! entry_id e = Some m'
         /\ retry_count m' = entry_retry e'
         /\ retry_count m' = retry_count m + 1
         /\ max_retries m' = max_retries m.
Proof.
  intros Hfail Hq Hdue Hm Hrc. unfold tick.
  rewrite (process_honored _ _ _ st e [] m) by done.
  unfold _join_meeting, call_join. simpl.
  set (st1 := mkState [] (_meetings st)
                (join_calls st ++ [(entry_id e, url m)])).
  set (d := Some (if is_urgent m then _urgent_retry_minutes
                  else _normal_retry_minutes)).
  assert (attempts (entry_id e) st1 = S (attempts (entry_id e) st)) as Ha1.
  { unfold st1. by rewrite attempts_call, Z.eqb_refl. }
  assert (let st' := snd (reschedule_meeting (tick_now_retry tk) st1
                            (entry_id e) d) in
          attempts (entry_id e) st' = S (attempts (entry_id e) st)
          /\ if max_retries m <=? retry_count m then
               _queue st' = [] /\ _meetings st' = _meetings st
             else
               exists e' m',
                 _queue st' = [e'] /\ entry_id e' = entry_id e
                 /\ _meetings st' !! entry_id e = Some m'
                 /\ retry_count m' = entry_retry e'
                 /\ retry_count m' = retry_count m + 1
                 /\ max_retries m' = max_retries m) as Hres.
  { unfold reschedule_meeting. simpl. rewrite Hm.
    destruct (max_retries m <=? retry_count m); simpl; [done|].
    split; [by rewrite <- Ha1|].
    eexists _, _. split; [done|]. split; [done|].
    rewrite lookup_insert_eq. done. }
  destruct (tick_callback tk (entry_id e) (url m)) as [[|]|] eqn:Hcb;
    [|exact Hres..].
  by apply Hfail in Hcb.
Qed.

Lemma drain (meeting_id : Z) (tks : list Tick) :
  forall (st : State) (e : Entry) (m : Meeting),
    Forall (fun tk => fails_for meeting_id (tick_callback tk)) tks ->
    all_due tks st ->
    _queue st = [e] -> entry_id e = meeting_id ->
    _meetings st !! meeting_id = Some m -> retry_count m = entry_retry e ->
    0 <= retry_count m <= max_retries m ->
    length tks = Z.to_nat (max_retries m - retry_count m + 1) ->
    attempts meeting_id (ticks tks st) =
      (attempts meeting_id st + length tks)%nat
    /\ _queue (ticks tks st) = [].
Proof.
  induction tks as [|tk tks IH]; intros st e m Hfail Hdue Hq Hid Hm Hrc Hle Hlen.
  - simpl in Hlen. lia.
  - apply Forall_cons in Hfail as [Hf Hfail]. destruct Hdue as [Hd Hdue].
    rewrite Hq in Hd. subst meeting_id.
    destruct (tick_alone st tk e m Hf Hq Hd Hm Hrc) as [Ha Hnext].
    simpl in *.
    destruct (Z.leb_spec (max_retries m) (retry_count m)) as [Hmax|Hmore].
    + destruct Hnext as [Hq' _].
      assert (tks = []) as ->.
      { destruct tks; [done|]. simpl in Hlen. lia. }
      simpl. split; [lia|done].
    + destruct Hnext as (e' & m' & Hq' & Hid' & Hm' & Hrc' & Hrc'' & Hmax').
      destruct (IH (tick st tk) e' m') as [Hatt Hqueue]; try done.
      * lia.
      * rewrite Hmax', Hrc''. lia.
      * split; [|done]. lia.
Qed.

(** ** Fencing over a whole generation *)

Lemma fenced_frame (meeting_id : Z) (st st' : State) :
  _meetings st' !! meeting_id = _meetings st !! meeting_id ->
  entries_for meeting_id (_queue st') = entries_for meeting_id (_queue st) ->
  fenced meeting_id st -> fenced meeting_id st'.
Proof. unfold fenced. by intros -> ->. Qed.

Lemma fenced_reschedule (now : Z) (st : State) (called meeting_id : Z)
    (delay_minutes : option Z) :
  fenced meeting_id st ->
  fenced meeting_id (snd (reschedule_meeting now st called delay_minutes)).
Proof.
  intros Hf. destruct (decide (called = meeting_id)) as [->|Hne].
  - destruct (reschedule_meeting_cases now st meeting_id delay_minutes)
      as (_ & Hrefused & Haccepted).
    destruct (fst (reschedule_meeting now st meeting_id delay_minutes)).
    + destruct (Haccepted eq_refl) as (m & Hm & Hms & Hqueue & _).
      destruct Hf as [Hnd Hle]. specialize (Hle m Hm).
      pose proof (entries_for_heappush (_queue st)
                    (mkEntry
                       (now + timedelta_minutes
                                match delay_minutes with
                                | Some d => d
                                | None => if is_urgent m then 3 else 5
                                end)
                       meeting_id (url m) (retry_count m + 1)) meeting_id)
        as Hperm.
      simpl in Hperm. rewrite Z.eqb_refl in Hperm.
      unfold fenced. rewrite Hms, Hqueue. split.
      * rewrite Hperm. simpl. apply NoDup_cons. split; [|exact Hnd].
        intros Hin. apply list_elem_of_In, in_map_iff in Hin as (e & He & Hin).
        rewrite Forall_forall in Hle. specialize (Hle e).
        apply list_elem_of_In in Hin. specialize (Hle Hin). simpl in Hle. lia.
      * intros m'. rewrite lookup_insert_eq. intros [= <-]. simpl.
        rewrite Hperm.
        constructor; [simpl; lia|].
        eapply Forall_impl; [exact Hle|]. simpl. intros; lia.
    + by rewrite (Hrefused eq_refl).
  - destruct (reschedule_other now st called meeting_id delay_minutes Hne)
      as (H1 & H2 & _).
    by apply (fenced_frame meeting_id st).
Qed.

Lemma fenced_remove (st : State) (called meeting_id : Z) :
  fenced meeting_id st -> fenced meeting_id (_remove_meeting st called).
Proof.
  intros [Hnd Hle]. unfold fenced.
  rewrite _remove_meeting_meetings, _remove_meeting_queue.
  split; [exact Hnd|]. intros m.
  destruct (decide (called = meeting_id)) as [->|Hne].
  - by rewrite lookup_delete_eq.
  - rewrite lookup_delete_ne by done. apply Hle.
Qed.



Lemma fenced_pop (meeting_id : Z) (st : State) :
  fenced meeting_id st ->
  fenced meeting_id (set_queue st (heappop (_queue st))).
Proof.
  intros [Hnd Hle]. unfold fenced. simpl.
  destruct (_queue st) as [|e q]; [done|]. simpl.
  unfold entries_for in *. simpl in *.
  destruct (entry_id e =? meeting_id); [|done]. simpl in *.
  apply NoDup_cons in Hnd as [_ Hnd]. split; [exact Hnd|].
  intros m Hm. specialize (Hle m Hm). by apply Forall_cons in Hle as [_ Hle].
Qed.

Lemma fenced_join (cb : callback) (now : Z) (st : State)
    (called meeting_id : Z) (u : string) (retry maxr : Z) (urgent : bool) :
  fenced meeting_id st ->
  fenced meeting_id (_join_meeting cb now st called u retry maxr urgent).
Proof.
  intros Hf. unfold _join_meeting, call_join.
  set (st1 := mkState (_queue st) (_meetings st)
                (join_calls st ++ [(called, u)])).
  assert (fenced meeting_id st1) as Hf1 by done.
  destruct (cb called u) as [[|]|].
  - by apply fenced_remove.
  - by apply fenced_reschedule.
  - by apply fenced_reschedule.
Qed.

Lemma fenced_tick (meeting_id : Z) (st : State) (tk : Tick) :
  fenced meeting_id st -> fenced meeting_id (tick st tk).
Proof.
  intros Hf. unfold tick, _process_next_meeting.
  destruct (_queue st) as [|e q] eqn:Hq; [done|].
  destruct (next_time e <=? tick_now tk); [|done].
  assert (fenced meeting_id (set_queue st (heappop (e :: q)))) as Hpop.
  { rewrite <- Hq. by apply fenced_pop. }
  destruct (_meetings _ !! entry_id e) as [m|]; [|done].
  destruct (negb _); [done|]. by apply fenced_join.
Qed.

Lemma fenced_check (meeting_id : Z) (now : Z) (st : State) :
  fenced meeting_id st -> fenced meeting_id (check_for_urgent_meetings now st).
Proof.
  intros [Hnd Hle]. split; [exact Hnd|]. intros m.
  rewrite check_for_urgent_meetings_lookup.
  destruct (_meetings st !! meeting_id) as [m0|] eqn:Hm0; [|done].
  simpl. intros [= <-]. simpl. by apply Hle.
Qed.

Lemma fenced_run_op (meeting_id : Z) (st : State) (op : Op) :
  fenced meeting_id st -> fenced meeting_id (run_op st op).
Proof.
  intros Hf. destruct op as [now id d|now|tk|id]; simpl.
  - by apply fenced_reschedule.
  - by apply fenced_check.
  - by apply fenced_tick.
  - unfold cancel_meeting. destruct (_meetings st !! id); [|done].
    by apply fenced_remove.
Qed.

Lemma fenced_run_ops (meeting_id : Z) (ops : list Op) (st : State) :
  fenced meeting_id st -> fenced meeting_id (run_ops ops st).
Proof.
  revert st. induction ops as [|op ops IH]; intros st Hf; simpl; [done|].
  by apply IH, fenced_run_op.
Qed.

Lemma fenced_schedule (cb : callback) (now : Z) (st : State)
    (meeting_id : Z) (u : string) (t maxr : Z) :
  entries_for meeting_id (_queue st) = [] ->
  fenced meeting_id (snd (schedule_meeting cb now st meeting_id u t maxr)).
Proof.
  intros Hnil.
  destruct (schedule_meeting_cases cb now st meeting_id u t maxr)
    as [Hpast Hfut].
  destruct (Z.lt_ge_cases (t + timedelta_minutes 1) now) as [Hlt|Hge].
  - destruct (Hpast Hlt) as (_ & _ & Hq & Hms). unfold fenced.
    rewrite Hq, Hms, Hnil, lookup_delete_eq. split; [constructor|done].
  - destruct (Hfut Hge) as (_ & _ & Hq & Hms). unfold fenced.
    rewrite Hq, Hms, lookup_insert_eq.
    rewrite (entries_for_heappush_first (_queue st)
               (mkEntry _ meeting_id _ _)) by done.
    split.
    + simpl. apply NoDup_singleton.
    + intros m [= <-]. by constructor.
Qed.

Lemma at_most_one_with (f : Entry -> Z) (v : Z) (l : list Entry) :
  NoDup (map f l) ->
  (length (List.filter (fun e => (v =? f e)%Z) l) <= 1)%nat.
Proof.
  induction l as [|e l IH]; simpl; [lia|].
  intros [Hnot Hnd]%NoDup_cons. specialize (IH Hnd).
  destruct (Z.eqb_spec v (f e)) as [->|Hne]; [|exact IH]. simpl.
  assert (List.filter (fun e0 => f e =? f e0) l = []) as ->; [|simpl; lia].
  clear IH Hnd. induction l as [|e' l IH]; simpl; [done|].
  simpl in Hnot. apply not_elem_of_cons in Hnot as [Hne Hnot].
  destruct (Z.eqb_spec (f e) (f e')); [done|]. by apply IH.
Qed.

Lemma fenced_at_most_one (meeting_id : Z) (st : State) :
  fenced meeting_id st ->
  (length (List.filter (honored st) (entries_for meeting_id (_queue st)))
   <= 1)%nat.
Proof.
  intros [Hnd _].
  assert (forall e, In e (entries_for meeting_id (_queue st)) ->
                    entry_id e = meeting_id) as Hid.
  { intros e [_ He]%List.filter_In. by apply Z.eqb_eq. }
  destruct (_meetings st !! meeting_id) as [m|] eqn:Hm.
  - rewrite (List.filter_ext_in (honored st)
               (fun e => retry_count m =? entry_retry e)).
    + by apply at_most_one_with.
    + intros e He. unfold honored. by rewrite (Hid e He), Hm.
  - rewrite (List.filter_ext_in (honored st) (fun _ => false)).
    + clear. induction (entries_for _ _); simpl; [lia|done].
    + intros e He. unfold honored. by rewrite (Hid e He), Hm.
Qed.

(** ** The properties of the specification *)

(** C1: fencing.  The worker drops a due head entry without invoking the
    join callback, and without touching the table, when the entry is not
    honored, that is when its meeting is not in the table or is there with
    another retry count; an honored one gets exactly one callback invocation.
    After [schedule_meeting] and any sequence of [reschedule_meeting] calls
    on that meeting, exactly one of the entries pushed since (the latest) is
    honored.  And for a meeting scheduled on a heap with no entry of its
    own, whatever is called afterwards short of a new [schedule_meeting], at
    most one of its entries in the heap is honored at any time. *)
Theorem fencing :
  (forall cb now now_retry st e rest,
     _queue st = e :: rest -> next_time e <= now ->
     (_meetings st !! entry_id e = None
      \/ exists m, _meetings st !! entry_id e = Some m
                   /\ retry_count m <> entry_retry e) ->
     _process_next_meeting cb now now_retry st =
       mkState rest (_meetings st) (join_calls st))
  /\ (forall cb now now_retry st e rest m,
        _queue st = e :: rest -> next_time e <= now ->
        _meetings st !! entry_id e = Some m ->
        retry_count m = entry_retry e ->
        join_calls (_process_next_meeting cb now now_retry st) =
          join_calls st ++ [(entry_id e, url m)])
  /\ (forall cb now st meeting_id u t maxr calls,
        now <= t + timedelta_minutes 1 ->
        let st' :=
          reschedules meeting_id calls
            (snd (schedule_meeting cb now st meeting_id u t maxr)) in
        exists pushed latest,
          Permutation (_queue st') (pushed ++ _queue st)
          /\ Forall (fun e => entry_id e = meeting_id) pushed
          /\ List.filter (honored st') pushed = [latest])
  /\ (forall cb now st meeting_id u t maxr ops,
        entries_for meeting_id (_queue st) = [] ->
        let st' :=
          run_ops ops (snd (schedule_meeting cb now st meeting_id u t maxr)) in
        (length (List.filter (honored st')
                   (entries_for meeting_id (_queue st'))) <= 1)%nat).
Proof.
  split; [|split; [|split]].
  - intros cb now now_retry st e rest Hq Hdue Hstale.
    apply (process_stale _ _ _ st e rest); [done..|]. unfold honored.
    destruct Hstale as [->|(m & -> & Hne)]; [done|]. by apply Z.eqb_neq.
  - intros cb now now_retry st e rest m Hq Hdue Hm Hrc.
    rewrite (process_honored _ _ _ st e rest m) by done.
    by rewrite _join_meeting_calls.
  - intros cb now st meeting_id u t maxr calls Hdue. simpl.
    pose proof (generation_schedule cb now st meeting_id u t maxr Hdue)
      as Hgen.
    apply (generation_reschedules _ _ calls) in Hgen as [pushed Hgen].
    destruct (generation_one_honored _ _ _ _ Hgen) as [latest Hone].
    exists pushed, latest. destruct Hgen as (Hperm & Hids & _). done.
  - intros cb now st meeting_id u t maxr ops Hnil. simpl.
    by apply fenced_at_most_one, fenced_run_ops, fenced_schedule.
Qed.

(** The test of the specification: schedule, reschedule twice.  The first
    entry, once due, is dropped without a join attempt; when all three
    entries are due, three iterations of the worker make one attempt. *)
Lemma fencing_witness :
  let cb : callback := fun _ _ => Returns true in
  let st :=
    reschedules 1 [(0, None); (0, Some 10)]
      (snd (schedule_meeting cb 0 (mkState [] ∅ []) 1 "u" 0 5)) in
  let late := mkTick cb 600000000 600000000 in
  (exists pushed latest,
     Permutation (_queue st) (pushed ++ [])
     /\ Forall (fun e => entry_id e = 1) pushed
     /\ List.filter (honored st) pushed = [latest])
  /\ _process_next_meeting cb 60000000 60000000 st =
       mkState (tl (_queue st)) (_meetings st) (join_calls st)
  /\ join_calls (ticks [late; late; late] st) = [(1, "u"%string)].
Proof.
  destruct fencing as (Hstale & _ & Hgen & _). split; [|split].
  - apply (Hgen (fun _ _ => Returns true) 0 (mkState [] ∅ []) 1 "u"%string
             0 5 [(0, None); (0, Some 10)]).
    vm_compute. congruence.
  - eapply Hstale.
    + vm_compute. reflexivity.
    + vm_compute. congruence.
    + right. eexists. split; [vm_compute; reflexivity|]. vm_compute.
      congruence.
  - vm_compute. reflexivity.
Defined.

(** C2, as the code has it.  A meeting is scheduled with
    [max_retries = n], on a heap without an earlier entry of its id, and the
    join callback fails whenever the worker invokes it for the meeting.
    When the offset join time is already past, [schedule_meeting] invokes the
    callback once itself and neither stores nor queues the meeting, so
    nothing further happens.  Otherwise the meeting is never removed from the
    table: the callback is invoked for it at most [n + 1] times, and exactly
    [n + 1] times once the heap holds no entry for it, until when one entry,
    an honored one, is pending; from then on the table holds the meeting with
    [retry_count = n] and no iteration of the worker invokes the callback for
    it again.  In particular, on a heap of its own, [n + 1] iterations of the
    worker that each find the head due make exactly [n + 1] attempts and
    leave the heap empty. *)
Theorem retry_exhaustion (cb : callback) (now : Z) (st0 : State)
    (meeting_id : Z) (u : string) (t n : Z) (tks : list Tick) :
  0 <= n ->
  entries_for meeting_id (_queue st0) = [] ->
  Forall (fun tk => fails_for meeting_id (tick_callback tk)) tks ->
  let st1 := snd (schedule_meeting cb now st0 meeting_id u t n) in
  let st := ticks tks st1 in
  let done_ := (attempts meeting_id st0 + Z.to_nat n + 1)%nat in
  (t + timedelta_minutes 1 < now ->
   attempts meeting_id st = (attempts meeting_id st0 + 1)%nat
   /\ _meetings st !! meeting_id = None
   /\ entries_for meeting_id (_queue st) = [])
  /\ (now <= t + timedelta_minutes 1 ->
      (exists m, _meetings st !! meeting_id = Some m
                 /\ max_retries m = n
                 /\ 0 <= retry_count m <= n
                 /\ (entries_for meeting_id (_queue st) = [] ->
                     retry_count m = n))
      /\ (attempts meeting_id st <= done_)%nat
      /\ (attempts meeting_id st = done_ <->
          entries_for meeting_id (_queue st) = [])
      /\ ((attempts meeting_id st < done_)%nat ->
          exists e, entries_for meeting_id (_queue st) = [e]
                    /\ honored st e = true)
      /\ (entries_for meeting_id (_queue st) = [] ->
          forall more,
            attempts meeting_id (ticks more st) = done_
            /\ _meetings (ticks more st) !! meeting_id
               = _meetings st !! meeting_id)
      /\ (_queue st0 = [] -> length tks = (Z.to_nat n + 1)%nat ->
          all_due tks st1 ->
          attempts meeting_id st = done_ /\ _queue st = []
          /\ (exists m, _meetings st !! meeting_id = Some m
                        /\ retry_count m = n)
          /\ forall more, ticks more st = st)).
Proof.
  intros Hn Hnil Hfail st1 st done_. split.
  { intros Hpast.
    destruct (schedule_meeting_cases cb now st0 meeting_id u t n) as [Hb _].
    destruct (Hb Hpast) as (_ & Hcalls & Hqueue & Hms).
    fold st1 in Hcalls, Hqueue, Hms.
    destruct (ticks_no_entry meeting_id tks st1) as (H1 & H2 & H3).
    { by rewrite Hqueue. }
    fold st in H1, H2, H3. rewrite H1, H2, H3, Hms. split; [|split; [|done]].
    - unfold attempts. rewrite Hcalls, List.filter_app, length_app. simpl.
      by rewrite Z.eqb_refl.
    - apply lookup_delete_eq. }
  intros Hdue.
  pose proof (schedule_exhausting cb now st0 meeting_id u t n Hn Hdue Hnil)
    as Hex1. fold st1 in Hex1.
  pose proof (ticks_exhausting _ _ _ tks st1 Hfail Hex1) as Hex.
  fold st in Hex.
  destruct Hex as (m & Hm & Hmax & Hrc & Hcases).
  assert (attempts meeting_id st = done_ <->
          entries_for meeting_id (_queue st) = []) as Hiff.
  { destruct Hcases as [[Ha (e & He & Hr)]|(Ha & _ & He)].
    - rewrite He, Ha. unfold done_. split; [lia|done].
    - by rewrite He, Ha. }
  assert (entries_for meeting_id (_queue st) = [] -> retry_count m = n)
    as Hlast.
  { intros He. destruct Hcases as [[_ (e & He' & _)]|(_ & Hr & _)]; [|done].
    by rewrite He in He'. }
  split; [by exists m|].
  assert (forall e, entries_for meeting_id (_queue st) = [e] ->
                    entry_id e = meeting_id) as Hid.
  { intros e He. assert (In e (entries_for meeting_id (_queue st))) as Hin.
    { rewrite He. by left. }
    apply List.filter_In in Hin as [_ Hin]. by apply Z.eqb_eq. }
  split; [|split; [exact Hiff|split; [|split]]].
  - destruct Hcases as [[-> _]|[-> _]]; unfold done_; lia.
  - intros Hlt. destruct Hcases as [[Ha (e & He & Hr)]|(Ha & _ & He)].
    + exists e. split; [done|]. unfold honored.
      rewrite (Hid e He), Hm. by apply Z.eqb_eq.
    + unfold done_ in Hlt. lia.
  - intros He more.
    destruct (ticks_no_entry meeting_id more st He) as (H1 & _ & H3).
    split; [|exact H1]. rewrite H3. by apply Hiff.
  - intros Hq0 Hlen Hall.
    destruct (schedule_meeting_cases cb now st0 meeting_id u t n) as [_ Hq].
    destruct (Hq Hdue) as (_ & Hcalls & Hqueue & Hms).
    fold st1 in Hcalls, Hqueue, Hms. rewrite Hq0 in Hqueue. simpl in Hqueue.
    destruct (drain meeting_id tks st1
                (mkEntry (t + timedelta_minutes 1) meeting_id u 0)
                (mkMeeting (t + timedelta_minutes 1) u 0 n
                   (t + timedelta_minutes 1 - now <=? timedelta_minutes 15))
                Hfail Hall Hqueue eq_refl)
      as [Hatt Hempty].
    + rewrite Hms. apply lookup_insert_eq.
    + done.
    + simpl. lia.
    + simpl. rewrite Hlen. lia.
    + fold st in Hatt, Hempty. split; [|split; [done|split]].
      * rewrite Hatt, (attempts_calls_eq st0 st1 _ Hcalls), Hlen.
        unfold done_. lia.
      * exists m. split; [done|]. apply Hlast. by rewrite Hempty.
      * intros more. by apply ticks_empty.
Qed.

(** C2 as stated fails on the test of the specification: with
    [max_retries = 2] and a callback that always fails, after the three
    attempts the meeting is still in the table, with retry count 2.  The
    count of [n + 1] attempts needs a heap without earlier entries of the
    meeting: scheduled twice with [max_retries = 0], the meeting gets two
    attempts, as the entry of the first scheduling is honored too.  And it
    needs a meeting that is queued: scheduled with [max_retries = 2] for a
    time that is past, the meeting gets the one attempt of
    [schedule_meeting] and no other. *)
Lemma retry_exhaustion_counterexample :
  let cb : callback := fun _ _ => Returns false in
  let tks :=
    [mkTick cb 60000000 60000000; mkTick cb 240000000 240000000;
     mkTick cb 420000000 420000000] in
  let st :=
    ticks tks (snd (schedule_meeting cb 0 (mkState [] ∅ []) 1 "u" 0 2)) in
  let again :=
    snd (schedule_meeting cb 0
           (snd (schedule_meeting cb 0 (mkState [] ∅ []) 1 "u" 0 0))
           1 "u" 60000000 0) in
  let st' :=
    ticks [mkTick cb 60000000 60000000; mkTick cb 120000000 120000000]
      again in
  let late :=
    ticks
      [mkTick cb 600000000 600000000; mkTick cb 900000000 900000000;
       mkTick cb 1200000000 1200000000]
      (snd (schedule_meeting cb 600000000 (mkState [] ∅ []) 1 "u" 0 2)) in
  (join_calls st = [(1, "u"%string); (1, "u"%string); (1, "u"%string)]
   /\ _queue st = []
   /\ _meetings st !! 1 = Some (mkMeeting 420000000 "u" 2 2 true))
  /\ (join_calls again = []
      /\ join_calls st' = [(1, "u"%string); (1, "u"%string)])
  /\ (join_calls late = [(1, "u"%string)]
      /\ _meetings late !! 1 = None).
Proof. vm_compute. repeat split; reflexivity. Qed.

Lemma retry_exhaustion_witness :
  let cb : callback := fun _ _ => Returns false in
  let tks :=
    [mkTick cb 60000000 60000000; mkTick cb 240000000 240000000;
     mkTick cb 420000000 420000000] in
  let st0 := mkState [] ∅ [] in
  let st := ticks tks (snd (schedule_meeting cb 0 st0 1 "u" 0 2)) in
  (exists m, _meetings st !! 1 = Some m
             /\ max_retries m = 2 /\ 0 <= retry_count m <= 2
             /\ (entries_for 1 (_queue st) = [] -> retry_count m = 2))
  /\ (attempts 1 st <= 3)%nat
  /\ attempts 1 st = 3%nat /\ _queue st = []
  /\ (exists m, _meetings st !! 1 = Some m /\ retry_count m = 2)
  /\ forall more, ticks more st = st.
Proof.
  intros cb tks st0 st.
  destruct (retry_exhaustion cb 0 st0 1 "u"%string 0 2 tks) as [_ Hqueued].
  - lia.
  - reflexivity.
  - repeat constructor; intros u' H; discriminate H.
  - destruct Hqueued as (Hm & Hle & _ & _ & _ & Hdrain).
    + vm_compute. congruence.
    + split; [exact Hm|]. split; [exact Hle|].
      apply Hdrain; [reflexivity|reflexivity|].
      vm_compute. repeat split; congruence.
Defined.

(** C3, as the code has it: [schedule_meeting] first drops the table entry
    of the meeting, if any.  When the offset join time [t + 1 minute] is
    strictly before [now], the join callback is invoked once, its outcome
    is the outcome of the call, and the heap is left alone.  Otherwise (also
    when the offset time is [now] itself) the callback is not invoked, the
    call returns [True], the table gets the meeting with retry count 0, and
    one entry with due time [t + 1 minute] and retry count 0 is pushed. *)
Theorem schedule_meeting_spec (cb : callback) (now : Z) (st : State)
    (meeting_id : Z) (u : string) (t maxr : Z) :
  let r := schedule_meeting cb now st meeting_id u t maxr in
  let due := t + timedelta_minutes 1 in
  let purged := delete meeting_id (_meetings st) in
  (due < now ->
     fst r = cb meeting_id u
     /\ join_calls (snd r) = join_calls st ++ [(meeting_id, u)]
     /\ _queue (snd r) = _queue st
     /\ _meetings (snd r) = purged)
  /\ (now <= due ->
     fst r = Returns true
     /\ join_calls (snd r) = join_calls st
     /\ _queue (snd r) = heappush (_queue st) (mkEntry due meeting_id u 0)
     /\ Permutation (_queue (snd r)) (mkEntry due meeting_id u 0 :: _queue st)
     /\ _meetings (snd r) =
          <[meeting_id :=
              mkMeeting due u 0 maxr (due - now <=? timedelta_minutes 15)]>
            purged).
Proof.
  destruct (schedule_meeting_cases cb now st meeting_id u t maxr)
    as [Hpast Hfut].
  split; [exact Hpast|].
  intros Hdue. destruct (Hfut Hdue) as (H1 & H2 & H3 & H4).
  repeat split; try done. rewrite H3. apply heappush_perm.
Qed.

Lemma schedule_meeting_spec_witness :
  let cb : callback := fun _ _ => Returns false in
  let st := mkState [] ∅ [] in
  (fst (schedule_meeting cb 600000000 st 7 "u" 0 5) = Returns false
   /\ join_calls (snd (schedule_meeting cb 600000000 st 7 "u" 0 5))
      = [(7, "u"%string)])
  /\ _queue (snd (schedule_meeting cb 0 st 7 "u" 0 5))
     = [mkEntry 60000000 7 "u" 0].
Proof.
  intros cb st.
  pose proof (schedule_meeting_spec cb 600000000 st 7 "u" 0 5) as [Hpast _].
  pose proof (schedule_meeting_spec cb 0 st 7 "u" 0 5) as [_ Hfut].
  split.
  - destruct Hpast as (H1 & H2 & _); [vm_compute; reflexivity|].
    split; [exact H1|exact H2].
  - destruct Hfut as (_ & _ & H3 & _); [vm_compute; congruence|].
    exact H3.
Defined.

(** C8: [reschedule_meeting] returns [False], and then leaves the state as
    it is, exactly when the meeting is unknown or its retry count has reached
    [max_retries]; otherwise it returns [True], stores the retry count plus
    one and the time [now + delay] (3 minutes for an urgent meeting and 5
    otherwise when no delay is given), and pushes one entry that carries the
    new retry count. *)
Theorem reschedule_meeting_spec (now : Z) (st : State) (meeting_id : Z)
    (delay_minutes : option Z) :
  let r := reschedule_meeting now st meeting_id delay_minutes in
  (fst r = false <->
     _meetings st !! meeting_id = None
     \/ exists m, _meetings st !! meeting_id = Some m
                  /\ retry_count m >= max_retries m)
  /\ (fst r = false -> snd r = st)
  /\ (fst r = true ->
      snd r <> st
      /\ exists m, _meetings st !! meeting_id = Some m
         /\ let delay :=
              match delay_minutes with
              | Some d => d
              | None => if is_urgent m then 3 else 5
              end in
            let new_time := now + timedelta_minutes delay in
            let new_entry :=
              mkEntry new_time meeting_id (url m) (retry_count m + 1) in
            _meetings (snd r) =
              <[meeting_id :=
                  mkMeeting new_time (url m) (retry_count m + 1)
                    (max_retries m) (is_urgent m)]> (_meetings st)
            /\ _queue (snd r) = heappush (_queue st) new_entry
            /\ Permutation (_queue (snd r)) (new_entry :: _queue st)
            /\ join_calls (snd r) = join_calls st).
Proof.
  destruct (reschedule_meeting_cases now st meeting_id delay_minutes)
    as (Hiff & Hrefused & Haccepted).
  split; [exact Hiff|]. split; [exact Hrefused|].
  intros Htrue. destruct (Haccepted Htrue) as (m & Hm & Hms & Hqueue & Hcalls).
  split.
  - intros Hsame. rewrite Hsame in Hqueue. symmetry in Hqueue.
    revert Hqueue. apply heappush_not_same.
  - exists m. split; [exact Hm|]. simpl.
    split; [exact Hms|]. split; [exact Hqueue|]. split; [|exact Hcalls].
    rewrite Hqueue. apply heappush_perm.
Qed.

Lemma reschedule_meeting_spec_witness :
  let st :=
    mkState [] {[ 4 := mkMeeting 0 "u" 1 5 true ]} [] in
  snd (reschedule_meeting 1000 st 4 None) <> st
  /\ exists m, _meetings st !! 4 = Some m
       /\ _meetings (snd (reschedule_meeting 1000 st 4 None)) =
            <[4 := mkMeeting (1000 + timedelta_minutes 3) (url m)
                     (retry_count m + 1) (max_retries m) true]>
              (_meetings st).
Proof.
  intros st.
  destruct (reschedule_meeting_spec 1000 st 4 None) as (_ & _ & Ht).
  destruct Ht as (Hne & m & Hm & Hms & _); [reflexivity|].
  split; [exact Hne|]. exists m. split; [exact Hm|].
  assert (is_urgent m = true) as Hu.
  { vm_compute in Hm. injection Hm as <-. reflexivity. }
  rewrite Hu in Hms. exact Hms.
Defined.

End QueueProofs.

(* ===================================================================== *)
(** * Part V: properties of the extraction engine *)
(* ===================================================================== *)

Module AnalyticsProofs.
Import Analytics AnalyticsSpec.

(** ** Dicts *)

Lemma dict_get_set {V} (d : dict V) (k k' : string) (v : V) :
  dict_get (dict_set d k v) k' =
    if String.eqb k k' then Some v else dict_get d k'.
Proof.
  induction d as [|[k0 v0] d IH]; simpl.
  - reflexivity.
  - destruct (String.eqb_spec k0 k) as [->|Hne]; simpl.
    + destruct (String.eqb k k'); reflexivity.
    + rewrite IH. destruct (String.eqb_spec k0 k') as [->|Hne'].
      * apply String.eqb_neq in Hne. rewrite String.eqb_sym in Hne.
        by rewrite Hne.
      * reflexivity.
Qed.

Lemma dict_get_map {V W} (f : V -> W) (d : dict V) (k : string) :
  dict_get (map (fun '(nm, v) => (nm, f v)) d) k = option_map f (dict_get d k).
Proof.
  induction d as [|[k0 v0] d IH]; simpl; [reflexivity|].
  destruct (String.eqb k0 k); [reflexivity|exact IH].
Qed.

(** ** Averaging *)

Lemma sum_scores_snoc (l : list float) (x : float) :
  sum_scores (l ++ [x]) = (sum_scores l + x)%float.
Proof. unfold sum_scores. by rewrite fold_left_app. Qed.

Lemma scores_of_snoc (nm : string) (es : list Emotion) (e : Emotion) :
  scores_of nm (es ++ [e]) =
    if String.eqb (name e) nm then scores_of nm es ++ [score e]
    else scores_of nm es.
Proof.
  unfold scores_of. rewrite List.filter_app, map_app. simpl.
  destruct (String.eqb (name e) nm); simpl; [reflexivity|apply app_nil_r].
Qed.

Lemma add_emotion_agree (totals : dict float) (es : list Emotion)
    (e : Emotion) :
  totals_agree totals es -> totals_agree (add_emotion totals e) (es ++ [e]).
Proof.
  intros Hagree nm. unfold add_emotion.
  rewrite dict_get_set, scores_of_snoc.
  destruct (String.eqb_spec (name e) nm) as [<-|Hne].
  - rewrite Hagree.
    destruct (scores_of (name e) es) as [|x l] eqn:Hs.
    + reflexivity.
    + rewrite <- app_comm_cons, app_comm_cons, sum_scores_snoc. reflexivity.
  - rewrite Hagree. reflexivity.
Qed.

Lemma add_emotions_agree (new : list Emotion) :
  forall (totals : dict float) (es : list Emotion),
    totals_agree totals es ->
    totals_agree (fold_left add_emotion new totals) (es ++ new).
Proof.
  induction new as [|e new IH]; intros totals es Hagree; simpl.
  - by rewrite app_nil_r.
  - replace (es ++ e :: new) with ((es ++ [e]) ++ new)
      by (by rewrite <- app_assoc).
    by apply IH, add_emotion_agree.
Qed.

Lemma add_frames_agree (frames : list Frame) :
  forall (totals : dict float) (count : Z) (seen : list Frame),
    totals_agree totals (all_emotions seen) ->
    count = Z.of_nat (length seen) ->
    let r := fold_left add_frame frames (totals, count) in
    totals_agree (fst r) (all_emotions (seen ++ frames))
    /\ snd r = Z.of_nat (length (seen ++ frames)).
Proof.
  induction frames as [|f frames IH]; intros totals count seen Hagree Hcount;
    simpl.
  - by rewrite app_nil_r.
  - replace (seen ++ f :: frames) with ((seen ++ [f]) ++ frames)
      by (by rewrite <- app_assoc).
    apply IH.
    + unfold all_emotions. rewrite flat_map_app. simpl. rewrite app_nil_r.
      by apply add_emotions_agree.
    + rewrite length_app. simpl. lia.
Qed.

Lemma scores_of_nil_iff (nm : string) (frames : list Frame) :
  scores_of nm (all_emotions frames) <> [] <-> named_in frames nm.
Proof.
  unfold scores_of, all_emotions, named_in. split.
  - intros Hne.
    destruct (List.filter _ _) as [|e l] eqn:Hf; [done|].
    assert (In e (List.filter (fun e => String.eqb (name e) nm)
                    (flat_map emotions frames))) as Hin
      by (rewrite Hf; by left).
    apply List.filter_In in Hin as [Hin Hnm].
    apply in_flat_map in Hin as (f & Hf' & He).
    exists f, e. by apply String.eqb_eq in Hnm.
  - intros (f & e & Hf & He & Hnm) Hnil.
    assert (In e (List.filter (fun e => String.eqb (name e) nm)
                    (flat_map emotions frames))) as Hin.
    { apply List.filter_In. split.
      - apply in_flat_map. by exists f.
      - by apply String.eqb_eq. }
    destruct (List.filter _ _); [done|discriminate Hnil].
Qed.

(** C4: [_average_emotions_for_segment] selects the frames with
    [start_time <= time <= end_time], both ends included; with no frame
    selected it returns the empty dict; and a name that occurs in a selected
    frame is mapped to the sum of its scores over the selected frames
    divided by the number of selected frames, whether or not every selected
    frame has the name.  No other name is in the result. *)
Theorem average_emotions_for_segment_spec (frames : list Frame)
    (start_time end_time : float) :
  let selected := List.filter (in_segment start_time end_time) frames in
  let result := _average_emotions_for_segment frames start_time end_time in
  (forall f, In f selected <->
             In f frames
             /\ (start_time <=? time f)%float = true
             /\ (time f <=? end_time)%float = true)
  /\ (selected = [] -> result = [])
  /\ (forall nm, named_in selected nm ->
        dict_get result nm =
          Some (sum_scores (scores_of nm (all_emotions selected))
                / float_of_int (Z.of_nat (length selected)))%float)
  /\ (forall nm, ~ named_in selected nm -> dict_get result nm = None).
Proof.
  intros selected result. split; [|split].
  - intros f. unfold selected. rewrite List.filter_In. unfold in_segment.
    by rewrite andb_true_iff.
  - unfold result, _average_emotions_for_segment. fold selected.
    by intros ->.
  - assert (forall nm,
      dict_get result nm =
        match scores_of nm (all_emotions selected) with
        | [] => None
        | l => Some (sum_scores l
                     / float_of_int (Z.of_nat (length selected)))%float
        end) as Hget.
    { intros nm. unfold result, _average_emotions_for_segment. fold selected.
      clearbody selected.
      destruct selected as [|f0 sel] eqn:Hsel; [reflexivity|].
      rewrite <- Hsel.
      destruct (add_frames_agree selected [] 0 []) as [Hagree Hcount];
        [by intros ?|done|]. simpl in Hagree, Hcount.
      revert Hagree Hcount.
      destruct (fold_left add_frame selected _) as [totals count].
      simpl. intros Hagree ->.
      rewrite (dict_get_map
                 (fun t => (t / float_of_int (Z.of_nat (length selected)))%float)).
      rewrite Hagree.
      by destruct (scores_of nm (all_emotions selected)). }
    split.
    + intros nm Hin. rewrite Hget.
      apply scores_of_nil_iff in Hin.
      by destruct (scores_of nm (all_emotions selected)).
    + intros nm Hnot. rewrite Hget.
      destruct (scores_of nm (all_emotions selected)) eqn:Hs; [done|].
      exfalso. apply Hnot, scores_of_nil_iff. by rewrite Hs.
Qed.

(** ** Frame extraction *)

Lemma fold_append_map {A B} (f : A -> B) (l : list A) (acc : list B) :
  fold_left (fun acc x => acc ++ [f x]) l acc = acc ++ map f l.
Proof.
  revert acc. induction l as [|x l IH]; intros acc; simpl.
  - by rewrite app_nil_r.
  - by rewrite IH, <- app_assoc.
Qed.

Lemma emotions_of_map (emotions_str : string) :
  emotions_of emotions_str =
    map emotion_of_match (findall emotion_pattern emotions_str).
Proof. unfold emotions_of. by rewrite fold_append_map. Qed.

Lemma frames_step_block (frames : list Frame) (m : string * string) :
  frames_step frames m =
    match frame_of_block m with
    | Some f => frames ++ [f]
    | None => frames
    end.
Proof.
  destruct m as [time_str emotions_str].
  unfold frames_step, frame_of_block; simpl.
  destruct (py_float time_str); [|reflexivity].
  rewrite emotions_of_map.
  by destruct (map emotion_of_match _).
Qed.

Lemma frames_fold_omap (blocks : list (string * string)) (acc : list Frame) :
  fold_left frames_step blocks acc = acc ++ omap frame_of_block blocks.
Proof.
  revert acc. induction blocks as [|m blocks IH]; intros acc; simpl.
  - by rewrite app_nil_r.
  - rewrite IH, frames_step_block.
    destruct (frame_of_block m); [|reflexivity].
    by rewrite <- app_assoc.
Qed.

Lemma frame_of_block_emotions (m : string * string) (f : Frame) :
  frame_of_block m = Some f ->
  py_float (fst m) = Some (time f)
  /\ emotions f = map emotion_of_match (findall emotion_pattern (snd m))
  /\ emotions f <> [].
Proof.
  unfold frame_of_block.
  destruct (py_float (fst m)) as [t|]; [|discriminate].
  destruct (findall emotion_pattern (snd m)) as [|x l]; simpl;
    [discriminate|].
  intros [= <-]. simpl. repeat split; discriminate.
Qed.

(** What the scan makes of the blocks of a text is stated in
    [BlocksProofs], once the matcher has been followed through a text. *)

(** ** The order of binary64 numbers *)

Ltac order_cases :=
  repeat match goal with
    | |- context [PosDef.Pos.compare_cont Eq ?a ?b] =>
        change (PosDef.Pos.compare_cont Eq a b) with (Pos.compare a b) in *
    | H : context [PosDef.Pos.compare_cont Eq ?a ?b] |- _ =>
        change (PosDef.Pos.compare_cont Eq a b) with (Pos.compare a b) in *
    | |- context [Z.compare ?a ?b] => destruct (Z.compare_spec a b)
    | H : context [Z.compare ?a ?b] |- _ => destruct (Z.compare_spec a b)
    | |- context [Pos.compare ?a ?b] => destruct (Pos.compare_spec a b)
    | H : context [Pos.compare ?a ?b] |- _ => destruct (Pos.compare_spec a b)
    end; simpl in *; try discriminate; try reflexivity; try lia.

Ltac float_cases x := destruct x as [[|]|[|]| |[|] ? ?].

Lemma SFltb_trans (x y z : spec_float) :
  SFltb x y = true -> SFltb y z = true -> SFltb x z = true.
Proof.
  unfold SFltb, SFcompare.
  float_cases x; float_cases y; try discriminate; float_cases z;
    try discriminate; try reflexivity; intros; order_cases.
Qed.

Lemma SFltb_leb_trans (x y z : spec_float) :
  SFltb x y = true -> SFleb y z = true -> SFltb x z = true.
Proof.
  unfold SFltb, SFleb, SFcompare.
  float_cases x; float_cases y; try discriminate; float_cases z;
    try discriminate; try reflexivity; intros; order_cases.
Qed.

Lemma SFltb_asym (x y : spec_float) : SFltb x y = true -> SFleb y x = false.
Proof.
  unfold SFltb, SFleb, SFcompare.
  float_cases x; float_cases y; try discriminate; try reflexivity;
    intros; order_cases.
Qed.

Lemma SFltb_leb (x y : spec_float) : SFltb x y = true -> SFleb x y = true.
Proof.
  unfold SFltb, SFleb, SFcompare.
  float_cases x; float_cases y; try discriminate; try reflexivity;
    intros; order_cases.
Qed.

Lemma SFltb_irrefl (x : spec_float) : SFltb x x = false.
Proof.
  unfold SFltb, SFcompare. float_cases x; try reflexivity; order_cases.
Qed.

Lemma float_ltb_trans (x y z : float) :
  (x <? y)%float = true -> (y <? z)%float = true -> (x <? z)%float = true.
Proof. rewrite !FloatAxioms.ltb_spec. apply SFltb_trans. Qed.

Lemma float_ltb_leb_trans (x y z : float) :
  (x <? y)%float = true -> (y <=? z)%float = true -> (x <? z)%float = true.
Proof.
  rewrite !FloatAxioms.ltb_spec, FloatAxioms.leb_spec. apply SFltb_leb_trans.
Qed.

Lemma float_ltb_asym (x y : float) :
  (x <? y)%float = true -> (y <=? x)%float = false.
Proof. rewrite FloatAxioms.ltb_spec, FloatAxioms.leb_spec. apply SFltb_asym. Qed.

Lemma float_ltb_leb (x y : float) :
  (x <? y)%float = true -> (x <=? y)%float = true.
Proof. rewrite FloatAxioms.ltb_spec, FloatAxioms.leb_spec. apply SFltb_leb. Qed.

Lemma float_ltb_irrefl (x : float) : (x <? x)%float = false.
Proof. rewrite FloatAxioms.ltb_spec. apply SFltb_irrefl. Qed.

(** ** [max] with a key *)

Section MaxBy.
Context {A : Type} (key : A -> float).

Lemma max_by_scan (rest : list A) :
  forall best,
    let r := max_by key best rest in
    exists before after,
      best :: rest = before ++ r :: after
      /\ (forall s, In s before -> (key r <=? key s)%float = false)
      /\ (forall s, In s after -> (key r <? key s)%float = false)
      /\ (before = [] \/ (key best <? key r)%float = true).
Proof.
  induction rest as [|x rest IH]; intros best; simpl.
  - exists [], []. repeat split; try done. by left.
  - destruct (key best <? key x)%float eqn:Hlt.
    + destruct (IH x) as (before & after & Heq & Hbefore & Hafter & Hfirst).
      assert ((key best <? key (max_by key x rest))%float = true) as Hbest.
      { destruct Hfirst as [->|Hx].
        - simpl in Heq. injection Heq as <- _. exact Hlt.
        - by apply (float_ltb_trans _ (key x)). }
      exists (best :: before), after. split; [by rewrite Heq|].
      split; [|split; [exact Hafter|by right]].
      intros s [<-|Hs]; [by apply float_ltb_asym|by apply Hbefore].
    + destruct (IH best) as (before & after & Heq & Hbefore & Hafter & Hfirst).
      destruct before as [|b before].
      * simpl in Heq. injection Heq as Hr Hrest.
        exists [], (x :: after). rewrite <- Hr, Hrest. split; [done|].
        split; [done|]. split; [|by left].
        intros s [<-|Hs]; [exact Hlt|]. rewrite Hr. by apply Hafter.
      * simpl in Heq. injection Heq as <- Hrest.
        destruct Hfirst as [Hnil|Hbest]; [discriminate Hnil|].
        exists (best :: x :: before), after.
        split; [simpl; by rewrite <- Hrest|].
        split; [|split; [exact Hafter|by right]].
        intros s [<-|[<-|Hs]].
        -- apply Hbefore. by left.
        -- destruct (key (max_by key best rest) <=? key x)%float eqn:Hle;
             [|done].
           by rewrite (float_ltb_leb_trans _ _ _ Hbest Hle) in Hlt.
        -- apply Hbefore. by right.
Qed.

Lemma max_by_first_strongest (best : A) (rest : list A) :
  first_strongest key (best :: rest) (max_by key best rest).
Proof.
  destruct (max_by_scan rest best) as (before & after & Heq & Hb & Ha & _).
  by exists before, after.
Qed.

Lemma first_strongest_max (l : list A) (r : A) :
  first_strongest key l r ->
  In r l /\ forall s, In s l -> (key r <? key s)%float = false.
Proof.
  intros (before & after & -> & Hb & Ha). split.
  - apply in_or_app. right. by left.
  - intros s Hs. apply in_app_or in Hs as [Hs|[<-|Hs]].
    + destruct (key r <? key s)%float eqn:Hlt; [|done].
      apply float_ltb_leb in Hlt. by rewrite (Hb s Hs) in Hlt.
    + apply float_ltb_irrefl.
    + by apply Ha.
Qed.

End MaxBy.

(** ** Questions and their answer windows *)

Lemma response_segments_filter (segments : list Segment) (start_time : Z)
    (end_time : bound) :
  response_segments_of segments start_time end_time =
    List.filter (in_window start_time end_time) segments.
Proof.
  unfold response_segments_of.
  assert (forall acc,
    fold_left
      (fun response_segments segment =>
         if in_window start_time end_time segment
         then response_segments ++ [segment] else response_segments)
      segments acc
    = acc ++ List.filter (in_window start_time end_time) segments) as H.
  { induction segments as [|s segments IH]; intros acc; simpl.
    - by rewrite app_nil_r.
    - rewrite IH. destruct (in_window start_time end_time s); [|done].
      by rewrite <- app_assoc. }
  apply H.
Qed.

Lemma end_time_of_here (before : list Question) (q : Question)
    (rest : list Question) :
  end_time_of (before ++ q :: rest) (length before) q =
    match rest with
    | q' :: _ => Finite (time_seconds q')
    | [] => Infinite
    end.
Proof.
  unfold end_time_of. rewrite length_app. simpl.
  destruct rest as [|q' rest]; simpl.
  - destruct (Z.ltb_spec (Z.of_nat (length before))
                (Z.of_nat (length before + 1) - 1)); [lia|done].
  - destruct (Z.ltb_spec (Z.of_nat (length before))
                (Z.of_nat (length before + S (S (length rest))) - 1));
      [|lia].
    rewrite app_nth2 by lia.
    by replace (length before + 1 - length before)%nat with 1%nat by lia.
Qed.

Lemma qa_step_pair (segments : list Segment) (before : list Question)
    (q : Question) (rest : list Question) (qa_pairs : list QAPair) :
  qa_step segments (before ++ q :: rest) qa_pairs (length before, q) =
    qa_pairs
    ++ match pair_of segments (q, match rest with
                                  | q' :: _ => Finite (time_seconds q')
                                  | [] => Infinite
                                  end) with
       | Some p => [p]
       | None => []
       end.
Proof.
  unfold qa_step, pair_of, answers.
  rewrite end_time_of_here, response_segments_filter.
  destruct (List.filter _ segments); [by rewrite app_nil_r|done].
Qed.

Lemma qa_fold (segments : list Segment) (rest : list Question) :
  forall (before : list Question) (qa_pairs : list QAPair),
    fold_left (qa_step segments (before ++ rest))
      (combine (seq (length before) (length rest)) rest) qa_pairs
    = qa_pairs ++ omap (pair_of segments) (windows rest).
Proof.
  induction rest as [|q rest IH]; intros before qa_pairs.
  - simpl. by rewrite app_nil_r.
  - cbn [length seq combine fold_left windows].
    rewrite qa_step_pair.
    replace (before ++ q :: rest) with ((before ++ [q]) ++ rest)
      by (by rewrite <- app_assoc).
    replace (S (length before)) with (length (before ++ [q]))
      by (rewrite length_app; simpl; lia).
    rewrite IH. cbn [omap list_omap].
    destruct (pair_of segments _); simpl; by rewrite <- app_assoc.
Qed.

Lemma qa_pairs_of_windows (segments : list Segment)
    (relevant : list Question) :
  qa_pairs_of segments relevant =
    omap (pair_of segments) (windows relevant).
Proof. apply (qa_fold segments relevant [] []). Qed.

Lemma strongest_key_max (s : Segment) (v : float) :
  In v (dict_values (avg_emotions s)) ->
  In (strongest_key s) (dict_values (avg_emotions s))
  /\ (strongest_key s <? v)%float = false.
Proof.
  unfold strongest_key. destruct (dict_values (avg_emotions s)) as [|v0 vs];
    [done|]. intros Hv.
  destruct (first_strongest_max (fun x => x) (v0 :: vs) _
              (max_by_first_strongest (fun x => x) v0 vs)) as [Hin Hmax].
  split; [exact Hin|by apply Hmax].
Qed.

(** C6: what the code does with the surviving questions and the segments.
    The questions give their pairs in order, each question with the window
    from its own time (included) to the time of the next surviving question
    (excluded), without end for the last one.  A question with no segment in
    its window gives no pair; any other gives one pair, with all segments of
    the window and, as the response, the first of those whose largest
    averaged emotion score is largest.  But a segment is not put in the
    window by its start: a start that is not below 1000 is divided by 1000
    first.  So the code pairs as the specification says as long as every
    segment starts less than 1000 seconds into the recording, and not after
    that: the question asked at 20:00 gets no pair from the one segment,
    which starts at 1500 seconds. *)
Theorem filter_relevant_questions_pairs (segments : list Segment)
    (relevant : list Question) :
  qa_pairs_of segments relevant = omap (pair_of segments) (windows relevant)
  /\ (forall q end_time s,
        In s (answers segments q end_time) <->
        In s segments
        /\ let seg_start :=
             if float_lt_int (start s) 1000 then start s
             else (start s / 1000)%float in
           int_le_float (time_seconds q) seg_start = true
           /\ match end_time with
              | Finite z => float_lt_int seg_start z = true
              | Infinite => (seg_start <? infinity)%float = true
              end)
  /\ (forall q end_time s,
        float_lt_int (start s) 1000 = true ->
        (In s (answers segments q end_time) <->
         In s segments
         /\ int_le_float (time_seconds q) (start s) = true
         /\ match end_time with
            | Finite z => float_lt_int (start s) z = true
            | Infinite => (start s <? infinity)%float = true
            end))
  /\ (forall q end_time,
        match pair_of segments (q, end_time) with
        | None => answers segments q end_time = []
        | Some p =>
            answers segments q end_time <> []
            /\ question p = text q
            /\ question_timestamp p = timestamp q
            /\ all_response_segments p = answers segments q end_time
            /\ first_strongest strongest_key (answers segments q end_time)
                 (response p)
            /\ forall s, In s (answers segments q end_time) ->
                 (strongest_key (response p) <? strongest_key s)%float = false
        end)
  /\ (forall s v,
        In v (dict_values (avg_emotions s)) ->
        In (strongest_key s) (dict_values (avg_emotions s))
        /\ (strongest_key s <? v)%float = false)
  /\ (forall s, avg_emotions s = [] -> strongest_key s = 0%float)
  /\ _filter_relevant_questions
       [mkSegment "answer" 1500 1510 [("Joy"%string, 0.5%float)]]
       "20:00 | Interviewer: Can you describe your sales process?"
     = [].
Proof.
  assert (forall q end_time s,
            In s (answers segments q end_time) <->
            In s segments
            /\ let seg_start :=
                 if float_lt_int (start s) 1000 then start s
                 else (start s / 1000)%float in
               int_le_float (time_seconds q) seg_start = true
               /\ match end_time with
                  | Finite z => float_lt_int seg_start z = true
                  | Infinite => (seg_start <? infinity)%float = true
                  end) as Hwindow.
  { intros q end_time s. unfold answers, in_window, seconds_of_start, before.
    rewrite List.filter_In. cbv zeta. rewrite andb_true_iff.
    by destruct end_time. }
  split; [apply qa_pairs_of_windows|]. split; [exact Hwindow|].
  split; [|split; [|split; [|split; [|by vm_compute]]]].
  - intros q end_time s Hlow. rewrite Hwindow. cbv zeta. by rewrite Hlow.
  - intros q end_time. unfold pair_of.
    destruct (answers segments q end_time) as [|s rest]; [done|]. simpl.
    pose proof (max_by_first_strongest strongest_key s rest) as Hfirst.
    repeat split; try done.
    by apply (first_strongest_max strongest_key (s :: rest)).
  - apply strongest_key_max.
  - intros s Hs. unfold strongest_key. by rewrite Hs.
Qed.

(** C6 fails for a segment that starts 1000 seconds or more into the
    recording: the last question, asked at 20:00, has the segment that
    starts at 1500 seconds in its window and yet gives no pair, because the
    start is read as 1.5 seconds.  The same segment starting at 999.5
    seconds, after a question asked at 16:00, is paired. *)
Lemma filter_relevant_questions_counterexample :
  let segment := mkSegment "answer" 1500 1510 [("Joy"%string, 0.5%float)] in
  let line := "20:00 | Interviewer: Can you describe your sales process?"%string in
  let early := mkSegment "answer" 999.5 1010 [("Joy"%string, 0.5%float)] in
  let line' := "16:00 | Interviewer: Can you describe your sales process?"%string in
  map time_seconds (relevant_questions_of (questions_of line)) = [1200]
  /\ int_le_float 1200 (start segment) = true
  /\ (start segment <? infinity)%float = true
  /\ _filter_relevant_questions [segment] line = []
  /\ map time_seconds (relevant_questions_of (questions_of line')) = [960]
  /\ map response (_filter_relevant_questions [early] line') = [early].
Proof. vm_compute. repeat split; reflexivity. Qed.

(** ** Which lines are questions *)

Lemma relevant_questions_filter (questions : list Question) :
  relevant_questions_of questions =
    List.filter (fun q => negb (is_irrelevant q)) questions.
Proof.
  unfold relevant_questions_of.
  assert (forall acc,
    fold_left
      (fun relevant q =>
         if negb (is_irrelevant q) then relevant ++ [q] else relevant)
      questions acc
    = acc ++ List.filter (fun q => negb (is_irrelevant q)) questions) as H.
  { induction questions as [|q questions IH]; intros acc; simpl.
    - by rewrite app_nil_r.
    - rewrite IH. destruct (negb (is_irrelevant q)); [|done].
      by rewrite <- app_assoc. }
  apply H.
Qed.

Lemma split_not_nil (sep : ascii) (s : string) : split sep s <> [].
Proof.
  destruct s as [|a s]; simpl; [done|].
  destruct (Ascii.eqb a sep); [done|]. by destruct (split sep s).
Qed.

(** On one line of text, [.split('\n')[0]] is the whole text. *)
Lemma first_line_whole (s : string) :
  contains (String newline EmptyString) s = false ->
  hd EmptyString (split newline s) = s.
Proof.
  induction s as [|a s IH]; [done|].
  cbn [contains drop_prefix split].
  destruct (Ascii.eqb_spec newline a) as [<-|Hne].
  - by destruct s.
  - destruct (Ascii.eqb_spec a newline) as [->|_]; [done|].
    intros Hs. specialize (IH Hs).
    pose proof (split_not_nil newline s) as Hnil.
    destruct (split newline s) as [|w ws]; [done|]. simpl in *.
    by rewrite IH.
Qed.

(** What [question_of_line] asks of a line to take it as a question. *)
Lemma question_of_line_Some (i : nat) (line : string) :
  (exists q, question_of_line i line = Some q) <->
  exists part0 part1 more,
    contains "|" line = true
    /\ split1 "|" line = part0 :: part1 :: more
    /\ contains "Daniel Kraft"
         (hd EmptyString (split newline (strip part1))) = false
    /\ is_question (strip part1) = true.
Proof.
  unfold question_of_line. split.
  - intros [q Hq].
    destruct (contains "|" line); [|discriminate]. simpl in Hq.
    destruct (split1 "|" line) as [|part0 [|part1 more]]; try discriminate.
    destruct (contains "Daniel Kraft" _) eqn:Hcand; [discriminate|].
    destruct (is_question (strip part1)) eqn:Hquestion; [|discriminate].
    by exists part0, part1, more.
  - intros (part0 & part1 & more & -> & -> & -> & ->). simpl. by eexists.
Qed.

Lemma question_of_line_text (i : nat) (line : string) (q : Question) :
  question_of_line i line = Some q ->
  exists part0 part1 more,
    split1 "|" line = part0 :: part1 :: more
    /\ text q = strip part1
    /\ index q = i
    /\ time_seconds q = seconds_of_timestamp (timestamp q).
Proof.
  unfold question_of_line.
  destruct (negb (contains "|" line)); [discriminate|].
  destruct (split1 "|" line) as [|part0 [|part1 more]]; try discriminate.
  destruct (contains "Daniel Kraft" _); [discriminate|].
  destruct (is_question (strip part1)); [|discriminate].
  intros [= <-]. by exists part0, part1, more.
Qed.

(** C7: what the code does with transcript lines.  The two lines of the
    specification behave as it says: the small-talk line gives no
    question, the sales-process line gives one.  But the test for the
    candidate reads all that follows the bar, speaker and text together, so
    a question that the interviewer addresses to the candidate by name gives
    no question either.  In general a line is taken as a question only if
    that whole remainder has no [Daniel Kraft] in it and is a question, and
    it survives when the remainder, in lower case, has none of the deny-list
    phrases. *)
Theorem question_filtering :
  relevant_questions_of
    (questions_of "00:05 | Interviewer: How are you doing today?") = []
  /\ relevant_questions_of
       (questions_of
          "00:10 | Interviewer: Can you describe your sales process?")
     = [mkQuestion "00:10" 10
          "Interviewer: Can you describe your sales process?" 0]
  /\ relevant_questions_of
       (questions_of
          "00:10 | Interviewer: Daniel Kraft, can you describe your sales process?")
     = []
  /\ (forall i line,
        (exists q, question_of_line i line = Some q) <->
        exists part0 part1 more,
          contains "|" line = true
          /\ split1 "|" line = part0 :: part1 :: more
          /\ contains "Daniel Kraft"
               (hd EmptyString (split newline (strip part1))) = false
          /\ is_question (strip part1) = true)
  /\ (forall i line q,
        question_of_line i line = Some q ->
        exists part0 part1 more,
          split1 "|" line = part0 :: part1 :: more
          /\ text q = strip part1)
  /\ (forall rest,
        contains (String newline EmptyString) rest = false ->
        hd EmptyString (split newline rest) = rest)
  /\ (forall questions q,
        In q (relevant_questions_of questions) <->
        In q questions
        /\ forallb (fun p => negb (contains p (lower (text q))))
             irrelevant_patterns = true).
Proof.
  split; [by vm_compute|]. split; [by vm_compute|]. split; [by vm_compute|].
  split; [|split; [|split]].
  - apply question_of_line_Some.
  - intros i line q Hq.
    destruct (question_of_line_text i line q Hq)
      as (part0 & part1 & more & H1 & H2 & _).
    by exists part0, part1, more.
  - apply first_line_whole.
  - intros questions q. rewrite relevant_questions_filter, List.filter_In.
    unfold is_irrelevant.
    assert (forall l,
      negb (existsb (fun p => contains p (lower (text q))) l) =
      forallb (fun p => negb (contains p (lower (text q)))) l) as Hdm.
    { induction l as [|p l IH]; simpl; [done|].
      rewrite negb_orb. by rewrite IH. }
    by rewrite Hdm.
Qed.

(** ** The properties at work *)

(** Sad occurs in one of the two selected frames and is divided by 2. *)
Lemma average_emotions_for_segment_witness :
  let frames :=
    [mkFrame 1 [mkEmotion "Joy" 1]; mkFrame 2 [mkEmotion "Sad" 0.5];
     mkFrame 4 [mkEmotion "Sad" 1]] in
  dict_get (_average_emotions_for_segment frames 1 2) "Sad"
    = Some 0.25%float
  /\ dict_get (_average_emotions_for_segment frames 1 2) "Fear" = None.
Proof.
  intros frames.
  destruct (average_emotions_for_segment_spec frames 1 2)
    as (_ & _ & Hin & Hout).
  split.
  - rewrite (Hin "Sad"%string); [vm_compute; reflexivity|].
    exists (mkFrame 2 [mkEmotion "Sad" 0.5]), (mkEmotion "Sad" 0.5).
    vm_compute. auto.
  - apply Hout. intros (f & e & Hf & He & Hname).
    vm_compute in Hf.
    destruct Hf as [<-|[<-|[]]]; vm_compute in He;
      destruct He as [<-|[]]; discriminate Hname.
Defined.

(** Two questions and three segments: the first question gets the two
    segments before the second question, and of these the stronger one. *)
Lemma filter_relevant_questions_witness :
  let q1 := mkQuestion "00:10" 10 "Interviewer: Can you describe it?" 0 in
  let q2 := mkQuestion "00:30" 30 "Interviewer: What is next?" 1 in
  let s1 := mkSegment "a" 11 12 [("Joy"%string, 0.5%float)] in
  let s2 := mkSegment "b" 20 22 [("Joy"%string, 0.25%float);
                                 ("Fear"%string, 0.75%float)] in
  let s3 := mkSegment "c" 30 31 [] in
  qa_pairs_of [s1; s2; s3] [q1; q2]
  = [mkQAPair "Interviewer: Can you describe it?" "00:10" s2 [s1; s2];
     mkQAPair "Interviewer: What is next?" "00:30" s3 [s3]].
Proof.
  intros q1 q2 s1 s2 s3.
  destruct (filter_relevant_questions_pairs [s1; s2; s3] [q1; q2])
    as (-> & _).
  vm_compute. reflexivity.
Defined.


(** ** The tests of the specification *)

(** Two blocks, the second with an empty emotion list: one frame. *)
Example extract_two_blocks :
  extract_emotion_frames
    "FacePrediction(frame=0, time=0.0, emotions=[EmotionScore(name='Joy', score=0.5), EmotionScore(name='Anger', score=0.125)]), FacePrediction(frame=1, time=1.0, emotions=[])"
  = [mkFrame 0 [mkEmotion "Joy" 0.5; mkEmotion "Anger" 0.125]].
Proof. by vm_compute. Qed.

(** A time with two dots is no number: the block is passed over and the
    next one is read. *)
Example extract_bad_time :
  extract_emotion_frames
    "FacePrediction(frame=0, time=1.2.3, emotions=[EmotionScore(name='Joy', score=0.5)]) FacePrediction(frame=12,time=2.5, emotions=[EmotionScore(name='Calm',  score=0.25)])"
  = [mkFrame 2.5 [mkEmotion "Calm" 0.25]].
Proof. by vm_compute. Qed.

(** Frames at 1.0 and 2.0 with Joy 1.0: both ends of the window count. *)
Example average_inclusive_bounds :
  let frames :=
    [mkFrame 1 [mkEmotion "Joy" 1]; mkFrame 2 [mkEmotion "Joy" 1]] in
  _average_emotions_for_segment frames 1 2 = [("Joy"%string, 1%float)]
  /\ _average_emotions_for_segment frames 1 1 = [("Joy"%string, 1%float)]
  /\ _average_emotions_for_segment frames 1.5 1.5 = [].
Proof. by vm_compute. Qed.

(** An emotion that only one of two selected frames has is divided by 2. *)
Example average_divides_by_frames :
  _average_emotions_for_segment
    [mkFrame 1 [mkEmotion "Joy" 1]; mkFrame 2 [mkEmotion "Sad" 0.5]] 0 3
  = [("Joy"%string, 0.5%float); ("Sad"%string, 0.25%float)].
Proof. by vm_compute. Qed.

End AnalyticsProofs.

(* ===================================================================== *)
(** * Part VI: the extraction read on the text, and further properties of
    the code *)
(* ===================================================================== *)

Module QueueLifecycleProofs.
Import MeetingQueue QueueSpec QueueLifecycle QueueProofs.

Lemma honored_remove (st : State) (meeting_id : Z) (e : Entry) :
  honored (_remove_meeting st meeting_id) e =
    negb (entry_id e =? meeting_id) && honored st e.
Proof.
  unfold honored. rewrite _remove_meeting_meetings.
  destruct (Z.eqb_spec (entry_id e) meeting_id) as [->|Hne]; simpl.
  - by rewrite lookup_delete_eq.
  - by rewrite lookup_delete_ne.
Qed.

Lemma entries_for_length_pop (meeting_id : Z) (q : list Entry) :
  (length (entries_for meeting_id (heappop q))
   <= length (entries_for meeting_id q))%nat.
Proof.
  destruct q as [|e q]; simpl; [lia|].
  unfold entries_for. simpl. destruct (entry_id e =? meeting_id); simpl; lia.
Qed.

(** One call on a state that does not know [meeting_id]. *)
Lemma silent_run_op (st : State) (op : Op) (meeting_id : Z) :
  _meetings st !! meeting_id = None ->
  _meetings (run_op st op) !! meeting_id = None
  /\ attempts meeting_id (run_op st op) = attempts meeting_id st
  /\ (length (entries_for meeting_id (_queue (run_op st op)))
      <= length (entries_for meeting_id (_queue st)))%nat.
Proof.
  intros Hnone. destruct op as [now id d|now|tk|id]; cbn [run_op].
  - destruct (decide (id = meeting_id)) as [->|Hne].
    + unfold reschedule_meeting. rewrite Hnone. simpl. done.
    + destruct (reschedule_other now st id meeting_id d Hne) as (H1 & H2 & H3).
      rewrite H1, H2, (attempts_calls_eq _ _ _ H3). done.
  - rewrite check_for_urgent_meetings_lookup, Hnone. done.
  - unfold tick, _process_next_meeting.
    destruct (_queue st) as [|e q] eqn:Hq; [by rewrite Hq|].
    destruct (next_time e <=? tick_now tk); [|by rewrite Hq].
    pose proof (entries_for_length_pop meeting_id (e :: q)) as Hpop.
    set (st1 := set_queue st (heappop (e :: q))) in *.
    assert (_meetings st1 !! meeting_id = None) as Hnone1 by done.
    assert (attempts meeting_id st1 = attempts meeting_id st) as Ha1 by done.
    change (_queue st1) with (heappop (e :: q)) in *.
    destruct (_meetings st1 !! entry_id e) as [m|] eqn:Hm; [|done].
    destruct (negb _); [done|].
    assert (entry_id e <> meeting_id) as Hne by congruence.
    destruct (_join_meeting_other (tick_callback tk) (tick_now_retry tk) st1
                (entry_id e) meeting_id (url m) (retry_count m)
                (max_retries m) (is_urgent m) Hne) as (H1 & H2 & H3).
    rewrite H1, H2, H3. done.
  - unfold cancel_meeting. destruct (_meetings st !! id); simpl; [|done].
    rewrite _remove_meeting_meetings, _remove_meeting_queue.
    rewrite (attempts_calls_eq st) by apply _remove_meeting_calls.
    split; [|done].
    destruct (decide (id = meeting_id)) as [->|Hne].
    + by rewrite lookup_delete_eq.
    + by rewrite lookup_delete_ne.
Qed.

Lemma silent_run_ops (ops : list Op) (st : State) (meeting_id : Z) :
  _meetings st !! meeting_id = None ->
  _meetings (run_ops ops st) !! meeting_id = None
  /\ attempts meeting_id (run_ops ops st) = attempts meeting_id st.
Proof.
  revert st. induction ops as [|op ops IH]; intros st Hnone; simpl; [done|].
  destruct (silent_run_op st op meeting_id Hnone) as (H1 & H2 & _).
  destruct (IH _ H1) as [H3 H4]. split; [done|congruence].
Qed.

(** X1: cancellation is lazy.  [cancel_meeting] answers [False] exactly
    for a meeting that is not in the table, and then changes nothing.
    Otherwise it deletes the table entry and nothing else: the heap keeps
    every entry and the call log is untouched.  The entries of the meeting
    that stay in the heap are no longer honored, the entries of other
    meetings are honored as before, and whatever is called afterwards short
    of a new [schedule_meeting], the meeting stays out of the table and the
    join callback is never invoked for it. *)
Theorem cancel_meeting_lazy (st : State) (meeting_id : Z) :
  let r := cancel_meeting st meeting_id in
  (fst r = false <-> _meetings st !! meeting_id = None)
  /\ (fst r = false -> snd r = st)
  /\ _meetings (snd r) = delete meeting_id (_meetings st)
  /\ _queue (snd r) = _queue st
  /\ join_calls (snd r) = join_calls st
  /\ (forall e,
        honored (snd r) e = negb (entry_id e =? meeting_id) && honored st e)
  /\ forall ops,
       _meetings (run_ops ops (snd r)) !! meeting_id = None
       /\ attempts meeting_id (run_ops ops (snd r)) = attempts meeting_id st.
Proof.
  simpl. unfold cancel_meeting.
  destruct (_meetings st !! meeting_id) as [m|] eqn:Hm; simpl.
  - split; [done|]. split; [done|].
    rewrite _remove_meeting_meetings, _remove_meeting_queue,
      _remove_meeting_calls.
    do 3 (split; [done|]). split; [apply honored_remove|].
    intros ops.
    destruct (silent_run_ops ops (_remove_meeting st meeting_id) meeting_id)
      as [H1 H2].
    { rewrite _remove_meeting_meetings. apply lookup_delete_eq. }
    split; [done|]. rewrite H2. apply attempts_calls_eq, _remove_meeting_calls.
  - split; [done|]. split; [done|].
    split; [symmetry; by apply delete_id|]. do 2 (split; [done|]).
    split.
    + intros e. unfold honored.
      destruct (Z.eqb_spec (entry_id e) meeting_id) as [->|Hne]; simpl;
        [by rewrite Hm|done].
    + intros ops. by apply silent_run_ops.
Qed.

(** X2: a meeting that is not in the table is never joined.  Over any
    sequence of [reschedule_meeting], [check_for_urgent_meetings],
    [cancel_meeting] calls and worker iterations, on any meetings, a meeting
    that is not in the table stays out of it, the join callback is not
    invoked for it, and the heap gains no entry for it: only
    [schedule_meeting] brings a meeting in. *)
Theorem unknown_meeting_stays_silent (ops : list Op) (st : State)
    (meeting_id : Z) :
  _meetings st !! meeting_id = None ->
  let st' := run_ops ops st in
  _meetings st' !! meeting_id = None
  /\ attempts meeting_id st' = attempts meeting_id st
  /\ (length (entries_for meeting_id (_queue st'))
      <= length (entries_for meeting_id (_queue st)))%nat.
Proof.
  simpl. revert st.
  induction ops as [|op ops IH]; intros st Hnone; simpl; [done|].
  destruct (silent_run_op st op meeting_id Hnone) as (H1 & H2 & H3).
  destruct (IH _ H1) as (H4 & H5 & H6).
  split; [done|]. split; [congruence|lia].
Qed.

Lemma unknown_meeting_stays_silent_witness :
  let st := mkState [mkEntry 0 1 "u" 0; mkEntry 5 2 "v" 0]
              {[ 2 := mkMeeting 5 "v" 0 1 false ]} [] in
  let cb : callback := fun _ _ => Returns false in
  let st' :=
    run_ops [OpTick (mkTick cb 9 9); OpReschedule 9 1 None;
             OpTick (mkTick cb 9 9); OpCancel 1] st in
  _meetings st' !! 1 = None
  /\ attempts 1 st' = attempts 1 st
  /\ (length (entries_for 1 (_queue st'))
      <= length (entries_for 1 (_queue st)))%nat.
Proof.
  apply (unknown_meeting_stays_silent
           [OpTick (mkTick (fun _ _ => Returns false) 9 9);
            OpReschedule 9 1 None;
            OpTick (mkTick (fun _ _ => Returns false) 9 9); OpCancel 1]
           (mkState [mkEntry 0 1 "u" 0; mkEntry 5 2 "v" 0]
              {[ 2 := mkMeeting 5 "v" 0 1 false ]} []) 1).
  reflexivity.
Defined.

(** X3: a join that succeeds is the last one.  When the worker finds an
    honored entry due and the callback returns [True], the entry is popped,
    the meeting is removed from the table and one call is logged; after
    that, whatever is called short of a new [schedule_meeting], the meeting
    stays out of the table and no further join is attempted for it. *)
Theorem joined_meeting_is_done (st : State) (tk : Tick) (e : Entry)
    (rest : list Entry) (m : Meeting) :
  _queue st = e :: rest -> next_time e <= tick_now tk ->
  _meetings st !! entry_id e = Some m -> retry_count m = entry_retry e ->
  tick_callback tk (entry_id e) (url m) = Returns true ->
  tick st tk =
    mkState rest (delete (entry_id e) (_meetings st))
      (join_calls st ++ [(entry_id e, url m)])
  /\ forall ops,
       _meetings (run_ops ops (tick st tk)) !! entry_id e = None
       /\ attempts (entry_id e) (run_ops ops (tick st tk)) =
            S (attempts (entry_id e) st).
Proof.
  intros Hq Hdue Hm Hrc Hcb.
  assert (tick st tk =
            mkState rest (delete (entry_id e) (_meetings st))
              (join_calls st ++ [(entry_id e, url m)])) as Heq.
  { unfold tick. rewrite (process_honored _ _ _ st e rest m) by done.
    unfold _join_meeting, call_join. rewrite Hcb.
    unfold _remove_meeting. simpl. by rewrite Hm. }
  split; [exact Heq|]. intros ops. rewrite Heq.
  destruct (silent_run_ops ops
              (mkState rest (delete (entry_id e) (_meetings st))
                 (join_calls st ++ [(entry_id e, url m)])) (entry_id e))
    as [H1 H2].
  { apply lookup_delete_eq. }
  split; [done|]. rewrite H2, attempts_call. by rewrite Z.eqb_refl.
Qed.


Lemma joined_meeting_is_done_witness :
  let cb : callback := fun _ _ => Returns true in
  let st :=
    mkState [mkEntry 0 1 "u" 0; mkEntry 9 1 "u" 1]
      {[ 1 := mkMeeting 0 "u" 0 5 false ]} [] in
  tick st (mkTick cb 10 10) =
    mkState [mkEntry 9 1 "u" 1] (delete 1 (_meetings st)) ([] ++ [(1, "u"%string)])
  /\ forall ops,
       _meetings (run_ops ops (tick st (mkTick cb 10 10))) !! 1 = None
       /\ attempts 1 (run_ops ops (tick st (mkTick cb 10 10))) = 1%nat.
Proof.
  apply (joined_meeting_is_done
           (mkState [mkEntry 0 1 "u" 0; mkEntry 9 1 "u" 1]
              {[ 1 := mkMeeting 0 "u" 0 5 false ]} [])
           (mkTick (fun _ _ => Returns true) 10 10)
           (mkEntry 0 1 "u" 0) [mkEntry 9 1 "u" 1]
           (mkMeeting 0 "u" 0 5 false));
    first [reflexivity | simpl; lia].
Defined.

Lemma run_op_joins_once (st : State) (op : Op) (meeting_id : Z) :
  joins_succeed meeting_id op ->
  attempts meeting_id (run_op st op) = attempts meeting_id st
  \/ (attempts meeting_id (run_op st op) = S (attempts meeting_id st)
      /\ _meetings (run_op st op) !! meeting_id = None).
Proof.
  intros Hok. destruct op as [now id d|now|tk|id]; cbn [run_op].
  - left. apply attempts_calls_eq.
    destruct (reschedule_meeting_cases now st id d) as (_ & Hf & Ht).
    destruct (fst (reschedule_meeting now st id d)).
    + by destruct (Ht eq_refl) as (m & _ & _ & _ & ->).
    + by rewrite (Hf eq_refl).
  - by left.
  - simpl in Hok. unfold tick, _process_next_meeting.
    destruct (_queue st) as [|e q] eqn:Hq; [by left|].
    destruct (next_time e <=? tick_now tk); [|by left].
    set (st1 := set_queue st (heappop (e :: q))).
    destruct (_meetings st1 !! entry_id e) as [m|] eqn:Hm; [|by left].
    destruct (negb _); [by left|].
    destruct (decide (entry_id e = meeting_id)) as [Heq|Hne].
    + right. unfold _join_meeting, call_join. rewrite Heq, Hok.
      rewrite _remove_meeting_meetings, lookup_delete_eq.
      rewrite (attempts_calls_eq _ _ _ (_remove_meeting_calls _ _)).
      rewrite attempts_call, Z.eqb_refl. done.
    + left.
      by destruct (_join_meeting_other (tick_callback tk) (tick_now_retry tk)
                     st1 (entry_id e) meeting_id (url m) (retry_count m)
                     (max_retries m) (is_urgent m) Hne) as (_ & _ & ->).
  - left. apply attempts_calls_eq. unfold cancel_meeting.
    destruct (_meetings st !! id); [|done]. apply _remove_meeting_calls.
Qed.

(** X11: a join that succeeds happens once.  If the join succeeds whenever
    the worker attempts it for a meeting, then over any sequence of calls
    short of [schedule_meeting], from any state, stale entries and
    reschedules included, the join callback is invoked for the meeting at
    most once; and once it has been invoked the meeting is out of the
    table. *)
Theorem successful_join_happens_once (ops : list Op) (st : State)
    (meeting_id : Z) :
  Forall (joins_succeed meeting_id) ops ->
  let st' := run_ops ops st in
  (attempts meeting_id st' <= S (attempts meeting_id st))%nat
  /\ (attempts meeting_id st' = S (attempts meeting_id st) ->
      _meetings st' !! meeting_id = None).
Proof.
  simpl. revert st.
  induction ops as [|op ops IH]; intros st Hok; simpl.
  - split; [lia|]. intros H. lia.
  - apply Forall_cons in Hok as [Hop Hops].
    destruct (run_op_joins_once st op meeting_id Hop) as [Hsame|[Hone Hgone]].
    + rewrite <- Hsame. by apply IH.
    + destruct (silent_run_ops ops (run_op st op) meeting_id Hgone)
        as [H1 H2].
      rewrite H2, Hone. split; [lia|done].
Qed.

Lemma successful_join_happens_once_witness :
  let cb : callback := fun _ _ => Returns true in
  let st :=
    mkState [mkEntry 0 1 "u" 0; mkEntry 5 1 "u" 0]
      {[ 1 := mkMeeting 5 "u" 0 5 false ]} [] in
  let st' :=
    run_ops [OpTick (mkTick cb 9 9); OpTick (mkTick cb 9 9)] st in
  (attempts 1 st' <= S (attempts 1 st))%nat
  /\ (attempts 1 st' = S (attempts 1 st) -> _meetings st' !! 1 = None).
Proof.
  apply (successful_join_happens_once
           [OpTick (mkTick (fun _ _ => Returns true) 9 9);
            OpTick (mkTick (fun _ _ => Returns true) 9 9)]
           (mkState [mkEntry 0 1 "u" 0; mkEntry 5 1 "u" 0]
              {[ 1 := mkMeeting 5 "u" 0 5 false ]} []) 1).
  repeat constructor.
Defined.

(** ** The retry budget *)

Lemma within_budget_subset (st st' : State) :
  (forall meeting_id m,
     _meetings st' !! meeting_id = Some m ->
     _meetings st !! meeting_id = Some m) ->
  within_budget st -> within_budget st'.
Proof. intros Hsub Hb id m Hm. by apply (Hb id), Hsub. Qed.

Lemma within_budget_remove (st : State) (meeting_id : Z) :
  within_budget st -> within_budget (_remove_meeting st meeting_id).
Proof.
  apply within_budget_subset. intros id m.
  rewrite _remove_meeting_meetings. by intros [_ H]%lookup_delete_Some.
Qed.

Lemma within_budget_reschedule (now : Z) (st : State) (meeting_id : Z)
    (delay_minutes : option Z) :
  within_budget st ->
  within_budget (snd (reschedule_meeting now st meeting_id delay_minutes)).
Proof.
  intros Hb.
  destruct (reschedule_meeting_cases now st meeting_id delay_minutes)
    as (Hiff & Hrefused & Haccepted).
  destruct (fst (reschedule_meeting now st meeting_id delay_minutes)) eqn:Hr.
  - destruct (Haccepted eq_refl) as (m & Hm & Hms & _).
    intros id m'. rewrite Hms.
    destruct (decide (meeting_id = id)) as [<-|Hne].
    + rewrite lookup_insert_eq. intros [= <-]. simpl.
      pose proof (Hb _ _ Hm) as Hle.
      assert (~ retry_count m >= max_retries m); [|lia].
      intros Hge.
      assert (true = false); [|done]. apply Hiff. right. by exists m.
    + rewrite lookup_insert_ne by done. apply Hb.
  - by rewrite (Hrefused eq_refl).
Qed.

Lemma within_budget_tick (st : State) (tk : Tick) :
  within_budget st -> within_budget (tick st tk).
Proof.
  intros Hb. unfold tick, _process_next_meeting.
  destruct (_queue st) as [|e q]; [done|].
  destruct (next_time e <=? tick_now tk); [|done].
  set (st1 := set_queue st (heappop (e :: q))).
  assert (within_budget st1) as Hb1 by done.
  destruct (_meetings st1 !! entry_id e) as [m|]; [|done].
  destruct (negb _); [done|].
  unfold _join_meeting, call_join.
  set (st2 := mkState _ _ _).
  assert (within_budget st2) as Hb2 by done.
  destruct (tick_callback tk (entry_id e) (url m)) as [[|]|].
  - by apply within_budget_remove.
  - by apply within_budget_reschedule.
  - by apply within_budget_reschedule.
Qed.

Lemma within_budget_run_op (st : State) (op : Op) :
  within_budget st -> within_budget (run_op st op).
Proof.
  intros Hb. destruct op as [now id d|now|tk|id]; cbn [run_op].
  - by apply within_budget_reschedule.
  - intros id m. rewrite check_for_urgent_meetings_lookup.
    destruct (_meetings st !! id) as [m0|] eqn:Hm0; [|done].
    intros [= <-]. simpl. by apply (Hb id).
  - by apply within_budget_tick.
  - unfold cancel_meeting. destruct (_meetings st !! id); [|done].
    by apply within_budget_remove.
Qed.

(** X4: the retry budget is an invariant.  If every [schedule_meeting]
    call hands in a [max_retries] that is not negative, then after any
    sequence of calls of the public interface and worker iterations every
    meeting of the table has [0 <= retry_count <= max_retries]. *)
Theorem retry_count_within_budget (calls : list Call) (st : State) :
  Forall budget_given calls ->
  within_budget st ->
  within_budget (run_calls calls st).
Proof.
  revert st. induction calls as [|c calls IH]; intros st Hgiven Hb;
    simpl; [done|].
  apply Forall_cons in Hgiven as [Hc Hgiven]. apply IH; [done|].
  destruct c as [cb now id u t maxr|op]; simpl.
  - simpl in Hc.
    destruct (schedule_meeting_cases cb now st id u t maxr) as [Hpast Hfut].
    destruct (Z.lt_ge_cases (t + timedelta_minutes 1) now) as [Hlt|Hge].
    + destruct (Hpast Hlt) as (_ & _ & _ & Hms).
      intros id' m. rewrite Hms. intros [_ H]%lookup_delete_Some.
      by apply (Hb id').
    + destruct (Hfut Hge) as (_ & _ & _ & Hms).
      intros id' m. rewrite Hms.
      destruct (decide (id = id')) as [<-|Hne].
      * rewrite lookup_insert_eq. intros [= <-]. simpl. lia.
      * rewrite lookup_insert_ne by done.
        intros [_ H]%lookup_delete_Some. by apply (Hb id').
  - by apply within_budget_run_op.
Qed.

Lemma retry_count_within_budget_witness :
  let cb : callback := fun _ _ => Returns false in
  within_budget
    (run_calls
       [CallSchedule cb 0 1 "u" 0 1; CallOp (OpReschedule 0 1 None);
        CallOp (OpReschedule 0 1 None);
        CallOp (OpTick (mkTick cb 900000000 900000000));
        CallOp (OpTick (mkTick cb 900000000 900000000))]
       (mkState [] ∅ [])).
Proof.
  apply retry_count_within_budget.
  - repeat constructor; simpl; lia.
  - intros id m Hm. simpl in Hm. rewrite lookup_empty in Hm. discriminate Hm.
Defined.

(** ** Joins are on time *)

Lemma punctual_subset (st st' : State) :
  (forall e, In e (_queue st') -> In e (_queue st)) ->
  (forall meeting_id m,
     _meetings st' !! meeting_id = Some m ->
     _meetings st !! meeting_id = Some m) ->
  punctual st -> punctual st'.
Proof.
  intros Hq Hms Hp e m Hin Hm Hrc. apply Hp; [by apply Hq|by apply Hms|done].
Qed.

Lemma punctual_remove (st : State) (meeting_id : Z) :
  punctual st -> punctual (_remove_meeting st meeting_id).
Proof.
  apply punctual_subset.
  - by rewrite _remove_meeting_queue.
  - intros id m. rewrite _remove_meeting_meetings.
    by intros [_ H]%lookup_delete_Some.
Qed.

Lemma In_heappush (q : list Entry) (e x : Entry) :
  In x (heappush q e) -> x = e \/ In x q.
Proof.
  intros Hin.
  apply (Permutation_in _ (heappush_perm q e)) in Hin as [<-|Hin]; auto.
Qed.

Lemma In_entries_for (meeting_id : Z) (q : list Entry) (e : Entry) :
  In e q -> entry_id e = meeting_id -> In e (entries_for meeting_id q).
Proof.
  intros Hin Hid. apply List.filter_In. split; [done|]. by apply Z.eqb_eq.
Qed.

Lemma punctual_reschedule (now : Z) (st : State) (meeting_id : Z)
    (delay_minutes : option Z) :
  fenced meeting_id st -> punctual st ->
  punctual (snd (reschedule_meeting now st meeting_id delay_minutes)).
Proof.
  intros [_ Hle] Hp.
  destruct (reschedule_meeting_cases now st meeting_id delay_minutes)
    as (_ & Hrefused & Haccepted).
  destruct (fst (reschedule_meeting now st meeting_id delay_minutes)).
  - destruct (Haccepted eq_refl) as (m & Hm & Hms & Hqueue & _).
    intros e m'. rewrite Hms, Hqueue. intros [->|Hin]%In_heappush.
    + simpl. rewrite lookup_insert_eq. by intros [= <-] _.
    + destruct (decide (meeting_id = entry_id e)) as [Heq|Hne].
      * rewrite <- Heq, lookup_insert_eq. intros [= <-]. simpl. intros Hrc.
        specialize (Hle m Hm). rewrite Forall_forall in Hle.
        specialize (Hle e). 
        assert (entry_retry e <= retry_count m); [|lia].
        apply Hle, list_elem_of_In, In_entries_for; done.
      * rewrite lookup_insert_ne by done. by apply Hp.
  - by rewrite (Hrefused eq_refl).
Qed.

Lemma punctual_tick (st : State) (tk : Tick) :
  (forall i, fenced i st) -> punctual st -> punctual (tick st tk).
Proof.
  intros Hf Hp. unfold tick, _process_next_meeting.
  destruct (_queue st) as [|e q] eqn:Hq; [done|].
  destruct (next_time e <=? tick_now tk); [|done].
  set (st1 := set_queue st (heappop (e :: q))).
  assert (punctual st1) as Hp1.
  { apply (punctual_subset st); [|done|done].
    simpl. rewrite Hq. intros; by right. }
  assert (fenced (entry_id e) st1) as Hf1.
  { unfold st1. rewrite <- Hq. apply fenced_pop, Hf. }
  destruct (_meetings st1 !! entry_id e) as [m|]; [|done].
  destruct (negb _); [done|].
  unfold _join_meeting, call_join.
  set (st2 := mkState _ _ _).
  assert (punctual st2) as Hp2 by done.
  assert (fenced (entry_id e) st2) as Hf2 by done.
  destruct (tick_callback tk (entry_id e) (url m)) as [[|]|].
  - by apply punctual_remove.
  - by apply punctual_reschedule.
  - by apply punctual_reschedule.
Qed.

Lemma punctual_run_op (st : State) (op : Op) :
  (forall i, fenced i st) -> punctual st -> punctual (run_op st op).
Proof.
  intros Hf Hp. destruct op as [now id d|now|tk|id]; cbn [run_op].
  - by apply punctual_reschedule.
  - intros e m Hin. rewrite check_for_urgent_meetings_lookup.
    destruct (_meetings st !! entry_id e) as [m0|] eqn:Hm0; [|done].
    intros [= <-]. simpl. by apply Hp.
  - by apply punctual_tick.
  - unfold cancel_meeting. destruct (_meetings st !! id); [|done].
    by apply punctual_remove.
Qed.

Lemma punctual_run_ops (ops : list Op) (st : State) :
  (forall i, fenced i st) -> punctual st ->
  (forall i, fenced i (run_ops ops st)) /\ punctual (run_ops ops st).
Proof.
  revert st. induction ops as [|op ops IH]; intros st Hf Hp; simpl; [done|].
  apply IH.
  - intros i. apply fenced_run_op, Hf.
  - by apply punctual_run_op.
Qed.

Lemma schedule_other (cb : callback) (now : Z) (st : State)
    (meeting_id other : Z) (u : string) (t maxr : Z) :
  meeting_id <> other ->
  let st' := snd (schedule_meeting cb now st meeting_id u t maxr) in
  _meetings st' !! other = _meetings st !! other
  /\ entries_for other (_queue st') = entries_for other (_queue st).
Proof.
  intros Hne. simpl.
  destruct (schedule_meeting_cases cb now st meeting_id u t maxr)
    as [Hpast Hfut].
  destruct (Z.lt_ge_cases (t + timedelta_minutes 1) now) as [Hlt|Hge].
  - destruct (Hpast Hlt) as (_ & _ & -> & ->).
    by rewrite lookup_delete_ne.
  - destruct (Hfut Hge) as (_ & _ & -> & ->).
    rewrite lookup_insert_ne, lookup_delete_ne by done.
    by rewrite entries_for_heappush_other.
Qed.

Lemma punctual_schedule (cb : callback) (now : Z) (st : State)
    (meeting_id : Z) (u : string) (t maxr : Z) :
  entries_for meeting_id (_queue st) = [] ->
  punctual st ->
  punctual (snd (schedule_meeting cb now st meeting_id u t maxr)).
Proof.
  intros Hnil Hp.
  assert (forall e, In e (_queue st) -> entry_id e <> meeting_id) as Hfresh.
  { intros e Hin Hid. apply (In_entries_for meeting_id) in Hin; [|done].
    by rewrite Hnil in Hin. }
  destruct (schedule_meeting_cases cb now st meeting_id u t maxr)
    as [Hpast Hfut].
  destruct (Z.lt_ge_cases (t + timedelta_minutes 1) now) as [Hlt|Hge].
  - destruct (Hpast Hlt) as (_ & _ & Hq & Hms).
    apply (punctual_subset st); [by rewrite Hq| |done].
    intros id m. rewrite Hms. by intros [_ H]%lookup_delete_Some.
  - destruct (Hfut Hge) as (_ & _ & Hq & Hms).
    intros e m. rewrite Hq, Hms. intros [->|Hin]%In_heappush.
    + simpl. rewrite lookup_insert_eq. by intros [= <-] _.
    + pose proof (Hfresh e Hin) as Hne.
      rewrite lookup_insert_ne, lookup_delete_ne by done. by apply Hp.
Qed.

(** X5: the worker joins on time.  Call a state orderly when the entries
    of every meeting are fenced and every honored entry carries the time
    that the table stores for its meeting.  Orderliness is kept by every
    call short of [schedule_meeting] and by every worker iteration, and by a
    [schedule_meeting] for a meeting that has no entry left in the heap.  In
    an orderly state an iteration of the worker that invokes the join
    callback at all invokes it for a meeting of the table, with the stored
    URL, and not before the stored [scheduled_time]. *)
Theorem worker_joins_on_time (ops : list Op) (st : State) :
  (forall i, fenced i st) -> punctual st ->
  let st' := run_ops ops st in
  ((forall i, fenced i st') /\ punctual st')
  /\ (forall cb now meeting_id u t maxr,
        entries_for meeting_id (_queue st') = [] ->
        let st'' := snd (schedule_meeting cb now st' meeting_id u t maxr) in
        (forall i, fenced i st'') /\ punctual st'')
  /\ forall tk meeting_id u,
       join_calls (tick st' tk) = join_calls st' ++ [(meeting_id, u)] ->
       exists m,
         _meetings st' !! meeting_id = Some m
         /\ url m = u
         /\ scheduled_time m <= tick_now tk.
Proof.
  intros Hf Hp. simpl.
  destruct (punctual_run_ops ops st Hf Hp) as [Hf' Hp'].
  split; [done|]. set (st' := run_ops ops st) in *. clearbody st'.
  split.
  { intros cb now id u t maxr Hnil. split; [|by apply punctual_schedule].
    intros i. destruct (decide (id = i)) as [<-|Hne].
    - by apply fenced_schedule.
    - destruct (schedule_other cb now st' id i u t maxr Hne) as [H1 H2].
      by apply (fenced_frame i st'). }
  intros tk id u. unfold tick, _process_next_meeting.
  assert (forall l : list (Z * string), l = l ++ [(id, u)] -> False) as Hno.
  { intros l Hl. apply (f_equal (@length _)) in Hl.
    rewrite length_app in Hl. simpl in Hl. lia. }
  destruct (_queue st') as [|e q] eqn:Hq; [intros H; by apply Hno in H|].
  destruct (Z.leb_spec (next_time e) (tick_now tk)) as [Hdue|_];
    [|intros H; by apply Hno in H].
  simpl.
  destruct (_meetings st' !! entry_id e) as [m|] eqn:Hm;
    [|intros H; by apply Hno in H].
  destruct (Z.eqb_spec (retry_count m) (entry_retry e)) as [Hrc|_];
    [|intros H; by apply Hno in H].
  simpl. rewrite _join_meeting_calls. simpl.
  intros [_ [= <- <-]]%app_inj_tail.
  exists m. split; [done|]. split; [done|].
  destruct (Hp' e m) as [Ht _]; [rewrite Hq; by left|done|done|]. lia.
Qed.

Lemma worker_joins_on_time_witness :
  let cb : callback := fun _ _ => Returns true in
  let st := mkState [] {[ 1 := mkMeeting 0 "u" 0 5 true ]} [] in
  let st' := run_ops [OpReschedule 0 1 None] st in
  exists m,
    _meetings st' !! 1 = Some m
    /\ url m = "u"%string
    /\ scheduled_time m <= 180000000.
Proof.
  destruct (worker_joins_on_time [OpReschedule 0 1 None]
              (mkState [] {[ 1 := mkMeeting 0 "u" 0 5 true ]} []))
    as (_ & _ & H).
  - intros i. split; [constructor|]. intros m _. constructor.
  - intros e m [].
  - apply (H (mkTick (fun _ _ => Returns true) 180000000 180000000) 1
             "u"%string).
    reflexivity.
Defined.

(** ** Scheduling a meeting that is still in the heap *)

Lemma entry_compare_time (a b : Entry) :
  entry_compare a b <> Gt -> next_time a <= next_time b.
Proof.
  unfold entry_compare.
  destruct (Z.compare_spec (next_time a) (next_time b)); [lia|lia|done].
Qed.

Lemma heappush_earliest (q : list Entry) (e : Entry) :
  Forall (fun x => next_time e < next_time x) q -> heappush q e = e :: q.
Proof.
  destruct q as [|x q]; [done|]. intros [Hx _]%Forall_cons. simpl.
  unfold entry_compare.
  by destruct (Z.compare_spec (next_time e) (next_time x)); [lia| |lia].
Qed.

(** X6: scheduling a meeting again does not withdraw its first entry.
    [schedule_meeting] purges the table entry but not the heap, and both
    entries carry the retry count 0.  So when a meeting is queued and then,
    whatever else the heap holds, queued again, the table holds the new time
    and URL, the heap holds both entries besides those it held, and both
    entries are honored: an iteration of the worker that finds the first
    entry due at the head invokes the join callback, with the new URL,
    whether or not the new time has come.  That is the very next iteration
    at or after the first time when the new time is not earlier and nothing
    else in the heap is due by then. *)
Theorem schedule_again_joins_at_first_time (cb1 cb2 : callback)
    (now1 now2 : Z) (st : State) (meeting_id : Z) (u1 u2 : string)
    (t1 t2 maxr1 maxr2 : Z) :
  now1 <= t1 + timedelta_minutes 1 ->
  now2 <= t2 + timedelta_minutes 1 ->
  let st1 := snd (schedule_meeting cb1 now1 st meeting_id u1 t1 maxr1) in
  let st2 := snd (schedule_meeting cb2 now2 st1 meeting_id u2 t2 maxr2) in
  let e1 := mkEntry (t1 + timedelta_minutes 1) meeting_id u1 0 in
  let e2 := mkEntry (t2 + timedelta_minutes 1) meeting_id u2 0 in
  (exists m, _meetings st2 !! meeting_id = Some m
             /\ scheduled_time m = t2 + timedelta_minutes 1
             /\ url m = u2
             /\ retry_count m = 0)
  /\ Permutation (_queue st2) (e1 :: e2 :: _queue st)
  /\ honored st2 e1 = true
  /\ honored st2 e2 = true
  /\ (forall tk rest,
        _queue st2 = e1 :: rest ->
        t1 + timedelta_minutes 1 <= tick_now tk ->
        join_calls (tick st2 tk) = join_calls st ++ [(meeting_id, u2)])
  /\ (forall tk,
        t1 <= t2 ->
        Forall (fun e => t1 + timedelta_minutes 1 < next_time e)
          (_queue st) ->
        t1 + timedelta_minutes 1 <= tick_now tk ->
        join_calls (tick st2 tk) = join_calls st ++ [(meeting_id, u2)]).
Proof.
  intros H1 H2. cbv zeta.
  destruct (schedule_meeting_cases cb1 now1 st meeting_id u1 t1 maxr1)
    as [_ Hfut1].
  destruct (Hfut1 H1) as (_ & Hc1 & Hq1 & Hms1).
  set (st1 := snd (schedule_meeting cb1 now1 st meeting_id u1 t1 maxr1)) in *.
  destruct (schedule_meeting_cases cb2 now2 st1 meeting_id u2 t2 maxr2)
    as [_ Hfut2].
  destruct (Hfut2 H2) as (_ & Hc2 & Hq2 & Hms2).
  set (st2 := snd (schedule_meeting cb2 now2 st1 meeting_id u2 t2 maxr2)) in *.
  rewrite Hq1 in Hq2.
  set (e1 := mkEntry (t1 + timedelta_minutes 1) meeting_id u1 0) in *.
  set (e2 := mkEntry (t2 + timedelta_minutes 1) meeting_id u2 0) in *.
  set (m2 := mkMeeting (t2 + timedelta_minutes 1) u2 0 maxr2
               (t2 + timedelta_minutes 1 - now2 <=? timedelta_minutes 15)) in *.
  assert (_meetings st2 !! meeting_id = Some m2) as Hm2.
  { rewrite Hms2. apply lookup_insert_eq. }
  assert (forall tk e rest,
            _queue st2 = e :: rest -> entry_id e = meeting_id ->
            entry_retry e = 0 -> next_time e <= tick_now tk ->
            join_calls (tick st2 tk) = join_calls st ++ [(meeting_id, u2)])
    as Hjoin.
  { intros tk e rest Hq Hid Hretry Htime. unfold tick.
    rewrite (process_honored _ _ _ st2 e rest m2); try done.
    - rewrite _join_meeting_calls. simpl. by rewrite Hid, Hc2, Hc1.
    - by rewrite Hid. }
  split; [by exists m2|]. split.
  { rewrite Hq2, !heappush_perm. apply perm_swap. }
  split; [by unfold honored; simpl; rewrite Hm2|].
  split; [by unfold honored; simpl; rewrite Hm2|]. split.
  - intros tk rest Hq Hdue. by apply (Hjoin tk e1 rest).
  - intros tk Hle Hlater Hdue.
    rewrite (heappush_earliest (_queue st) e1) in Hq2 by done.
    simpl in Hq2. destruct (entry_compare e2 e1) eqn:Hcmp.
    + apply (Hjoin tk e2 (e1 :: _queue st)); try done.
      assert (next_time e2 <= next_time e1) as Hc
        by (apply entry_compare_time; congruence).
      simpl in *. lia.
    + apply (Hjoin tk e2 (e1 :: _queue st)); try done.
      assert (next_time e2 <= next_time e1) as Hc
        by (apply entry_compare_time; congruence).
      simpl in *. lia.
    + by apply (Hjoin tk e1 (heappush (_queue st) e2)).
Qed.

(** Another meeting waits in the heap; the meeting is scheduled for 0:00
    and again, with a new URL, for an hour later. *)
Lemma schedule_again_joins_at_first_time_witness :
  let cb : callback := fun _ _ => Returns true in
  let other := mkEntry 7200000000 2 "other" 0 in
  let st :=
    mkState [other] {[ 2 := mkMeeting 7200000000 "other" 0 5 false ]} [] in
  let st1 := snd (schedule_meeting cb 0 st 1 "old" 0 5) in
  let st2 := snd (schedule_meeting cb 0 st1 1 "new" 3600000000 5) in
  Permutation (_queue st2)
    [mkEntry (0 + timedelta_minutes 1) 1 "old" 0;
     mkEntry (3600000000 + timedelta_minutes 1) 1 "new" 0; other]
  /\ join_calls (tick st2 (mkTick cb 60000000 60000000)) =
       [] ++ [(1, "new"%string)].
Proof.
  intros cb other st st1 st2.
  destruct (schedule_again_joins_at_first_time cb cb 0 0 st 1 "old" "new"
              0 3600000000 5 5) as (_ & Hperm & _ & _ & _ & Hnext).
  - unfold timedelta_minutes. lia.
  - unfold timedelta_minutes. lia.
  - split; [exact Hperm|]. apply Hnext.
    + lia.
    + by repeat constructor.
    + unfold timedelta_minutes. simpl. lia.
Defined.

(** ** Promotion *)

Lemma promoted_absorbs (now1 now2 : Z) (m : Meeting) :
  now1 <= now2 -> promoted now2 (promoted now1 m) = promoted now2 m.
Proof.
  intros Hle. unfold promoted. simpl. f_equal.
  destruct (is_urgent m); [done|]. simpl.
  destruct (Z.leb_spec (scheduled_time m - now1) (timedelta_minutes 15));
    [|done].
  simpl. symmetry. apply Z.leb_le. lia.
Qed.

(** X7: a later urgency check absorbs an earlier one.  Running
    [check_for_urgent_meetings] at [now1] and then at [now2 >= now1] leaves
    the very state that the check at [now2] alone leaves; in particular the
    check is idempotent. *)
Theorem check_for_urgent_meetings_absorbs (now1 now2 : Z) (st : State) :
  now1 <= now2 ->
  check_for_urgent_meetings now2 (check_for_urgent_meetings now1 st) =
    check_for_urgent_meetings now2 st.
Proof.
  intros Hle.
  assert (forall a b : State,
            _queue a = _queue b -> _meetings a = _meetings b ->
            join_calls a = join_calls b -> a = b) as Hext.
  { intros [q1 m1 c1] [q2 m2 c2]; simpl. by intros -> -> ->. }
  apply Hext; [done| |done].
  apply map_eq. intros id.
  rewrite !check_for_urgent_meetings_lookup.
  destruct (_meetings st !! id) as [m|]; [|done]. simpl.
  by rewrite promoted_absorbs.
Qed.

Lemma check_for_urgent_meetings_absorbs_witness :
  let st :=
    mkState [] {[ 1 := mkMeeting 1000000000 "u" 0 5 false;
                  2 := mkMeeting 2000000000 "v" 0 5 false ]} [] in
  check_for_urgent_meetings 200000000 (check_for_urgent_meetings 100000000 st)
  = check_for_urgent_meetings 200000000 st.
Proof.
  apply check_for_urgent_meetings_absorbs. lia.
Defined.

End QueueLifecycleProofs.

Module DatabaseProofs.
Import Database.

(** What the execution that ends the loop comes to. *)
Definition result_of {A} (a : attempt A) : result A :=
  match a with
  | Done v => Returned (Some v)
  | Fails e => Raised e
  end.

Definition backoffs_from (d : float) (first : nat) (k : nat) : list float :=
  map (fun i => backoff d (Z.of_nat i)) (seq first k).

(** The loop when the execution [done_ + k] is the first that does not
    find the database locked. *)
Lemma retry_loop_settled {A} (operation : nat -> attempt A) (n : Z)
    (d : float) (k : nat) :
  forall (todo done_ : nat) (slept : list float),
    (k < todo)%nat ->
    Z.of_nat (done_ + todo) = n ->
    (forall j, (done_ <= j < done_ + k)%nat ->
               operation j = Fails DatabaseLocked) ->
    operation (done_ + k)%nat <> Fails DatabaseLocked ->
    retry_loop operation n d (Z.of_nat done_) todo done_ slept =
      mkRun (result_of (operation (done_ + k)%nat)) (S (done_ + k))
        (slept ++ backoffs_from d done_ k).
Proof.
  induction k as [|k IH]; intros todo done_ slept Hlt Hn Hlocked Hk;
    (destruct todo as [|todo]; [lia|]); simpl retry_loop.
  - rewrite Nat.add_0_r in *. unfold backoffs_from. simpl.
    rewrite app_nil_r.
    destruct (operation done_) as [v|[|]]; done.
  - rewrite Hlocked by lia.
    destruct (Z.ltb_spec (Z.of_nat done_) (n - 1)) as [_|Hge]; [|lia].
    replace (Z.of_nat done_ + 1) with (Z.of_nat (S done_)) by lia.
    rewrite (IH todo (S done_)).
    + replace (S done_ + k)%nat with (done_ + S k)%nat by lia.
      unfold backoffs_from. simpl. by rewrite <- app_assoc.
    + lia.
    + lia.
    + intros j Hj. apply Hlocked. lia.
    + by replace (S done_ + k)%nat with (done_ + S k)%nat by lia.
Qed.

(** The loop when every execution finds the database locked. *)
Lemma retry_loop_locked {A} (operation : nat -> attempt A) (n : Z)
    (d : float) :
  forall (todo done_ : nat) (slept : list float),
    (0 < todo)%nat ->
    Z.of_nat (done_ + todo) = n ->
    (forall j, (done_ <= j < done_ + todo)%nat ->
               operation j = Fails DatabaseLocked) ->
    retry_loop operation n d (Z.of_nat done_) todo done_ slept =
      mkRun (Raised DatabaseLocked) (done_ + todo)
        (slept ++ backoffs_from d done_ (todo - 1)).
Proof.
  induction todo as [|todo IH]; intros done_ slept Hpos Hn Hlocked; [lia|].
  simpl retry_loop. rewrite Hlocked by lia.
  destruct (Z.ltb_spec (Z.of_nat done_) (n - 1)) as [Hlt|Hge].
  - replace (Z.of_nat done_ + 1) with (Z.of_nat (S done_)) by lia.
    rewrite IH; [|lia|lia|intros j Hj; apply Hlocked; lia].
    replace (S done_ + todo)%nat with (done_ + S todo)%nat by lia.
    destruct todo as [|todo]; [lia|].
    replace (S todo - 1)%nat with todo by lia.
    replace (S (S todo) - 1)%nat with (S todo) by lia.
    unfold backoffs_from. simpl. by rewrite <- app_assoc.
  - assert (todo = 0%nat) as -> by lia.
    unfold backoffs_from. simpl. by rewrite app_nil_r, Nat.add_1_r.
Qed.

(** The loop never sleeps after its last execution. *)
Lemma retry_loop_bounds {A} (operation : nat -> attempt A) (n : Z)
    (d : float) :
  forall (todo done_ : nat) (slept : list float),
    Z.of_nat (done_ + todo) = n ->
    let r := retry_loop operation n d (Z.of_nat done_) todo done_ slept in
    (executions r <= done_ + todo)%nat
    /\ ((0 < todo)%nat ->
        (length (sleeps r) + S done_ = length slept + executions r)%nat).
Proof.
  induction todo as [|todo IH]; intros done_ slept Hn; simpl.
  - split; lia.
  - destruct (operation done_) as [v|[|]]; simpl; [split; lia| |split; lia].
    destruct (Z.ltb_spec (Z.of_nat done_) (n - 1)) as [Hlt|Hge]; simpl;
      [|split; lia].
    replace (Z.of_nat done_ + 1) with (Z.of_nat (S done_)) by lia.
    destruct (IH (S done_) (slept ++ [backoff d (Z.of_nat done_)]))
      as [H1 H2]; [lia|].
    split; [lia|]. intros _.
    destruct todo as [|todo]; [lia|].
    specialize (H2 ltac:(lia)). rewrite length_app in H2.
    cbn [length] in H2. lia.
Qed.

(** X8: the retry loop of the database manager.  With [_max_retries <= 0]
    the operation is not executed at all and the call returns [None].
    Otherwise the executions go on for as long as the database is found
    locked: the first execution that does not find it locked, if it is one
    of the first [_max_retries], decides the call (its value is returned,
    its exception raised again), after one sleep of
    [_retry_delay * 2 ** i] for each earlier execution [i]; and when all
    [_max_retries] executions find the database locked, the last lock error
    is raised, with no sleep after it.  In every case the operation is
    executed at most [_max_retries] times and the loop sleeps once between
    two executions, never after the last. *)
Theorem execute_with_retry_spec {A} (operation : nat -> attempt A)
    (_max_retries : Z) (_retry_delay : float) :
  let r := _execute_with_retry operation _max_retries _retry_delay in
  (_max_retries <= 0 -> r = mkRun (Returned None) 0 [])
  /\ (forall k,
        Z.of_nat k < _max_retries ->
        locked_until operation k ->
        operation k <> Fails DatabaseLocked ->
        r = mkRun
              match operation k with
              | Done v => Returned (Some v)
              | Fails e => Raised e
              end (S k) (backoffs _retry_delay k))
  /\ (0 < _max_retries ->
      locked_until operation (Z.to_nat _max_retries) ->
      r = mkRun (Raised DatabaseLocked) (Z.to_nat _max_retries)
            (backoffs _retry_delay (Z.to_nat _max_retries - 1)))
  /\ (executions r <= Z.to_nat _max_retries)%nat
  /\ length (sleeps r) = (executions r - 1)%nat.
Proof.
  simpl. unfold _execute_with_retry. split; [|split; [|split; [|split]]].
  - intros Hle. by replace (Z.to_nat _max_retries) with 0%nat by lia.
  - intros k Hk Hlocked Hsettled.
    pose proof (retry_loop_settled operation _max_retries _retry_delay k
                  (Z.to_nat _max_retries) 0 []) as H.
    etrans; [apply H; [lia|lia| |done]|done].
    intros j Hj. apply Hlocked. lia.
  - intros Hpos Hlocked.
    pose proof (retry_loop_locked operation _max_retries _retry_delay
                  (Z.to_nat _max_retries) 0 []) as H.
    etrans; [apply H; [lia|lia|]|done].
    intros j Hj. apply Hlocked. lia.
  - destruct (Z.le_gt_cases _max_retries 0) as [Hle|Hpos].
    { replace (Z.to_nat _max_retries) with 0%nat by lia. simpl. lia. }
    pose proof (retry_loop_bounds operation _max_retries _retry_delay
                  (Z.to_nat _max_retries) 0 []) as H.
    apply H. lia.
  - destruct (Z.le_gt_cases _max_retries 0) as [Hle|Hpos].
    { by replace (Z.to_nat _max_retries) with 0%nat by lia. }
    pose proof (retry_loop_bounds operation _max_retries _retry_delay
                  (Z.to_nat _max_retries) 0 []) as H.
    destruct H as [_ H]; [lia|].
    specialize (H ltac:(lia)). change (Z.of_nat 0) with 0 in H.
    change (length (@nil float)) with 0%nat in H. lia.
Qed.

(** The database manager as [__init__] sets it up: a database that stays
    locked is asked five times, with 0.1, 0.2, 0.4 and 0.8 seconds of sleep
    in between, and one that is free at the third execution after two
    sleeps. *)
Example execute_with_retry_backoff :
  _execute_with_retry (fun _ => @Fails unit DatabaseLocked)
    default_max_retries default_retry_delay =
    mkRun (Raised DatabaseLocked) 5
      [0x1.999999999999ap-4; 0x1.999999999999ap-3; 0x1.999999999999ap-2;
       0x1.999999999999ap-1]%float
  /\ _execute_with_retry
       (fun k => if (k <? 2)%nat then Fails DatabaseLocked else Done true)
       default_max_retries default_retry_delay =
     mkRun (Returned (Some true)) 3
       [0x1.999999999999ap-4; 0x1.999999999999ap-3]%float.
Proof. split; vm_compute; reflexivity. Qed.

End DatabaseProofs.

Module PollingProofs.
Import Polling.

(** The loop after [c] answers, none of them [COMPLETED]. *)
Definition waiting (c : nat) : Loop :=
  mkLoop false (Z.of_nat c) c (10 * Z.of_nat c).

Lemma poll_step_pending (answers : nat -> poll) (c : nat) :
  answers c <> Completed -> poll_step answers (waiting c) = waiting (S c).
Proof.
  intros Hc. unfold poll_step, waiting. simpl.
  destruct (answers c); [done|..]; f_equal; lia.
Qed.

Lemma poll_loop_completed (answers : nat -> poll) (n : nat) :
  forall (c fuel : nat),
    (c + n < 30)%nat -> (n < fuel)%nat ->
    (forall j, (c <= j < c + n)%nat -> answers j <> Completed) ->
    answers (c + n)%nat = Completed ->
    poll_loop answers fuel (waiting c) =
      Some (mkLoop true (Z.of_nat (c + n)) (S (c + n))
              (10 * Z.of_nat (c + n))).
Proof.
  induction n as [|n IH]; intros c fuel Hlt Hfuel Hpending Hdone;
    (destruct fuel as [|fuel]; [lia|]); simpl.
  - rewrite Nat.add_0_r in *.
    destruct (Z.ltb_spec (Z.of_nat c) max_retries) as [_|Hge];
      [|unfold max_retries in Hge; lia].
    simpl. unfold poll_step. simpl. rewrite Hdone.
    by destruct fuel.
  - destruct (Z.ltb_spec (Z.of_nat c) max_retries) as [_|Hge];
      [|unfold max_retries in Hge; lia].
    simpl. rewrite poll_step_pending by (apply Hpending; lia).
    rewrite (IH (S c)).
    + by replace (S c + n)%nat with (c + S n)%nat by lia.
    + lia.
    + lia.
    + intros j Hj. apply Hpending. lia.
    + by replace (S c + n)%nat with (c + S n)%nat by lia.
Qed.

Lemma poll_loop_timed_out (answers : nat -> poll) (n : nat) :
  forall (c fuel : nat),
    (c + n = 30)%nat -> (n <= fuel)%nat ->
    (forall j, (c <= j < 30)%nat -> answers j <> Completed) ->
    poll_loop answers fuel (waiting c) = Some (waiting 30).
Proof.
  induction n as [|n IH]; intros c fuel Hc Hfuel Hpending.
  - assert (c = 30%nat) as -> by lia. by destruct fuel.
  - destruct fuel as [|fuel]; [lia|]. simpl.
    destruct (Z.ltb_spec (Z.of_nat c) max_retries) as [_|Hge];
      [|unfold max_retries in Hge; lia].
    simpl. rewrite poll_step_pending by (apply Hpending; lia).
    apply IH; [lia|lia|]. intros j Hj. apply Hpending. lia.
Qed.

(** X9: the polling loop of [process_recording] ends, after at most 30
    requests.  It ends with [job_complete] exactly when one of the first 30
    answers is [COMPLETED]: at the first such answer, number [k], after
    [k + 1] requests and [10 * k] seconds of sleep.  Any other answer, a
    [FAILED] status and a failed request included, counts as one retry: a
    job that never reports [COMPLETED] is asked 30 times, over 300 seconds,
    and the loop is left with [job_complete] false (the time-out of the
    source). *)
Theorem wait_for_job_spec (answers : nat -> poll) (fuel : nat) :
  (30 <= fuel)%nat ->
  (forall k,
     (k < 30)%nat -> pending_until answers k -> answers k = Completed ->
     wait_for_job answers fuel =
       Some (mkLoop true (Z.of_nat k) (S k) (10 * Z.of_nat k)))
  /\ (pending_until answers 30 ->
      wait_for_job answers fuel = Some (mkLoop false 30 30 300))
  /\ exists l,
       wait_for_job answers fuel = Some l
       /\ (polls l <= 30)%nat
       /\ (job_complete l = true <->
           exists k, (k < 30)%nat /\ answers k = Completed).
Proof.
  intros Hfuel.
  assert (forall k,
     (k < 30)%nat -> pending_until answers k -> answers k = Completed ->
     wait_for_job answers fuel =
       Some (mkLoop true (Z.of_nat k) (S k) (10 * Z.of_nat k))) as Hdone.
  { intros k Hk Hpending Hcompleted.
    apply (poll_loop_completed answers k 0 fuel); [lia|lia| |done].
    intros j Hj. apply Hpending. lia. }
  assert (pending_until answers 30 ->
      wait_for_job answers fuel = Some (mkLoop false 30 30 300)) as Hout.
  { intros Hpending.
    apply (poll_loop_timed_out answers 30 0 fuel); [lia|lia|].
    intros j Hj. apply Hpending. lia. }
  split; [exact Hdone|]. split; [exact Hout|].
  (* the first [COMPLETED] among the first thirty answers, if any *)
  assert (forall n, (n <= 30)%nat ->
            pending_until answers n
            \/ exists k, (k < n)%nat /\ pending_until answers k
                         /\ answers k = Completed) as Hfirst.
  { induction n as [|n IH]; intros Hn.
    - left. intros j Hj. lia.
    - destruct (IH ltac:(lia)) as [Hp|(k & Hk & Hp & Hc)].
      + destruct (answers n) eqn:Han.
        * right. exists n. split; [lia|]. done.
        * left. intros j Hj. destruct (decide (j = n)) as [->|Hne];
            [congruence|apply Hp; lia].
        * left. intros j Hj. destruct (decide (j = n)) as [->|Hne];
            [congruence|apply Hp; lia].
        * left. intros j Hj. destruct (decide (j = n)) as [->|Hne];
            [congruence|apply Hp; lia].
      + right. exists k. split; [lia|done]. }
  destruct (Hfirst 30%nat ltac:(lia)) as [Hp|(k & Hk & Hp & Hc)].
  - eexists. split; [by apply Hout|]. simpl. split; [lia|].
    split; [done|]. intros (k & Hk & Hc). by apply Hp in Hc.
  - eexists. split; [by apply Hdone|]. simpl. split; [lia|].
    split; [|done]. intros _. by exists k.
Qed.

Lemma wait_for_job_spec_witness :
  let failed : nat -> poll := fun _ => Failed in
  let late : nat -> poll :=
    fun k => if (k <? 2)%nat then Error else Completed in
  wait_for_job late 30 = Some (mkLoop true 2 3 20)
  /\ wait_for_job failed 30 = Some (mkLoop false 30 30 300).
Proof.
  split.
  - destruct (wait_for_job_spec
                (fun k => if (k <? 2)%nat then Error else Completed) 30)
      as (H & _); [lia|].
    apply (H 2%nat); [lia| |reflexivity].
    intros j Hj. destruct j as [|[|j]]; [discriminate|discriminate|lia].
  - destruct (wait_for_job_spec (fun _ => Failed) 30) as (_ & H & _); [lia|].
    apply H. intros j Hj. discriminate.
Defined.

End PollingProofs.

Module SchedulerProofs.
Import MeetingQueue QueueSpec QueueProofs Scheduler.

Lemma skipn_all_app {A} (l l' : list A) : skipn (length l) (l ++ l') = l'.
Proof. induction l as [|x l IH]; simpl; [done|exact IH]. Qed.

Lemma effects_since_none (w : World) (st st' : State) :
  join_calls st' = join_calls st -> effects_since w st st' = [].
Proof.
  intros Heq. unfold effects_since. rewrite Heq.
  rewrite <- (app_nil_r (join_calls st)) at 2. by rewrite skipn_all_app.
Qed.

Lemma effects_since_one (w : World) (st st' : State) (meeting_id : Z)
    (u : string) :
  join_calls st' = join_calls st ++ [(meeting_id, u)] ->
  effects_since w st st' = snd (join_meeting_now w meeting_id u).
Proof.
  intros Heq. unfold effects_since. rewrite Heq, skipn_all_app. simpl.
  by rewrite app_nil_r.
Qed.

(** X10: [ZoomBotScheduler.schedule_meeting] over the queue.  A meeting
    whose time is not after the scheduler's clock reading is handed to
    [join_meeting_now] and the queue is not touched; the answer is [True]
    exactly when the status [joining] is written and the thread is started.
    A meeting in the future, the queue reading the clock at most a minute
    after the scheduler, is queued for one minute after its time, with 5
    retries, and no join is started; the answer is [True] exactly when the
    status [scheduled] is written, so that a failing database leaves the
    meeting queued although [False] is returned.  When the queue finds the
    meeting more than a minute past (the clock has moved on in between), it
    invokes [join_meeting_now] itself, stores nothing, and a successful
    join is followed by the status [scheduled]. *)
Theorem scheduler_schedule_meeting (w : World) (now now_queue : Z)
    (st : State) (meeting_id : Z) (u : string) (t : Z) :
  let r := Scheduler.schedule_meeting w now now_queue st meeting_id u t in
  let due := t + timedelta_minutes 1 in
  (t <= now ->
     r = (joining_written w && thread_started w, st,
          snd (join_meeting_now w meeting_id u)))
  /\ (now < t -> now_queue <= now + timedelta_minutes 1 ->
      r.1.1 = scheduled_written w
      /\ r.2 = (if scheduled_written w
                then [StatusWritten meeting_id "scheduled"] else [])
      /\ _queue r.1.2 = heappush (_queue st) (mkEntry due meeting_id u 0)
      /\ _meetings r.1.2 =
           <[meeting_id :=
               mkMeeting due u 0 5 (due - now_queue <=? timedelta_minutes 15)]>
             (delete meeting_id (_meetings st))
      /\ join_calls r.1.2 = join_calls st)
  /\ (now < t -> due < now_queue ->
      let joined := joining_written w && thread_started w in
      r.1.1 = joined && scheduled_written w
      /\ r.2 = snd (join_meeting_now w meeting_id u)
               ++ (if joined && scheduled_written w
                   then [StatusWritten meeting_id "scheduled"] else [])
      /\ _queue r.1.2 = _queue st
      /\ _meetings r.1.2 = delete meeting_id (_meetings st)
      /\ join_calls r.1.2 = join_calls st ++ [(meeting_id, u)]).
Proof.
  simpl. unfold Scheduler.schedule_meeting.
  pose proof (schedule_meeting_cases (join_callback w) now_queue st
                meeting_id u t 5) as [Hpast Hfut].
  simpl in Hpast, Hfut.
  split; [|split].
  - intros Hle. destruct (Z.leb_spec (t - now) 0) as [_|Hgt]; [|lia].
    unfold join_meeting_now.
    by destruct (joining_written w), (thread_started w).
  - intros Hlt Hclock. destruct (Z.leb_spec (t - now) 0) as [Hle|_]; [lia|].
    destruct Hfut as (Hr & Hcalls & Hq & Hms);
      [unfold timedelta_minutes in *; lia|].
    destruct (MeetingQueue.schedule_meeting (join_callback w) now_queue st
                meeting_id u t 5) as [success st'].
    simpl in *. subst success.
    rewrite (effects_since_none w st st' Hcalls).
    by destruct (scheduled_written w).
  - intros Hlt Hlate. destruct (Z.leb_spec (t - now) 0) as [Hle|_]; [lia|].
    destruct (Hpast Hlate) as (Hr & Hcalls & Hq & Hms).
    destruct (MeetingQueue.schedule_meeting (join_callback w) now_queue st
                meeting_id u t 5) as [success st'].
    simpl in *. subst success.
    rewrite (effects_since_one w st st' meeting_id u Hcalls).
    unfold join_callback, join_meeting_now.
    destruct (joining_written w), (thread_started w), (scheduled_written w);
      simpl; rewrite ?app_nil_r; done.
Qed.

End SchedulerProofs.

Module AnalyticsEdgesProofs.
Import Analytics AnalyticsSpec AnalyticsEdges AnalyticsProofs.

Local Open Scope string_scope.
Local Open Scope list_scope.
Local Open Scope Z_scope.

(** ** Timestamps *)

Lemma split_length (sep : ascii) (s : string) :
  length (split sep s) = S (count_char sep s).
Proof.
  induction s as [|a s IH]; simpl; [done|].
  destruct (Ascii.eqb a sep); simpl; [by rewrite IH|].
  destruct (split sep s) as [|w ws]; simpl in *; [lia|exact IH].
Qed.

Lemma split_no_sep (sep : ascii) (s : string) :
  count_char sep s = 0%nat -> split sep s = [s].
Proof.
  induction s as [|a s IH]; simpl; [done|].
  destruct (Ascii.eqb a sep); [done|]. intros H. by rewrite IH.
Qed.

Lemma split_at (sep : ascii) (a b : string) :
  count_char sep a = 0%nat ->
  split sep (a ++ String sep b)%string = a :: split sep b.
Proof.
  induction a as [|x a IH]; simpl.
  - intros _. by rewrite Ascii.eqb_refl.
  - destruct (Ascii.eqb x sep); [done|]. intros H. by rewrite IH.
Qed.

(** X12: how a timestamp is read.  A timestamp that does not have exactly
    one colon reads as 0 seconds (the unpacking of [split(':')] raises and
    the bare [except] answers 0): this is so for a time with hours.  With
    exactly one colon it reads as minutes times 60 plus seconds when both
    parts are integers for [int], and as 0 otherwise. *)
Theorem seconds_of_timestamp_spec (ts : string) :
  (count_char ":" ts <> 1%nat -> seconds_of_timestamp ts = 0)
  /\ (forall minutes seconds,
        ts = (minutes ++ String ":" seconds)%string ->
        count_char ":" minutes = 0%nat -> count_char ":" seconds = 0%nat ->
        seconds_of_timestamp ts =
          match py_int minutes, py_int seconds with
          | Some m, Some s => m * 60 + s
          | _, _ => 0
          end).
Proof.
  split.
  - intros Hcount. unfold seconds_of_timestamp.
    pose proof (split_length ":" ts) as Hlen.
    destruct (split ":" ts) as [|a [|b [|c l]]]; try done.
    simpl in Hlen. lia.
  - intros minutes seconds -> Hm Hs. unfold seconds_of_timestamp.
    by rewrite split_at, (split_no_sep _ seconds).
Qed.

(** A time with hours is no time: it reads as 0, as does a time without a
    colon; minutes above 59 are fine. *)
Example seconds_of_timestamp_hours :
  seconds_of_timestamp "01:02:03" = 0
  /\ seconds_of_timestamp "62:03" = 3723
  /\ seconds_of_timestamp "75" = 0
  /\ seconds_of_timestamp "1:30.5" = 0.
Proof. repeat split; vm_compute; reflexivity. Qed.

(** ** Windows without room *)

Lemma int_float_between (a b : Z) (f : float) :
  int_le_float a f = true -> float_lt_int f b = true -> a < b.
Proof.
  unfold int_le_float, float_lt_int, int_compare_SF.
  destruct (Prim2SF f) as [s|s| |s m e]; try done.
  - destruct (Z.compare_spec a 0), (Z.compare_spec b 0); try done; lia.
  - by destruct s.
  - set (v := if s then Z.neg m else Z.pos m).
    destruct (Z.leb_spec 0 e) as [Hle|Hlt].
    + destruct (Z.compare_spec a (v * 2 ^ e)),
        (Z.compare_spec b (v * 2 ^ e)); try done; lia.
    + assert (0 < 2 ^ (- e)) by (apply Z.pow_pos_nonneg; lia).
      destruct (Z.compare_spec (a * 2 ^ (- e)) v),
        (Z.compare_spec (b * 2 ^ (- e)) v); try done; nia.
Qed.

Lemma answers_no_room (segments : list Segment) (q : Question) (z : Z) :
  z <= time_seconds q -> answers segments q (Finite z) = [].
Proof.
  intros Hle. unfold answers.
  induction segments as [|s segments IH]; simpl; [done|].
  destruct (in_window (time_seconds q) (Finite z) s) eqn:Hin; [|exact IH].
  unfold in_window in Hin. apply andb_true_iff in Hin as [H1 H2].
  simpl in H2. pose proof (int_float_between _ _ _ H1 H2). lia.
Qed.

Lemma pair_of_no_room (segments : list Segment) (w : Question * bound) :
  has_room w = false -> pair_of segments w = None.
Proof.
  destruct w as [q [z|]]; unfold has_room; simpl; [|done].
  intros Hroom. apply Z.ltb_ge in Hroom.
  by rewrite answers_no_room.
Qed.

Lemma omap_filter_room (segments : list Segment)
    (ws : list (Question * bound)) :
  omap (pair_of segments) ws =
    omap (pair_of segments) (List.filter has_room ws).
Proof.
  induction ws as [|w ws IH]; [done|]. cbn [omap list_omap List.filter].
  destruct (has_room w) eqn:Hroom; cbn [omap list_omap].
  - by rewrite IH.
  - by rewrite pair_of_no_room, IH.
Qed.

Lemma omap_length_le {A B} (f : A -> option B) (l : list A) :
  (length (omap f l) <= length l)%nat.
Proof.
  induction l as [|x l IH]; [done|]. cbn [omap list_omap length].
  fold (omap f l). destruct (f x); cbn [length]; lia.
Qed.

Lemma filter_length_le {A} (f : A -> bool) (l : list A) :
  (length (List.filter f l) <= length l)%nat.
Proof.
  induction l as [|x l IH]; simpl; [lia|]. destruct (f x); simpl; lia.
Qed.

Lemma windows_length (qs : list Question) :
  length (windows qs) = length qs.
Proof. induction qs as [|q qs IH]; simpl; [done|by rewrite IH]. Qed.

Lemma answers_nil (q : Question) (end_time : bound) :
  answers [] q end_time = [].
Proof. done. Qed.

Lemma omap_pair_of_nil (ws : list (Question * bound)) :
  omap (pair_of []) ws = [].
Proof.
  induction ws as [|[q e] ws IH]; [done|]. cbn [omap list_omap].
  by rewrite IH.
Qed.

Lemma contains_char (c a : ascii) (s : string) :
  contains (String c EmptyString) (String a s) =
    Ascii.eqb c a || contains (String c EmptyString) s.
Proof.
  change (contains (String c EmptyString) (String a s)) with
    (match drop_prefix (String c EmptyString) (String a s) with
     | Some _ => true
     | None => contains (String c EmptyString) s
     end).
  simpl. by destruct (Ascii.eqb c a).
Qed.

(** No line of a text without bar has a bar. *)
Lemma split_newline_no_bar (s : string) :
  contains "|" s = false ->
  Forall (fun line => contains "|" line = false) (split newline s).
Proof.
  induction s as [|a s IH].
  - intros _. by constructor.
  - rewrite contains_char. intros [Hbar Hs]%orb_false_iff.
    specialize (IH Hs). cbn [split].
    destruct (Ascii.eqb a newline).
    + by constructor.
    + destruct (split newline s) as [|w ws].
      * constructor; [|done]. by rewrite contains_char, Hbar.
      * apply Forall_cons in IH as [Hw Hws].
        constructor; [|done]. by rewrite contains_char, Hbar.
Qed.

Lemma questions_fold_none (lines : list (nat * string))
    (acc : list Question) :
  Forall (fun il => contains "|" (snd il) = false) lines ->
  fold_left
    (fun questions '(i, line) =>
       match question_of_line i line with
       | Some q => questions ++ [q]
       | None => questions
       end) lines acc = acc.
Proof.
  revert acc. induction lines as [|[i line] lines IH]; intros acc Hall;
    [done|].
  apply Forall_cons in Hall as [Hline Hall]. simpl in Hline.
  cbn [fold_left]. unfold question_of_line at 2. rewrite Hline. simpl.
  by apply IH.
Qed.

Lemma Forall_combine_snd {A B} (P : B -> Prop) (l1 : list A) (l2 : list B) :
  Forall P l2 -> Forall (fun ab => P (snd ab)) (combine l1 l2).
Proof.
  revert l1. induction l2 as [|b l2 IH]; intros l1 Hall.
  - destruct l1; constructor.
  - apply Forall_cons in Hall as [Hb Hall].
    destruct l1 as [|a l1]; [constructor|].
    simpl. constructor; [done|by apply IH].
Qed.

(** X13: the edges of the pairing.  A question whose successor among the
    relevant questions is not later than itself has an empty window,
    whatever the segments: [start_time <= seg_start < end_time] has no
    solution.  So the pairs come from the windows with room only, and there
    are at most as many pairs as such windows, and as relevant questions.
    Without segments there is no pair, and a transcript without any bar
    character has no question and gives no pair. *)
Theorem filter_relevant_questions_edges (segments : list Segment)
    (full_transcript : string) :
  let relevant := relevant_questions_of (questions_of full_transcript) in
  let pairs := _filter_relevant_questions segments full_transcript in
  pairs = omap (pair_of segments) (List.filter has_room (windows relevant))
  /\ (length pairs <= length (List.filter has_room (windows relevant))
      <= length relevant)%nat
  /\ (forall q z, z <= time_seconds q ->
                  answers segments q (Finite z) = [])
  /\ (segments = [] -> pairs = [])
  /\ (contains "|" full_transcript = false -> pairs = []).
Proof.
  simpl. unfold _filter_relevant_questions.
  rewrite qa_pairs_of_windows.
  split; [apply omap_filter_room|]. split; [|split; [|split]].
  - rewrite omap_filter_room. split; [apply omap_length_le|].
    rewrite <- (windows_length (relevant_questions_of _)).
    apply filter_length_le.
  - intros q z. apply answers_no_room.
  - intros ->. apply omap_pair_of_nil.
  - intros Hbar. unfold questions_of.
    rewrite questions_fold_none; [done|].
    apply (Forall_combine_snd (fun line => contains "|" line = false)).
    by apply split_newline_no_bar.
Qed.

End AnalyticsEdgesProofs.

Module CapturesProofs.
Import Analytics AnalyticsSpec Captures AnalyticsProofs.

Local Open Scope string_scope.
Local Open Scope list_scope.
Local Arguments String.append : simpl nomatch.

(** ** The matcher finds matches only *)

Lemma rmatch_Star {R} (greedy : bool) (r : regex) (s : string) (c : captures)
    (k : string -> captures -> option R) :
  rmatch (Star greedy r) s c k =
    star_loop greedy r k (S (String.length s)) s c.
Proof. reflexivity. Qed.

Lemma rmatch_sound (r : regex) :
  forall (R : Type) (s : string) (c : captures)
         (k : string -> captures -> option R) (x : R),
    rmatch r s c k = Some x ->
    exists rest c', matches r s rest c c' /\ k rest c' = Some x.
Proof.
  induction r as [l|p|r1 IH1 r2 IH2|greedy r IH|n r IH]; intros R s c k x.
  - cbn [rmatch]. destruct (drop_prefix l s) as [rest|] eqn:Hl; [|done].
    intros Hk. exists rest, c. split; [by constructor|done].
  - cbn [rmatch]. destruct s as [|a rest]; [done|].
    destruct (p a) eqn:Hp; [|done].
    intros Hk. exists rest, c. split; [by constructor|done].
  - cbn [rmatch]. intros H1. apply IH1 in H1 as (mid & c1 & Hm1 & H2).
    apply IH2 in H2 as (rest & c2 & Hm2 & Hk).
    exists rest, c2. split; [by econstructor|done].
  - rewrite rmatch_Star. generalize (S (String.length s)). intros fuel.
    revert s c x.
    induction fuel as [|fuel IHf]; intros s c x; cbn [star_loop].
    + intros Hk. exists s, c. split; [constructor|done].
    + assert (forall y,
        rmatch r s c
          (fun s' c' =>
             if (String.length s' <? String.length s)%nat
             then star_loop greedy r k fuel s' c' else None) = Some y ->
        exists rest c', matches (Star greedy r) s rest c c'
                        /\ k rest c' = Some y) as Hmore.
      { intros y Hy. apply IH in Hy as (mid & c1 & Hm & Hloop).
        destruct (String.length mid <? String.length s)%nat; [|done].
        apply IHf in Hloop as (rest & c2 & Hstar & Hk).
        exists rest, c2. split; [by econstructor|done]. }
      destruct greedy.
      * destruct (rmatch r s c _) as [y|] eqn:Hy.
        -- intros [= <-]. by apply Hmore.
        -- intros Hk. exists s, c. split; [constructor|done].
      * destruct (k s c) as [y|] eqn:Hk.
        -- intros [= <-]. exists s, c. split; [constructor|done].
        -- apply Hmore.
  - cbn [rmatch]. intros H. apply IH in H as (rest & c1 & Hm & Hk).
    exists rest, ((n, consumed s rest) :: c1). split; [by constructor|done].
Qed.

(** ** What a match consumes *)

Lemma append_assoc (a b c : string) :
  ((a ++ b) ++ c)%string = (a ++ b ++ c)%string.
Proof.
  induction a as [|x a IH]; [done|]. exact (f_equal (String x) IH).
Qed.

Lemma drop_prefix_app (l s rest : string) :
  drop_prefix l s = Some rest -> s = (l ++ rest)%string.
Proof.
  revert s. induction l as [|a l IH]; intros s; simpl.
  - by intros [= ->].
  - destruct s as [|b s]; [done|].
    destruct (Ascii.eqb_spec a b) as [->|_]; [|done].
    intros H. by rewrite (IH _ H).
Qed.

Lemma matches_app (r : regex) (s rest : string) (c c' : captures) :
  matches r s rest c c' -> exists w, s = (w ++ rest)%string.
Proof.
  induction 1 as [l s rest c Hl|p a rest c Hp
                 |r1 r2 s mid rest c c1 c2 _ [w1 ->] _ [w2 ->]
                 |greedy r s c
                 |greedy r s mid rest c c1 c2 _ [w1 ->] _ [w2 ->]
                 |n r s rest c c1 _ IH].
  - exists l. by apply drop_prefix_app.
  - by exists (String a EmptyString).
  - exists (w1 ++ w2)%string. by rewrite append_assoc.
  - by exists EmptyString.
  - exists (w1 ++ w2)%string. by rewrite append_assoc.
  - exact IH.
Qed.

Lemma consumed_app (w rest : string) : consumed (w ++ rest)%string rest = w.
Proof.
  unfold consumed.
  assert (String.length (w ++ rest)%string - String.length rest
          = String.length w)%nat as ->.
  { assert (String.length (w ++ rest)%string
            = String.length w + String.length rest)%nat as ->; [|lia].
    induction w as [|a w IH]; simpl; [done|by rewrite IH]. }
  induction w as [|a w IH]; simpl.
  - by destruct rest.
  - by rewrite IH.
Qed.

Lemma matches_groupless (r : regex) (s rest : string) (c c' : captures) :
  matches r s rest c c' -> groupless r = true -> c' = c.
Proof.
  induction 1 as [| |r1 r2 s mid rest c c1 c2 _ IH1 _ IH2| 
                 |greedy r s mid rest c c1 c2 _ IH1 _ IH2|]; simpl;
    try done.
  - intros [H1 H2]%andb_true_iff. rewrite IH2, IH1; done.
  - intros Hr. rewrite IH2, IH1; done.
Qed.

(** A run of the characters of one class. *)
Lemma matches_Star_Class (greedy : bool) (p : ascii -> bool)
    (s rest : string) (c c' : captures) :
  matches (Star greedy (Class p)) s rest c c' ->
  exists w, s = (w ++ rest)%string /\ all_chars p w = true.
Proof.
  remember (Star greedy (Class p)) as r eqn:Hr. intros Hm.
  induction Hm as [| | |greedy' r' s c
                  |greedy' r' s mid rest c c1 c2 Hone _ Hmore IH|];
    try discriminate Hr.
  - by exists EmptyString.
  - injection Hr as -> ->. inversion Hone as [|p' a rest' c' Hp| | | |];
      subst.
    destruct (IH eq_refl) as (w & -> & Hw).
    exists (String a w). simpl. by rewrite Hp, Hw.
Qed.

Lemma matches_Plus_Class (p : ascii -> bool) (s rest : string)
    (c c' : captures) :
  matches (Plus (Class p)) s rest c c' ->
  exists w, w <> EmptyString /\ s = (w ++ rest)%string
            /\ all_chars p w = true.
Proof.
  unfold Plus. intros Hm.
  inversion Hm as [| |r1 r2 s0 mid rest0 c0 c1 c2 Hone Hmore| | |]; subst.
  inversion Hone as [|p' a rest' c0 Hp| | | |]; subst.
  apply matches_Star_Class in Hmore as (w & -> & Hw).
  exists (String a w). simpl. by rewrite Hp, Hw.
Qed.

(** The group of a run of one class: what it has captured. *)
Lemma matches_Group_Plus (n : nat) (p : ascii -> bool) (s rest : string)
    (c c' : captures) :
  matches (Group n (Plus (Class p))) s rest c c' ->
  exists w, c' = (n, w) :: c /\ w <> EmptyString /\ all_chars p w = true.
Proof.
  intros Hm. inversion Hm as [| | | | |n' r s0 rest0 c0 c1 Hin]; subst.
  pose proof (matches_groupless _ _ _ _ _ Hin eq_refl) as ->.
  apply matches_Plus_Class in Hin as (w & Hne & -> & Hw).
  exists w. by rewrite consumed_app.
Qed.

Ltac invert_Seq H :=
  let Hl := fresh "Hl" in
  let Hr := fresh "Hr" in
  inversion H as [| |? ? ? ? ? ? ? ? Hl Hr| | |]; subst; clear H.

Lemma matches_pattern (s rest : string) (c : captures) :
  matches pattern s rest [] c ->
  exists time_str emotions_str,
    c = [(2%nat, emotions_str); (1%nat, time_str)]
    /\ time_str <> EmptyString
    /\ all_chars digits_or_dot time_str = true.
Proof.
  unfold pattern. intros H.
  invert_Seq H. invert_Seq Hr. invert_Seq Hr0. invert_Seq Hr.
  invert_Seq Hr0. invert_Seq Hr. invert_Seq Hr0. invert_Seq Hr.
  invert_Seq Hr0.
  repeat match goal with
    | H : matches ?r _ _ ?c ?c' |- _ =>
        lazymatch r with
        | Group _ _ => fail
        | _ =>
            let E := fresh in
            assert (c' = c) as E
              by (apply (matches_groupless _ _ _ _ _ H); reflexivity);
            clear H; try subst c'; try subst c
        end
    end.
  apply matches_Group_Plus in Hl4 as (t & -> & Hne & Ht).
  inversion Hl7 as [| | | | |n' r s0 rest0 c0 c1 Hin]; subst.
  pose proof (matches_groupless _ _ _ _ _ Hin eq_refl) as ->.
  eauto.
Qed.

Lemma matches_emotion_pattern (s rest : string) (c : captures) :
  matches emotion_pattern s rest [] c ->
  exists nm score_str,
    c = [(2%nat, score_str); (1%nat, nm)]
    /\ nm <> EmptyString /\ all_chars not_quote nm = true
    /\ score_str <> EmptyString
    /\ all_chars digits_or_dot score_str = true.
Proof.
  unfold emotion_pattern. intros H.
  invert_Seq H. invert_Seq Hr. invert_Seq Hr0. invert_Seq Hr.
  invert_Seq Hr0. invert_Seq Hr. invert_Seq Hr0.
  repeat match goal with
    | H : matches ?r _ _ ?c ?c' |- _ =>
        lazymatch r with
        | Group _ _ => fail
        | _ =>
            let E := fresh in
            assert (c' = c) as E
              by (apply (matches_groupless _ _ _ _ _ H); reflexivity);
            clear H; try subst c'; try subst c
        end
    end.
  apply matches_Group_Plus in Hl1 as (nm & -> & Hne & Hnm).
  apply matches_Group_Plus in Hr as (sc & -> & Hne' & Hsc).
  eauto 10.
Qed.

(** ** What [findall] returns *)

Lemma findall_from_match (r : regex) (s : string) :
  forall (skip : nat) (m : string * string),
    In m (findall_from r s skip) ->
    exists s' rest c,
      matches r s' rest [] c /\ m = (capture c 1, capture c 2).
Proof.
  induction s as [|a s IH]; intros skip m; simpl; [done|].
  destruct skip as [|skip]; [|apply IH].
  destruct (match_here r (String a s)) as [[rest c]|] eqn:Hm; [|apply IH].
  intros [<-|Hin]; [|by apply IH in Hin].
  unfold match_here in Hm.
  apply rmatch_sound in Hm as (rest' & c' & Hmatch & [= <- <-]).
  by exists (String a s), rest', c'.
Qed.

(** ** [float] on a string of digits and dots *)

Lemma decimal_digits_None (s : string) :
  forall (mant : Z) (frac : option Z) (seen_digit : bool),
    all_chars digits_or_dot s = true ->
    (decimal_digits s mant frac seen_digit = None <->
     (2 <= count_chars is_dot s
           + match frac with Some _ => 1 | None => 0 end)%nat
     \/ (count_chars is_digit s = 0%nat /\ seen_digit = false)).
Proof.
  induction s as [|a s IH]; intros mant frac seen_digit; simpl.
  - intros _. destruct seen_digit.
    + split; [done|]. intros [H|[_ H]]; [destruct frac; lia|done].
    + split; [by right|done].
  - intros [Ha Hs]%andb_true_iff. unfold digits_or_dot, is_dot in *.
    destruct (is_digit a) eqn:Hd.
    + assert (Ascii.eqb a "." = false) as ->.
      { apply Ascii.eqb_neq. intros ->. discriminate Hd. }
      rewrite (IH _ _ _ Hs). destruct frac; simpl; split;
        intros [H|[H1 H2]]; try done; auto.
    + simpl in Ha. rewrite Ha. destruct frac as [k|].
      * split; [intros _; left; lia|done].
      * rewrite (IH _ _ _ Hs).
        split; (intros [H|H]; [left; lia|by right]).
Qed.

Lemma py_float_None (s : string) :
  all_chars digits_or_dot s = true ->
  (py_float s = None <->
   (2 <= count_chars is_dot s)%nat \/ count_chars is_digit s = 0%nat).
Proof.
  intros Hs. unfold py_float.
  pose proof (decimal_digits_None s 0 None false Hs) as H.
  destruct (decimal_digits s 0 None false) as [[m k]|].
  - split; [done|]. intros Hbad.
    assert (@None (Z * Z) = None) as Hn by done.
    destruct H as [_ H]. 
    assert (Some (m, k) = None); [|done]. apply H.
    destruct Hbad as [Hb|Hb]; [left; lia|by right].
  - split; [|done]. intros _. destruct H as [H _].
    destruct (H eq_refl) as [Hb|[Hb _]]; [left; lia|by right].
Qed.

Lemma captured_numbers_names (emotions_str nm score_str : string) :
  In (nm, score_str) (findall emotion_pattern emotions_str) ->
  nm <> EmptyString /\ all_chars not_quote nm = true.
Proof.
  intros Hin.
  apply findall_from_match in Hin as (s' & rest & c & Hm & Heq).
  apply matches_emotion_pattern in Hm
    as (nm' & sc' & -> & Hne & Hnm & _).
  by injection Heq as -> ->.
Qed.

(** X14: what [float] is applied to.  The time that [pattern] captures and
    the score that [emotion_pattern] captures are non-empty strings of
    digits and dots, and the name that [emotion_pattern] captures is
    non-empty and has no quote character, whatever the text they are found
    in.  On such a string [float] raises [ValueError] exactly when there
    are two or more dots or there is no digit: this is when a
    [FacePrediction] block is skipped for its time, and when a score is
    replaced by [0.0]. *)
Theorem captured_numbers (raw : string) :
  (forall time_str emotions_str,
     In (time_str, emotions_str) (findall pattern raw) ->
     time_str <> EmptyString
     /\ all_chars digits_or_dot time_str = true
     /\ (py_float time_str = None <->
         (2 <= count_chars is_dot time_str)%nat
         \/ count_chars is_digit time_str = 0%nat))
  /\ (forall nm score_str,
        In (nm, score_str) (findall emotion_pattern raw) ->
        nm <> EmptyString
        /\ all_chars not_quote nm = true
        /\ score_str <> EmptyString
        /\ all_chars digits_or_dot score_str = true
        /\ (py_float score_str = None <->
            (2 <= count_chars is_dot score_str)%nat
            \/ count_chars is_digit score_str = 0%nat)).
Proof.
  split.
  - intros t es Hin.
    apply findall_from_match in Hin as (s' & rest & c & Hm & Heq).
    apply matches_pattern in Hm as (t' & es' & -> & Hne & Ht).
    injection Heq as -> ->. simpl.
    split; [done|]. split; [done|]. by apply py_float_None.
  - intros nm sc Hin.
    apply findall_from_match in Hin as (s' & rest & c & Hm & Heq).
    apply matches_emotion_pattern in Hm
      as (nm' & sc' & -> & Hne & Hnm & Hne' & Hsc).
    injection Heq as -> ->. simpl.
    do 4 (split; [done|]). by apply py_float_None.
Qed.

(** X15: the frames that [_extract_emotion_frames_from_raw] returns.
    Every frame has at least one emotion, and every emotion of every frame
    has a name that is not empty and contains no quote character. *)
Theorem extracted_emotions_named (hume_data : HumeData) (f : Frame)
    (e : Emotion) :
  In f (_extract_emotion_frames_from_raw hume_data) ->
  In e (emotions f) ->
  emotions f <> []
  /\ name e <> EmptyString
  /\ all_chars not_quote (name e) = true.
Proof.
  unfold _extract_emotion_frames_from_raw.
  set (raw := match get_or_empty (raw_result hume_data), result hume_data with
              | EmptyString, Some r => get_or_empty r
              | _, _ => get_or_empty (raw_result hume_data)
              end).
  clearbody raw. destruct raw as [|a raw']; [done|].
  unfold extract_emotion_frames. rewrite frames_fold_omap. simpl.
  intros Hf He.
  apply list_elem_of_In, list_elem_of_omap in Hf as (m & _ & Hm).
  apply frame_of_block_emotions in Hm as (_ & Hems & Hne).
  split; [done|].
  rewrite Hems in He. apply in_map_iff in He as ([nm sc] & <- & Hin).
  destruct (captured_numbers_names (snd m) nm sc Hin) as [H1 H2].
  done.
Qed.

Lemma extracted_emotions_named_witness :
  let raw :=
    "FacePrediction(frame=3, time=0.5, emotions=[EmotionScore(name='Joy', score=1..5)])" in
  let e := mkEmotion "Joy" 0 in
  let f := mkFrame 0.5 [e] in
  emotions f <> [] /\ name e <> EmptyString
  /\ all_chars not_quote (name e) = true.
Proof.
  apply (extracted_emotions_named
           (mkHumeData
              (Some "FacePrediction(frame=3, time=0.5, emotions=[EmotionScore(name='Joy', score=1..5)])")
              None)
           (mkFrame 0.5 [mkEmotion "Joy" 0]) (mkEmotion "Joy" 0)).
  - vm_compute. left. reflexivity.
  - left. reflexivity.
Defined.

End CapturesProofs.

Module BlocksProofs.
Import Analytics AnalyticsSpec Captures Blocks AnalyticsProofs CapturesProofs.

Local Open Scope list_scope.
Local Open Scope string_scope.
Local Arguments String.append : simpl nomatch.

(** ** The matcher on a text that is known *)

Lemma length_append (a b : string) :
  String.length (a ++ b) = (String.length a + String.length b)%nat.
Proof. induction a as [|x a IH]; simpl; [done|by rewrite IH]. Qed.

Lemma drop_prefix_here (l s : string) : drop_prefix l (l ++ s) = Some s.
Proof.
  induction l as [|a l IH]; simpl; [done|]. by rewrite Ascii.eqb_refl.
Qed.

(** Whether [s] starts with [l] is decided by the first characters of
    [s]. *)
Lemma drop_prefix_None_app (l s more : string) :
  (String.length l <= String.length s)%nat ->
  drop_prefix l s = None -> drop_prefix l (s ++ more) = None.
Proof.
  revert s. induction l as [|a l IH]; intros s Hlen; simpl; [done|].
  destruct s as [|b s]; simpl in *; [lia|].
  destruct (Ascii.eqb a b); [|done]. apply IH. lia.
Qed.

Lemma first_at_end_suffix (l w : string) :
  first_at_end l w = true ->
  forall pre post more,
    w = pre ++ post -> post <> EmptyString ->
    drop_prefix l (post ++ l ++ more) = None.
Proof.
  induction w as [|a w IH]; intros Hw pre post more Heq Hne.
  - destruct pre; [|done]. simpl in Heq. by subst post.
  - cbn [first_at_end] in Hw.
    destruct (drop_prefix l (String a w ++ l)) eqn:Hd; [done|].
    destruct pre as [|b pre].
    + simpl in Heq. subst post. rewrite <- append_assoc.
      apply drop_prefix_None_app; [|done].
      rewrite length_append. lia.
    + injection Heq as _ Heq. by apply (IH Hw pre post more).
Qed.

Section Runs.
Context {R : Type}.
Implicit Types (k : string -> captures -> option R) (c : captures).

Lemma rmatch_Lit_here (l s : string) c k :
  rmatch (Lit l) (l ++ s) c k = k s c.
Proof. cbn [rmatch]. by rewrite drop_prefix_here. Qed.

Lemma rmatch_Lit_None (l s : string) c k :
  drop_prefix l s = None -> rmatch (Lit l) s c k = None.
Proof. cbn [rmatch]. by intros ->. Qed.

Lemma rmatch_Seq (r1 r2 : regex) (s : string) c k :
  rmatch (Seq r1 r2) s c k = rmatch r1 s c (fun s' c' => rmatch r2 s' c' k).
Proof. reflexivity. Qed.

Lemma rmatch_Group (n : nat) (r : regex) (s : string) c k :
  rmatch (Group n r) s c k =
    rmatch r s c (fun s' c' => k s' ((n, consumed s s') :: c')).
Proof. reflexivity. Qed.

Lemma rmatch_Class (p : ascii -> bool) (a : ascii) (s : string) c k :
  rmatch (Class p) (String a s) c k = if p a then k s c else None.
Proof. reflexivity. Qed.

(** A greedy run of one class takes all of the run when what follows
    matches. *)
Lemma star_loop_greedy (p : ascii -> bool) (w s : string) c k (x : R) :
  all_chars p w = true -> starts_in p s = false -> k s c = Some x ->
  forall fuel,
    (String.length w < fuel)%nat ->
    star_loop true (Class p) k fuel (w ++ s) c = Some x.
Proof.
  intros Hw Hs Hk. induction w as [|a w IH]; intros fuel Hfuel.
  - destruct fuel as [|fuel]; [simpl in Hfuel; lia|].
    cbn [star_loop]. change (EmptyString ++ s) with s.
    assert (rmatch (Class p) s c
              (fun s' c' =>
                 if (String.length s' <? String.length s)%nat
                 then star_loop true (Class p) k fuel s' c' else None)
            = None) as ->; [|done].
    cbn [rmatch]. destruct s as [|b s]; [done|]. simpl in Hs. by rewrite Hs.
  - destruct fuel as [|fuel]; [simpl in Hfuel; lia|].
    cbn [all_chars] in Hw. apply andb_true_iff in Hw as [Ha Hw].
    cbn [star_loop]. change (String a w ++ s) with (String a (w ++ s)).
    cbn [rmatch]. rewrite Ha.
    assert ((String.length (w ++ s) <? String.length (String a (w ++ s)))%nat
            = true) as -> by (apply Nat.ltb_lt; simpl; lia).
    rewrite (IH Hw fuel); [done|]. simpl in Hfuel. lia.
Qed.

Lemma rmatch_Plus_run (p : ascii -> bool) (w s : string) c k (x : R) :
  nonempty w = true -> all_chars p w = true -> starts_in p s = false ->
  k s c = Some x ->
  rmatch (Plus (Class p)) (w ++ s) c k = Some x.
Proof.
  intros Hne Hw Hs Hk. destruct w as [|a w]; [done|].
  cbn [all_chars] in Hw. apply andb_true_iff in Hw as [Ha Hw].
  unfold Plus. change (String a w ++ s) with (String a (w ++ s)).
  rewrite rmatch_Seq, rmatch_Class, Ha, rmatch_Star.
  apply (star_loop_greedy p w s c k x Hw Hs Hk).
  rewrite length_append. lia.
Qed.

Lemma rmatch_Star_run (p : ascii -> bool) (w s : string) c k (x : R) :
  all_chars p w = true -> starts_in p s = false -> k s c = Some x ->
  rmatch (Star true (Class p)) (w ++ s) c k = Some x.
Proof.
  intros Hw Hs Hk. rewrite rmatch_Star.
  apply (star_loop_greedy p w s c k x Hw Hs Hk).
  rewrite length_append. lia.
Qed.

(** A lazy run of any characters stops at the first place where what
    follows matches. *)
Lemma star_loop_lazy (w s : string) c k (x : R) :
  (forall pre post, w = pre ++ post -> post <> EmptyString ->
                    k (post ++ s) c = None) ->
  k s c = Some x ->
  forall fuel,
    (String.length w < fuel)%nat ->
    star_loop false (Class any_char) k fuel (w ++ s) c = Some x.
Proof.
  intros Hfail Hk. induction w as [|a w IH]; intros fuel Hfuel.
  - destruct fuel as [|fuel]; [simpl in Hfuel; lia|].
    cbn [star_loop]. change (EmptyString ++ s) with s. by rewrite Hk.
  - destruct fuel as [|fuel]; [simpl in Hfuel; lia|].
    cbn [star_loop].
    rewrite (Hfail EmptyString (String a w)) by done.
    change (String a w ++ s) with (String a (w ++ s)).
    cbn [rmatch]. unfold any_char at 1.
    assert ((String.length (w ++ s) <? String.length (String a (w ++ s)))%nat
            = true) as -> by (apply Nat.ltb_lt; simpl; lia).
    apply IH; [|simpl in Hfuel; lia].
    intros pre post Heq Hne. apply (Hfail (String a pre) post); [|done].
    by rewrite Heq.
Qed.

Lemma rmatch_lazy_run (w s : string) c k (x : R) :
  (forall pre post, w = pre ++ post -> post <> EmptyString ->
                    k (post ++ s) c = None) ->
  k s c = Some x ->
  rmatch (Star false (Class any_char)) (w ++ s) c k = Some x.
Proof.
  intros Hfail Hk. rewrite rmatch_Star.
  apply (star_loop_lazy w s c k x Hfail Hk).
  rewrite length_append. lia.
Qed.

End Runs.

Lemma all_chars_suffix (p : ascii -> bool) (w pre post : string) :
  all_chars p w = true -> w = pre ++ post -> all_chars p post = true.
Proof.
  revert w. induction pre as [|a pre IH]; intros w Hw ->; [done|].
  cbn [all_chars] in Hw. apply andb_true_iff in Hw as [_ Hw].
  by apply (IH (pre ++ post)).
Qed.

(** ** One block *)

Lemma block_text_app (b : Block) (rest : string) :
  block_text b ++ rest =
    block_open ++ frame_number b ++ "," ++ time_gap b ++ "time="
    ++ time_text b ++ block_middle b ++ emotions_open ++ emotions_text b
    ++ "]" ++ rest.
Proof. unfold block_text. by rewrite !append_assoc. Qed.

(** The pattern matches a block that is written in full from its first to
    its last character, and captures its time and its emotion list. *)
Lemma match_here_block (b : Block) (rest : string) :
  well_formed b = true ->
  match_here pattern (block_text b ++ rest) =
    Some (rest, [(2%nat, emotions_text b); (1%nat, time_text b)]).
Proof.
  unfold well_formed. rewrite !andb_true_iff, negb_true_iff.
  intros (((((((((Hn & Hdigits) & Hgap) & Ht) & Htime) & Hmid) & Hopen)
            & Hems) & _) & _).
  rewrite block_text_app. unfold match_here, pattern.
  rewrite rmatch_Seq, rmatch_Lit_here, rmatch_Seq.
  apply rmatch_Plus_run; [done..|].
  rewrite rmatch_Seq, rmatch_Lit_here, rmatch_Seq.
  apply rmatch_Star_run; [done..|].
  rewrite rmatch_Seq, rmatch_Lit_here, rmatch_Seq, rmatch_Group.
  apply rmatch_Plus_run; [done|done| |].
  { destruct (block_middle b); [done|exact Hmid]. }
  rewrite consumed_app, rmatch_Seq.
  apply rmatch_lazy_run.
  { intros pre post Heq Hne. rewrite rmatch_Seq.
    apply rmatch_Lit_None.
    apply (first_at_end_suffix emotions_open (block_middle b) Hopen
             pre post _ Heq Hne). }
  rewrite rmatch_Seq, rmatch_Lit_here, rmatch_Seq, rmatch_Group.
  apply rmatch_lazy_run.
  { intros pre post Heq Hne. apply rmatch_Lit_None.
    pose proof (all_chars_suffix _ _ pre post Hems Heq) as Hpost.
    destruct post as [|a post]; [done|].
    cbn [all_chars] in Hpost. apply andb_true_iff in Hpost as [Ha _].
    change (String a post ++ "]" ++ rest)
      with (String a (post ++ "]" ++ rest)).
    cbn [drop_prefix]. unfold closing in Ha.
    rewrite negb_true_iff in Ha.
    rewrite Ascii.eqb_sym in Ha. by rewrite Ha. }
  by rewrite (rmatch_Lit_here "]"), consumed_app.
Qed.

(** ** The scan *)

Lemma findall_from_skip (r : regex) (x rest : string) :
  findall_from r (x ++ rest) (String.length x) = findall_from r rest 0.
Proof.
  induction x as [|a x IH]; [done|].
  change (String a x ++ rest) with (String a (x ++ rest)).
  cbn [findall_from String.length]. exact IH.
Qed.

Lemma findall_from_gap (gap s : string) :
  first_at_end block_open gap = true ->
  (exists more, s = block_open ++ more) ->
  findall_from pattern (gap ++ s) 0 = findall_from pattern s 0.
Proof.
  intros Hgap [more ->]. induction gap as [|a gap IH]; [done|].
  assert (match_here pattern (String a gap ++ block_open ++ more) = None)
    as Hnone.
  { unfold match_here, pattern. rewrite rmatch_Seq.
    apply rmatch_Lit_None.
    by apply (first_at_end_suffix block_open (String a gap) Hgap
                EmptyString (String a gap) more). }
  change (String a gap ++ block_open ++ more)
    with (String a (gap ++ block_open ++ more)) in *.
  cbn [findall_from]. rewrite Hnone. apply IH.
  cbn [first_at_end] in Hgap.
  by destruct (drop_prefix block_open (String a gap ++ block_open)).
Qed.

Lemma findall_from_tail (tail : string) :
  contains block_open tail = false -> findall_from pattern tail 0 = [].
Proof.
  induction tail as [|a tail IH]; [done|].
  cbn [contains]. destruct (drop_prefix block_open (String a tail)) eqn:Hd;
    [done|].
  intros Htail. cbn [findall_from].
  assert (match_here pattern (String a tail) = None) as ->; [|by apply IH].
  unfold match_here, pattern. rewrite rmatch_Seq.
  by apply rmatch_Lit_None.
Qed.

Lemma findall_from_block (b : Block) (rest : string) :
  well_formed b = true ->
  findall_from pattern (block_text b ++ rest) 0 =
    (time_text b, emotions_text b) :: findall_from pattern rest 0.
Proof.
  intros Hb. pose proof (match_here_block b rest Hb) as Hm.
  pose proof (length_append (block_text b) rest) as Hlen.
  destruct (block_text b) as [|a t] eqn:Ht; [done|].
  change (String a t ++ rest) with (String a (t ++ rest)) in *.
  cbn [findall_from]. rewrite Hm. cbn [capture Nat.eqb]. f_equal.
  rewrite <- (findall_from_skip pattern t rest). f_equal.
  rewrite Hlen. simpl. lia.
Qed.

Lemma text_of_opens (parts : list (string * Block)) (tail : string)
    (gap : string) (b : Block) :
  exists more, block_text b ++ text_of parts tail = block_open ++ more.
Proof. eexists. unfold block_text. by rewrite append_assoc. Qed.

Lemma findall_text (parts : list (string * Block)) (tail : string) :
  well_formed_text parts tail = true ->
  findall pattern (text_of parts tail) =
    map (fun '(_, b) => (time_text b, emotions_text b)) parts.
Proof.
  unfold well_formed_text, findall. rewrite andb_true_iff, negb_true_iff.
  intros [Hparts Htail].
  induction parts as [|[gap b] parts IH]; cbn [text_of map].
  - by apply findall_from_tail.
  - cbn [forallb] in Hparts. rewrite !andb_true_iff in Hparts.
    destruct Hparts as [[Hgap Hb] Hparts].
    rewrite findall_from_gap; [|done|by apply (text_of_opens _ _ gap)].
    rewrite findall_from_block by done. by rewrite IH.
Qed.

Lemma frame_of_text_block_match (b : Block) :
  frame_of_block (time_text b, emotions_text b) = frame_of_text_block b.
Proof.
  unfold frame_of_block, frame_of_text_block. simpl.
  by rewrite emotions_of_map.
Qed.

Lemma extracted_not_empty (raw : string) (f : Frame) :
  In f (extract_emotion_frames raw) -> emotions f <> [].
Proof.
  unfold extract_emotion_frames. rewrite frames_fold_omap. simpl.
  intros Hf. apply list_elem_of_In, list_elem_of_omap in Hf as (m & _ & Hm).
  by apply frame_of_block_emotions in Hm as (_ & _ & Hne).
Qed.

(** C5: what [extract_emotion_frames] does, read on the text.  When the
    text is a sequence of frame blocks, each written in full, with gaps in
    which no block opens, the scan finds the blocks one by one, in the order
    of the text, and the frames are those of the blocks: a block whose time
    is no number is passed over and the blocks after it are read as without
    it, a block from whose list no emotion pair is extracted gives no frame.
    On any text, no frame of the output has an empty emotion list.  But a
    block without an emotion list of its own is not passed over: it takes
    the list of the block after it, and the frame has the time of the one
    block and the emotions of the other. *)
Theorem extract_emotion_frames_spec :
  (forall (parts : list (string * Block)) (tail : string),
     well_formed_text parts tail = true ->
     let raw := text_of parts tail in
     findall pattern raw =
       map (fun '(_, b) => (time_text b, emotions_text b)) parts
     /\ extract_emotion_frames raw =
          omap (fun '(_, b) => frame_of_text_block b) parts
     /\ (forall other,
           raw <> EmptyString ->
           _extract_emotion_frames_from_raw (mkHumeData (Some raw) other)
           = extract_emotion_frames raw))
  /\ (forall text f, In f (extract_emotion_frames text) -> emotions f <> [])
  /\ _extract_emotion_frames_from_raw
       (mkHumeData
          (Some "FacePrediction(frame=1, time=1.0, emotions=None), FacePrediction(frame=2, time=2.0, emotions=[EmotionScore(name='Joy', score=0.5)])")
          None)
     = [mkFrame 1 [mkEmotion "Joy" 0.5]].
Proof.
  split; [|split; [exact extracted_not_empty|by vm_compute]].
  intros parts tail Hwf raw.
  pose proof (findall_text parts tail Hwf) as Hall.
  fold raw in Hall. split; [exact Hall|]. split.
  - unfold extract_emotion_frames. rewrite frames_fold_omap, Hall. simpl.
    clear. induction parts as [|[gap b] parts IH]; [done|].
    cbn [map omap list_omap]. rewrite frame_of_text_block_match.
    destruct (frame_of_text_block b); [f_equal|]; exact IH.
  - intros other Hraw. by destruct raw.
Qed.

(** Three blocks over several lines: a time with two dots, an empty emotion
    list, a good one. *)
Lemma extract_emotion_frames_witness :
  let nl := String newline EmptyString in
  let b0 :=
    mkBlock "0" " " "1.2.3" ", prob=0.9, "
      "EmotionScore(name='Joy', score=0.5)" in
  let b1 := mkBlock "1" nl "1.0" ", " "" in
  let b2 :=
    mkBlock "2" " " "2.5" ("," ++ nl)
      ("EmotionScore(name='Calm', score=0.25)," ++ nl
       ++ "EmotionScore(name='Fear', score=.)") in
  let raw := text_of [("[", b0); ("), " ++ nl, b1); (") ", b2)] ")]" in
  extract_emotion_frames raw
  = [mkFrame 2.5 [mkEmotion "Calm" 0.25; mkEmotion "Fear" 0]].
Proof.
  intros nl b0 b1 b2 raw.
  destruct extract_emotion_frames_spec as (Hblocks & _).
  destruct (Hblocks [("[", b0); ("), " ++ nl, b1); (") ", b2)] ")]")
    as (_ & Hframes & _).
  - vm_compute. reflexivity.
  - fold raw in Hframes. rewrite Hframes. vm_compute. reflexivity.
Defined.

(** C5 fails on a text with a block that has no emotion list of its own:
    the block is not passed over, it takes the list of the block after it.
    Two blocks, the first without a list: the specification gives the frame
    of the second block, at time 2.0; the code gives one frame with the time
    of the first block and the emotions of the second.  With the same two
    blocks the other way round the result is the frame of the block that has
    the list. *)
Lemma extract_emotion_frames_counterexample :
  let first := "FacePrediction(frame=1, time=1.0, emotions=None)" in
  let second :=
    "FacePrediction(frame=2, time=2.0, emotions=[EmotionScore(name='Joy', score=0.5)])" in
  extract_emotion_frames (first ++ ", " ++ second)
  = [mkFrame 1 [mkEmotion "Joy" 0.5]]
  /\ extract_emotion_frames (second ++ ", " ++ first)
     = [mkFrame 2 [mkEmotion "Joy" 0.5]]
  /\ findall pattern (first ++ ", " ++ second)
     = [("1.0", "EmotionScore(name='Joy', score=0.5)")].
Proof. vm_compute. repeat split; reflexivity. Qed.

End BlocksProofs.

Module TranscriptProofs.
Import Analytics AnalyticsSpec Captures Transcript AnalyticsProofs
  CapturesProofs.

Local Open Scope string_scope.
Local Open Scope list_scope.
Local Open Scope Z_scope.

(** [x - x] is [+0.0], unless [x] is infinite or no number. *)
Lemma float_sub_diag (x : float) :
  Prim2SF (x - x) = S754_zero false \/ Prim2SF (x - x) = S754_nan.
Proof.
  rewrite sub_spec. unfold SF64sub, SFsub.
  destruct (Prim2SF x) as [[|]|[|]| |s m e]; auto.
  left. by rewrite Z.sub_diag.
Qed.

Lemma Forall2_In_r {A B} (P : A -> B -> Prop) (l : list A) (k : list B)
    (y : B) :
  Forall2 P l k -> In y k -> exists x, In x l /\ P x y.
Proof.
  induction 1 as [|x y' l k Hxy _ IH]; [done|].
  intros [<-|Hin].
  - exists x. split; [by left|done].
  - destruct (IH Hin) as (x' & Hx' & Hp). exists x'. split; [by right|done].
Qed.

Lemma segments_of_app (frames : list Frame) (baseline : float)
    (data : list Utterance) :
  forall (acc result : list Segment),
    segments_of frames baseline data acc = Some result ->
    exists new,
      result = acc ++ new
      /\ Forall2 (fun u s => segment_of frames baseline u = Some s) data new.
Proof.
  induction data as [|u data IH]; intros acc result; simpl.
  - intros [= <-]. exists []. by rewrite app_nil_r.
  - destruct (segment_of frames baseline u) as [s|] eqn:Hs; [|done].
    intros H. apply IH in H as (new & -> & Hall).
    exists (s :: new). rewrite <- app_assoc. split; [done|].
    by constructor.
Qed.

Lemma segments_of_convertible (frames : list Frame) (baseline : float)
    (data : list Utterance) :
  forall acc,
    Forall convertible data ->
    segments_of frames baseline data acc <> None.
Proof.
  induction data as [|u data IH]; intros acc Hall; simpl; [done|].
  apply Forall_cons in Hall as [[Ht Hd] Hall].
  unfold segment_of, seconds_of_ms.
  destruct (float_of_int_checked (get_or_zero (timestamp_ms u))); [|done].
  destruct (float_of_int_checked (get_or_zero (duration_ms u))); [|done].
  by apply IH.
Qed.

Lemma min_timestamp_In (first : Utterance) (others : list Utterance) :
  exists u, In u (first :: others)
            /\ min_timestamp first others = get_or_zero (timestamp_ms u).
Proof.
  unfold min_timestamp.
  assert (forall m,
    (exists u, In u (first :: others) /\ m = get_or_zero (timestamp_ms u)) ->
    forall l, incl l (first :: others) ->
    exists u, In u (first :: others)
      /\ fold_left (fun m u => Z.min m (get_or_zero (timestamp_ms u))) l m
         = get_or_zero (timestamp_ms u)) as H.
  { intros m Hm l. revert m Hm.
    induction l as [|x l IH]; intros m Hm Hincl; simpl; [done|].
    apply IH; [|intros y Hy; apply Hincl; by right].
    destruct (Z.min_spec m (get_or_zero (timestamp_ms x))) as [[_ ->]|[_ ->]];
      [done|].
    exists x. split; [apply Hincl; by left|done]. }
  apply H.
  - exists first. split; [by left|done].
  - intros y Hy. by right.
Qed.

Lemma process_transcript_averages (data : list Utterance)
    (frames : list Frame) (s : Segment) :
  In s (_process_transcript_with_emotions (Some data) frames) ->
  avg_emotions s = _average_emotions_for_segment frames (start s) (seg_end s).
Proof.
  unfold _process_transcript_with_emotions.
  destruct data as [|first others]; [done|].
  destruct (seconds_of_ms (min_timestamp first others)) as [baseline|];
    [|done].
  destruct (segments_of frames baseline (first :: others) []) as [result|]
    eqn:Hres; [|done].
  apply segments_of_app in Hres as (new & -> & Hall). cbn [app].
  intros Hin.
  destruct (Forall2_In_r _ _ _ _ Hall Hin) as (u & _ & Hs).
  unfold segment_of in Hs.
  destruct (seconds_of_ms (get_or_zero (timestamp_ms u))); [|done].
  destruct (seconds_of_ms (get_or_zero (duration_ms u))); [|done].
  by injection Hs as <-.
Qed.

(** X16: [_process_transcript_with_emotions] is all or nothing.  It
    returns the empty list, or one segment for each utterance, in order,
    with the text of the utterance (empty when it is missing); it returns
    the latter whenever no timestamp and no duration is too large for a
    [float].  Each segment holds the average of the emotion frames over its
    own window.  And the start of an utterance with the earliest timestamp
    is [+0.0] (no number, should the baseline not be finite): times are
    relative to the earliest utterance. *)
Theorem process_transcript_with_emotions_spec (data : list Utterance)
    (frames : list Frame) :
  let result := _process_transcript_with_emotions (Some data) frames in
  (result = []
   \/ (length result = length data
       /\ map transcript result =
            map (fun u => get_or_empty (transcription_transcript u)) data))
  /\ (Forall convertible data -> length result = length data)
  /\ (forall s, In s result ->
        avg_emotions s =
          _average_emotions_for_segment frames (start s) (seg_end s))
  /\ (forall first others i u s,
        data = first :: others ->
        data !! i = Some u -> result !! i = Some s ->
        get_or_zero (timestamp_ms u) = min_timestamp first others ->
        Prim2SF (start s) = S754_zero false
        \/ Prim2SF (start s) = S754_nan).
Proof.
  cbv zeta. destruct data as [|first others].
  { simpl. split; [by left|]. split; [done|]. split; [done|].
    intros; discriminate. }
  unfold _process_transcript_with_emotions.
  destruct (seconds_of_ms (min_timestamp first others)) as [baseline|]
    eqn:Hbase.
  - destruct (segments_of frames baseline (first :: others) []) as [result|]
      eqn:Hres.
    + apply segments_of_app in Hres as (new & -> & Hall). cbn [app].
      assert (length new = length (first :: others)) as Hlen
        by (symmetry; by eapply Forall2_length).
      split; [|split; [|split]].
      * right. split; [done|].
        clear Hlen. induction Hall as [|u s data new Hs _ IH]; [done|].
        simpl. rewrite IH. f_equal. unfold segment_of in Hs.
        destruct (seconds_of_ms (get_or_zero (timestamp_ms u))); [|done].
        destruct (seconds_of_ms (get_or_zero (duration_ms u))); [|done].
        by injection Hs as <-.
      * done.
      * intros s Hin.
        destruct (Forall2_In_r _ _ _ _ Hall Hin) as (u & _ & Hs).
        unfold segment_of in Hs.
        destruct (seconds_of_ms (get_or_zero (timestamp_ms u))); [|done].
        destruct (seconds_of_ms (get_or_zero (duration_ms u))); [|done].
        by injection Hs as <-.
      * intros first' others' i u s [= <- <-] Hu Hs Hmin.
        pose proof (Forall2_lookup_lr _ _ _ _ _ _ Hall Hu Hs) as Hseg.
        unfold segment_of in Hseg. rewrite Hmin, Hbase in Hseg.
        destruct (seconds_of_ms (get_or_zero (duration_ms u))); [|done].
        injection Hseg as <-. simpl. apply float_sub_diag.
    + split; [by left|]. split; [|split; [done|intros; discriminate]].
      intros Hall. by apply (segments_of_convertible frames baseline) in Hres.
  - split; [by left|]. split; [|split; [done|intros; discriminate]].
    intros Hall. exfalso.
    destruct (min_timestamp_In first others) as (u & Hin & Hmin).
    rewrite Forall_forall in Hall.
    destruct (Hall u) as [Ht _]; [by apply list_elem_of_In|].
    unfold seconds_of_ms in Hbase. rewrite Hmin in Hbase.
    by destruct (float_of_int_checked (get_or_zero (timestamp_ms u))).
Qed.

(** ** The names of the averaged emotions *)

Lemma dict_In_get {V} (d : dict V) (k : string) (v : V) :
  In (k, v) d -> dict_get d k <> None.
Proof.
  induction d as [|[k' v'] d IH]; simpl; [done|].
  destruct (String.eqb_spec k' k) as [->|Hne]; [done|].
  intros [[= -> _]|Hin]; [done|by apply IH].
Qed.

Lemma average_names (frames : list Frame) (start_time end_time : float)
    (nm : string) (v : float) :
  In (nm, v) (_average_emotions_for_segment frames start_time end_time) ->
  named_in frames nm.
Proof.
  intros Hin. apply dict_In_get in Hin.
  unfold _average_emotions_for_segment in Hin.
  set (selected := List.filter (in_segment start_time end_time) frames) in *.
  assert (named_in selected nm) as (f & e & Hf & He & Hnm).
  { destruct selected as [|f0 sel] eqn:Hsel; [done|]. rewrite <- Hsel in *.
    destruct (add_frames_agree selected [] 0 []) as [Hagree _];
      [by intros ?|done|]. simpl in Hagree.
    revert Hagree Hin.
    destruct (fold_left add_frame selected _) as [totals count]. simpl.
    intros Hagree Hin.
    rewrite (dict_get_map (fun t => (t / float_of_int count)%float)) in Hin.
    rewrite Hagree in Hin. apply scores_of_nil_iff.
    by destruct (scores_of nm (all_emotions selected)). }
  exists f, e. split; [|done].
  unfold selected in Hf. by apply List.filter_In in Hf as [Hf _].
Qed.

Lemma extracted_names (hume : HumeData) (nm : string) :
  named_in (_extract_emotion_frames_from_raw hume) nm ->
  nm <> EmptyString /\ all_chars not_quote nm = true.
Proof.
  intros (f & e & Hf & He & <-). revert Hf.
  unfold _extract_emotion_frames_from_raw.
  set (raw := match get_or_empty (raw_result hume), result hume with
              | EmptyString, Some r => get_or_empty r
              | _, _ => get_or_empty (raw_result hume)
              end).
  clearbody raw. destruct raw as [|a raw']; [done|].
  unfold extract_emotion_frames. rewrite frames_fold_omap. simpl.
  intros Hf.
  apply list_elem_of_In, list_elem_of_omap in Hf as (m & _ & Hm).
  apply frame_of_block_emotions in Hm as (_ & Hems & _).
  rewrite Hems in He. apply in_map_iff in He as ([nm sc] & <- & Hin).
  by apply (captured_numbers_names (snd m) nm sc).
Qed.

Lemma filter_no_segments (transcript : string) :
  _filter_relevant_questions [] transcript = [].
Proof.
  unfold _filter_relevant_questions. rewrite qa_pairs_of_windows.
  induction (windows _) as [|[q e] ws IH]; [done|].
  cbn [omap list_omap]. by rewrite IH.
Qed.

(** X17: the emotion data and the pairs of [generate_insights].  Without
    [result_path] in the analytics data [_extract_emotion_data] raises,
    whatever else is there.  With it, the emotion data and the pairs are
    both empty when there is no emotion frame (none given and none
    extracted from the raw text), when [transcript_raw.json] is missing or
    cannot be read, or when it holds no utterance: the text of the
    transcript is not looked at.  And every name in the averaged emotions
    of a segment is the name of an emotion of some frame; for frames
    extracted from the raw text it is not empty and has no quote
    character. *)
Theorem emotion_data_and_pairs_spec (analytics_data : AnalyticsData)
    (file : raw_transcript) (transcript : string) :
  let r := emotion_data_and_pairs analytics_data file transcript in
  (result_path analytics_data = None -> r = None)
  /\ (result_path analytics_data <> None ->
      emotion_frames_of analytics_data = [] \/ file = Missing
      \/ file = Unreadable \/ file = Parsed [] ->
      r = Some ([], []))
  /\ (forall segments pairs s nm v,
        r = Some (segments, pairs) ->
        In s segments -> In (nm, v) (avg_emotions s) ->
        named_in (emotion_frames_of analytics_data) nm
        /\ (emotion_frames_entry analytics_data = None ->
            nm <> EmptyString /\ all_chars not_quote nm = true)).
Proof.
  cbv zeta. unfold emotion_data_and_pairs, _extract_emotion_data.
  destruct (result_path analytics_data) as [path|]; [|done].
  split; [done|]. split.
  - intros _ Hnone.
    assert (match file, emotion_frames_of analytics_data with
            | Missing, _ => Some []
            | _, [] => Some []
            | Unreadable, _ =>
                Some (_process_transcript_with_emotions None
                        (emotion_frames_of analytics_data))
            | Parsed transcript_data, _ =>
                Some (_process_transcript_with_emotions (Some transcript_data)
                        (emotion_frames_of analytics_data))
            end = Some []) as ->.
    { destruct Hnone as [-> | [-> | [-> | ->]]]; try done.
      - by destruct file.
      - by destruct (emotion_frames_of analytics_data).
      - by destruct (emotion_frames_of analytics_data). }
    by rewrite filter_no_segments.
  - intros segments pairs s nm v Hr Hs Hnm.
    assert (named_in (emotion_frames_of analytics_data) nm) as Hnamed.
    { destruct file as [| |data];
        destruct (emotion_frames_of analytics_data) as [|f0 frames] eqn:Hf;
        injection Hr as <- _; try done.
      rewrite (process_transcript_averages data (f0 :: frames) s Hs) in Hnm.
      by apply average_names in Hnm. }
    split; [done|]. intros Hentry.
    unfold emotion_frames_of in Hnamed. rewrite Hentry in Hnamed.
    by apply extracted_names in Hnamed.
Qed.

(** ** The window of [_average_emotions_for_segment] *)

Lemma SFleb_nan (x y : spec_float) :
  SFeqb x x = false -> SFleb x y = false /\ SFleb y x = false.
Proof.
  unfold SFeqb, SFleb, SFcompare.
  float_cases x; try discriminate; try (intros; order_cases; fail).
  by float_cases y.
Qed.

Lemma float_leb_nan (x y : float) :
  PrimFloat.is_nan x = true ->
  (x <=? y)%float = false /\ (y <=? x)%float = false.
Proof.
  unfold PrimFloat.is_nan. rewrite negb_true_iff, FloatAxioms.eqb_spec.
  rewrite !FloatAxioms.leb_spec. apply SFleb_nan.
Qed.

Lemma in_segment_outside (start_time end_time : float) (f : Frame) :
  PrimFloat.is_nan start_time = true \/ PrimFloat.is_nan end_time = true
  \/ (end_time <? start_time)%float = true ->
  in_segment start_time end_time f = false.
Proof.
  unfold in_segment. intros [Hnan|[Hnan|Hlt]].
  - by rewrite (proj1 (float_leb_nan start_time (time f) Hnan)).
  - rewrite (proj2 (float_leb_nan end_time (time f) Hnan)).
    apply andb_false_r.
  - destruct (start_time <=? time f)%float eqn:Hle; [|done]. simpl.
    apply float_ltb_asym. by apply (float_ltb_leb_trans _ start_time).
Qed.

Lemma filter_none {A} (p : A -> bool) (l : list A) :
  List.filter p l = [] <-> Forall (fun x => p x = false) l.
Proof.
  induction l as [|x l IH]; simpl; [by split|].
  destruct (p x) eqn:Hp.
  - split; [done|]. intros H. inversion H as [|? ? Hx _]. congruence.
  - rewrite IH. split; [by constructor|]. intros H. by inversion H.
Qed.

Lemma average_empty_iff (frames : list Frame) (start_time end_time : float) :
  _average_emotions_for_segment frames start_time end_time = [] <->
  Forall (fun f => emotions f = [])
    (List.filter (in_segment start_time end_time) frames).
Proof.
  unfold _average_emotions_for_segment.
  set (selected := List.filter (in_segment start_time end_time) frames).
  destruct selected as [|f0 sel] eqn:Hsel; [done|]. rewrite <- Hsel.
  destruct (add_frames_agree selected [] 0 []) as [Hagree _];
    [by intros ?|done|]. simpl in Hagree. revert Hagree.
  destruct (fold_left add_frame selected _) as [totals count]. simpl.
  intros Hagree. split.
  - intros Hnil. apply map_eq_nil in Hnil. subst totals.
    apply List.Forall_forall. intros f Hf.
    destruct (emotions f) as [|e es] eqn:He; [done|]. exfalso.
    specialize (Hagree (name e)). simpl in Hagree.
    assert (scores_of (name e) (all_emotions selected) <> []) as Hne.
    { apply scores_of_nil_iff. exists f, e.
      split; [done|]. split; [rewrite He; by left|done]. }
    by destruct (scores_of (name e) (all_emotions selected)).
  - intros Hall. destruct totals as [|[nm t] totals]; [done|]. exfalso.
    specialize (Hagree nm). simpl in Hagree. rewrite String.eqb_refl in Hagree.
    assert (scores_of nm (all_emotions selected) <> []) as Hne
      by (by destruct (scores_of nm (all_emotions selected))).
    apply scores_of_nil_iff in Hne as (f & e & Hf & He & _).
    rewrite List.Forall_forall in Hall. by rewrite (Hall f Hf) in He.
Qed.

Lemma extracted_frames_emotions (hume : HumeData) (f : Frame) :
  In f (_extract_emotion_frames_from_raw hume) -> emotions f <> [].
Proof.
  unfold _extract_emotion_frames_from_raw.
  set (raw := match get_or_empty (raw_result hume), result hume with
              | EmptyString, Some r => get_or_empty r
              | _, _ => get_or_empty (raw_result hume)
              end).
  clearbody raw. destruct raw as [|a raw']; [done|].
  unfold extract_emotion_frames. rewrite frames_fold_omap. simpl.
  intros Hf.
  apply list_elem_of_In, list_elem_of_omap in Hf as (m & _ & Hm).
  by apply frame_of_block_emotions in Hm as (_ & _ & Hne).
Qed.

(** X23: when [_average_emotions_for_segment] returns the empty dict.  It
    does so for every list of frames when a bound of the window is NaN or
    the end is before the start; in general it does so exactly when every
    frame in the window has an empty emotions list (in particular when the
    window holds no frame); and for the frames that
    [_extract_emotion_frames_from_raw] builds, which all have emotions, it
    does so exactly when no frame's time is in the window. *)
Theorem average_emotions_empty (frames : list Frame)
    (start_time end_time : float) :
  let result := _average_emotions_for_segment frames start_time end_time in
  (PrimFloat.is_nan start_time = true \/ PrimFloat.is_nan end_time = true
   \/ (end_time <? start_time)%float = true -> result = [])
  /\ (result = [] <->
      forall f, In f frames -> in_segment start_time end_time f = true ->
                emotions f = [])
  /\ (forall hume_data,
        frames = _extract_emotion_frames_from_raw hume_data ->
        (result = [] <->
         forall f, In f frames ->
                   ((start_time <=? time f)%float
                    && (time f <=? end_time)%float) = false)).
Proof.
  intros result.
  assert (result = [] <->
          forall f, In f frames -> in_segment start_time end_time f = true ->
                    emotions f = []) as Hiff.
  { unfold result. rewrite average_empty_iff, List.Forall_forall. split.
    - intros H f Hf Hin. apply H, List.filter_In. by split.
    - intros H f [Hf Hin]%List.filter_In. by apply H. }
  split; [|split; [exact Hiff|]].
  - intros Hout. apply Hiff. intros f _.
    by rewrite (in_segment_outside start_time end_time f Hout).
  - intros hume_data ->. rewrite Hiff. fold result in Hiff. split.
    + intros H f Hf.
      destruct (in_segment start_time end_time f) eqn:Hin; [|done].
      by destruct (extracted_frames_emotions hume_data f Hf), (H f Hf Hin).
    + intros H f Hf Hin. unfold in_segment in Hin.
      by rewrite (H f Hf) in Hin.
Qed.

End TranscriptProofs.

Module InsightsProofs.
Import Analytics Insights AnalyticsProofs.

Local Open Scope string_scope.
Local Open Scope list_scope.

Section Combine.
Context {Item Other : Type} `{EqDecision Item}.


(** ** Merging without duplicates *)

Lemma append_unique_elem (items : list Item) (x y : Item) :
  y ∈ append_unique items x <-> y ∈ items \/ y = x.
Proof.
  unfold append_unique. destruct (decide (x ∈ items)) as [Hin|Hnot].
  - split; [auto|]. by intros [?| ->].
  - rewrite elem_of_app, list_elem_of_singleton. done.
Qed.

Lemma merge_unique_elem (new : list Item) :
  forall (items : list Item) (y : Item),
    y ∈ merge_unique items new <-> y ∈ items \/ y ∈ new.
Proof.
  unfold merge_unique.
  induction new as [|x new IH]; intros items y; simpl.
  - rewrite elem_of_nil. tauto.
  - rewrite IH, append_unique_elem, elem_of_cons. tauto.
Qed.

Lemma merge_unique_prefix (new : list Item) :
  forall items : list Item,
    exists added,
      merge_unique items new = items ++ added
      /\ NoDup added
      /\ forall y, y ∈ added <-> y ∈ new /\ y ∉ items.
Proof.
  unfold merge_unique.
  induction new as [|x new IH]; intros items; simpl.
  - exists []. rewrite app_nil_r. split; [done|]. split; [constructor|].
    intros y. rewrite !elem_of_nil. tauto.
  - unfold append_unique at 2.
    destruct (decide (x ∈ items)) as [Hin|Hnot].
    + destruct (IH items) as (added & -> & Hnd & Hadded).
      exists added. split; [done|]. split; [done|].
      intros y. rewrite Hadded, elem_of_cons. split; [tauto|].
      intros [[->|Hy] Hn]; [done|tauto].
    + destruct (IH (items ++ [x])) as (added & -> & Hnd & Hadded).
      exists (x :: added). rewrite <- app_assoc. split; [done|]. split.
      * apply NoDup_cons. split; [|done]. rewrite Hadded.
        rewrite elem_of_app, list_elem_of_singleton. tauto.
      * intros y. rewrite !elem_of_cons, Hadded, elem_of_app,
          list_elem_of_singleton.
        destruct (decide (y = x)) as [->|Hne]; [tauto|]. tauto.
Qed.

Lemma merge_unique_id (new items : list Item) :
  (forall y, y ∈ new -> y ∈ items) -> merge_unique items new = items.
Proof.
  unfold merge_unique. revert items.
  induction new as [|x new IH]; intros items Hall; simpl; [done|].
  unfold append_unique at 2.
  destruct (decide (x ∈ items)) as [Hin|Hnot].
  - apply IH. intros y Hy. apply Hall. by right.
  - exfalso. apply Hnot, Hall. by left.
Qed.

(** The loop appends the first occurrences, in their order. *)
Lemma omap_seq_shift {A} (f g : nat -> option A) (n : nat) :
  (forall i, f (S i) = g i) ->
  forall a, omap f (seq (S a) n) = omap g (seq a n).
Proof.
  intros Hfg. induction n as [|n IH]; intros a; [done|].
  cbn [seq omap list_omap]. rewrite Hfg.
  destruct (g a); [f_equal|]; apply IH.
Qed.

Lemma appended_cons (items new : list Item) (x : Item) :
  appended items (x :: new) =
    (if decide (x ∈ items) then [] else [x])
    ++ appended (append_unique items x) new.
Proof.
  unfold appended. cbn [length seq omap list_omap].
  rewrite (omap_seq_shift (first_new items (x :: new))
             (first_new (append_unique items x) new)).
  - unfold first_new at 1. cbn [lookup list_lookup take].
    destruct (decide (x ∈ items \/ x ∈ [])) as [[Hin|Hin]|Hnot].
    + by destruct (decide (x ∈ items)).
    + by apply elem_of_nil in Hin.
    + destruct (decide (x ∈ items)); [tauto|done].
  - intros i. unfold first_new. cbn [lookup list_lookup take].
    destruct (new !! i) as [y|]; [|done].
    destruct (decide (y ∈ items \/ y ∈ x :: take i new)) as [Hy|Hy];
      destruct (decide (y ∈ append_unique items x \/ y ∈ take i new))
        as [Hy'|Hy']; try done; exfalso.
    + apply Hy'. rewrite append_unique_elem.
      rewrite elem_of_cons in Hy. tauto.
    + apply Hy. rewrite append_unique_elem in Hy'.
      rewrite elem_of_cons. tauto.
Qed.

Lemma merge_unique_appended (new : list Item) :
  forall items : list Item,
    merge_unique items new = items ++ appended items new.
Proof.
  unfold merge_unique.
  induction new as [|x new IH]; intros items; simpl.
  - unfold appended. simpl. by rewrite app_nil_r.
  - rewrite IH, appended_cons. unfold append_unique at 1.
    destruct (decide (x ∈ items)); [done|]. by rewrite <- app_assoc.
Qed.

(** [omap] keeps the order of the list. *)
Lemma omap_lookup_lt {A B} (f : A -> option B) (k : list A) :
  forall (i j : nat) (x y : B),
    omap f k !! i = Some x -> omap f k !! j = Some y -> (i < j)%nat ->
    exists i' j' a b,
      (i' < j')%nat /\ k !! i' = Some a /\ f a = Some x
      /\ k !! j' = Some b /\ f b = Some y.
Proof.
  induction k as [|a k IH]; intros i j x y Hi Hj Hlt; [done|].
  cbn [omap list_omap] in Hi, Hj. fold (omap f k) in Hi, Hj.
  destruct (f a) as [z|] eqn:Hfa.
  - destruct i as [|i].
    + destruct j as [|j]; [lia|]. simpl in Hi, Hj. injection Hi as ->.
      apply list_elem_of_lookup_2, list_elem_of_omap in Hj
        as (b & Hb & Hfb).
      apply list_elem_of_lookup_1 in Hb as [j' Hj'].
      exists 0%nat, (S j'), a, b. repeat split; try done. lia.
    + destruct j as [|j]; [lia|]. simpl in Hi, Hj.
      destruct (IH i j x y Hi Hj) as (i' & j' & a' & b' & H1 & H2 & H3 & H4 & H5);
        [lia|].
      exists (S i'), (S j'), a', b'. repeat split; try done. lia.
  - destruct (IH i j x y Hi Hj Hlt)
      as (i' & j' & a' & b' & H1 & H2 & H3 & H4 & H5).
    exists (S i'), (S j'), a', b'. repeat split; try done. lia.
Qed.

Lemma first_new_Some (items new : list Item) (i : nat) (x : Item) :
  first_new items new i = Some x <->
  new !! i = Some x /\ (x ∉ items) /\ (x ∉ take i new).
Proof.
  unfold first_new. destruct (new !! i) as [y|]; [|by split; [|intros []]].
  destruct (decide (y ∈ items \/ y ∈ take i new)) as [Hy|Hy].
  - split; [done|]. intros ([= ->] & H1 & H2). tauto.
  - split.
    + intros [= ->]. split; [done|]. tauto.
    + by intros ([= ->] & _).
Qed.

(** X18: the merge loop.  [for x in new: if x not in items:
    items.append(x)] keeps [items] as they are and appends, in the order of
    their first occurrence in [new] and without repetition, the items of
    [new] that are not among them: the item at a position of [new] is
    appended exactly when it is neither in [items] nor at an earlier
    position, and of two appended items the one that comes first in the
    result has its first occurrence in [new] first.  The result has the
    items of both lists and no others, it is free of duplicates when
    [items] is, and merging the same list once more, or a list into itself,
    changes nothing. *)
Theorem merge_unique_spec (items new : list Item) :
  let added :=
    omap (fun i =>
            match new !! i with
            | Some x =>
                if decide (x ∈ items \/ x ∈ take i new) then None else Some x
            | None => None
            end)
      (seq 0 (length new)) in
  merge_unique items new = items ++ added
  /\ (forall i j x y,
        added !! i = Some x -> added !! j = Some y -> (i < j)%nat ->
        exists i' j',
          (i' < j')%nat
          /\ new !! i' = Some x /\ (x ∉ take i' new)
          /\ new !! j' = Some y /\ (y ∉ take j' new))
  /\ NoDup added
  /\ (forall y, y ∈ added <-> y ∈ new /\ y ∉ items)
  /\ (forall y, y ∈ merge_unique items new <-> y ∈ items \/ y ∈ new)
  /\ (NoDup items -> NoDup (merge_unique items new))
  /\ merge_unique (merge_unique items new) new = merge_unique items new
  /\ merge_unique items items = items.
Proof.
  intros added. change added with (appended items new). clear added.
  pose proof (merge_unique_appended new items) as Heq.
  destruct (merge_unique_prefix new items) as (added & Heq' & Hnd & Hin).
  rewrite Heq in Heq'. apply app_inv_head in Heq'. subst added.
  split; [exact Heq|]. split; [|split; [exact Hnd|split; [exact Hin|]]].
  - intros i j x y Hi Hj Hlt.
    destruct (omap_lookup_lt _ _ i j x y Hi Hj Hlt)
      as (i' & j' & a & b & Hlt' & Ha & Hfa & Hb & Hfb).
    apply lookup_seq in Ha as [-> _]. apply lookup_seq in Hb as [-> _].
    simpl in Hlt'.
    apply first_new_Some in Hfa as (Hx & _ & Hx').
    apply first_new_Some in Hfb as (Hy & _ & Hy').
    by exists i', j'.
  - split; [apply merge_unique_elem|]. split; [|split].
    + intros Hnd'. rewrite Heq. apply NoDup_app. split; [done|].
      split; [|done]. intros y Hy Hy'. apply Hin in Hy'. tauto.
    + apply merge_unique_id. intros y Hy. apply merge_unique_elem. by right.
    + by apply merge_unique_id.
Qed.

(** ** The merge in the heap *)

Lemma take_key_other (key k : string) (combined emotional : @insights Other) :
  key <> k ->
  dict_get (take_key key combined emotional) k = dict_get combined k.
Proof.
  intros Hne. unfold take_key.
  destruct (dict_get emotional key); [|done].
  rewrite dict_get_set. by destruct (String.eqb_spec key k).
Qed.

(** The merge under a key that both dicts have, as lists. *)
Lemma merge_key_both (key : string) (combined emotional : @insights Other)
    (h : heap) (dst src : loc) (items new : list Item) :
  dict_get combined key = Some (VList dst) ->
  dict_get emotional key = Some (VList src) ->
  h !! dst = Some items -> h !! src = Some new ->
  merge_key key combined emotional h =
    Some (combined, <[dst := merge_unique items new]> h).
Proof.
  intros Hc He Hd Hs. unfold merge_key. rewrite He, Hc. simpl.
  by rewrite Hc, Hs, Hd.
Qed.

(** The merge under a key that only the emotional analysis has. *)
Lemma merge_key_fresh (key : string) (combined emotional : @insights Other)
    (h : heap) (src : loc) (new : list Item) :
  dict_get combined key = None ->
  dict_get emotional key = Some (VList src) ->
  h !! src = Some new ->
  merge_key key combined emotional h =
    Some (dict_set combined key (VList (fresh (dom h))),
          <[fresh (dom h) := merge_unique [] new]> h).
Proof.
  intros Hc He Hs. unfold merge_key. rewrite He, Hc. simpl.
  rewrite dict_get_set, String.eqb_refl.
  unfold heap, loc in *.
  assert (h !! fresh (dom h) = None) as Hfresh
    by (apply not_elem_of_dom, is_fresh).
  assert (fresh (dom h) <> src) as Hne by congruence.
  rewrite lookup_insert_ne, Hs, lookup_insert_eq by done.
  by rewrite insert_insert_eq.
Qed.

(** X19: [_combine_insights] merges in place.  [combined] starts as a
    shallow copy of [primary_insights], so the lists under [strengths] and
    [development_areas] are the caller's own: when both dicts have both
    keys, the returned dict holds the very lists of [primary_insights], and
    after the call these hold the merge, also when read through
    [primary_insights]; the lists of [emotional_analysis] are as they
    were. *)
Theorem combine_insights_in_place
    (primary emotional : @insights Other) (h : heap)
    (p d e e' : loc) (P D E E' : list Item) :
  dict_get primary "strengths" = Some (VList p) ->
  dict_get primary "development_areas" = Some (VList d) ->
  dict_get emotional "strengths" = Some (VList e) ->
  dict_get emotional "development_areas" = Some (VList e') ->
  h !! p = Some P -> h !! d = Some D -> h !! e = Some E ->
  h !! e' = Some E' ->
  p <> d -> p <> e' -> d <> e ->
  exists combined,
    _combine_insights (Some primary) (Some emotional) h =
      Some (combined,
            <[d := merge_unique D E']> (<[p := merge_unique P E]> h))
    /\ dict_get combined "strengths" = Some (VList p)
    /\ dict_get combined "development_areas" = Some (VList d)
    /\ (forall h',
          _combine_insights (Some primary) (Some emotional) h
          = Some (combined, h') ->
          list_under primary "strengths" h' = Some (merge_unique P E)
          /\ list_under primary "development_areas" h'
             = Some (merge_unique D E')
          /\ (e <> p -> list_under emotional "strengths" h' = Some E)).
Proof.
  intros Hp Hd He He' HP HD HE HE' Hpd Hpe' Hde.
  unfold _combine_insights. unfold heap, loc in *.
  destruct primary as [|kvp restp]; [done|].
  destruct emotional as [|kve reste]; [done|].
  set (primary := kvp :: restp) in *.
  set (emotional := kve :: reste) in *.
  set (c1 := match dict_get primary "emotional_response_analysis" with
             | Some _ => primary
             | None =>
                 take_key "emotional_response_analysis" primary emotional
             end).
  assert (forall k, k <> "emotional_response_analysis"%string ->
                    dict_get c1 k = dict_get primary k) as Hc1.
  { intros k Hk. unfold c1.
    destruct (dict_get primary "emotional_response_analysis"); [done|].
    by apply take_key_other. }
  set (c2 := take_key "question_specific_insights" c1 emotional).
  assert (dict_get c2 "strengths" = Some (VList p)) as Hc2p
    by (unfold c2; rewrite take_key_other, Hc1; done).
  assert (dict_get c2 "development_areas" = Some (VList d)) as Hc2d
    by (unfold c2; rewrite take_key_other, Hc1; done).
  rewrite (merge_key_both "strengths" c2 emotional h p e P E) by done.
  rewrite (merge_key_both "development_areas" c2 emotional
             (<[p := merge_unique P E]> h) d e' D E');
    [|done|done|unfold heap, loc; by rewrite lookup_insert_ne
                |unfold heap, loc; by rewrite lookup_insert_ne].
  eexists. split; [reflexivity|].
  split; [by rewrite take_key_other|].
  split; [by rewrite take_key_other|].
  intros h' [= <-]. unfold list_under. rewrite Hp, Hd, He.
  unfold heap, loc.
  split; [by rewrite lookup_insert_ne, lookup_insert_eq|].
  split; [by rewrite lookup_insert_eq|].
  intros Hep. by rewrite !lookup_insert_ne.
Qed.

(** X20: without primary insights the lists are new.  When
    [primary_insights] is [None] or empty and the emotional analysis has
    both lists, the returned dict holds two lists that did not exist
    before, different from each other, with the items of the emotional
    analysis without repetition; no list that existed before the call is
    changed. *)
Theorem combine_insights_fresh (primary_insights : option (@insights Other))
    (emotional : @insights Other) (h : heap) (e e' : loc)
    (E E' : list Item) :
  primary_insights = None \/ primary_insights = Some [] ->
  dict_get emotional "strengths" = Some (VList e) ->
  dict_get emotional "development_areas" = Some (VList e') ->
  h !! e = Some E -> h !! e' = Some E' ->
  exists combined h' l l',
    _combine_insights primary_insights (Some emotional) h
    = Some (combined, h')
    /\ dict_get combined "strengths" = Some (VList l)
    /\ dict_get combined "development_areas" = Some (VList l')
    /\ h !! l = None /\ h !! l' = None /\ l <> l'
    /\ h' !! l = Some (merge_unique [] E)
    /\ h' !! l' = Some (merge_unique [] E')
    /\ forall k, k <> l -> k <> l' -> h' !! k = h !! k.
Proof.
  intros Hprimary He He' HE HE'. unfold heap, loc in *.
  assert (_combine_insights primary_insights (Some emotional) h =
          _combine_insights None (Some emotional) h) as ->
    by (by destruct Hprimary as [-> | ->]).
  unfold _combine_insights.
  destruct emotional as [|kve reste]; [done|].
  set (emotional := kve :: reste) in *.
  change (dict_get (@nil (string * @value Other))
            "emotional_response_analysis") with (@None (@value Other)).
  cbv iota.
  set (c1 := take_key "emotional_response_analysis" [] emotional).
  set (c2 := take_key "question_specific_insights" c1 emotional).
  assert (forall k, k <> "emotional_response_analysis"%string ->
                    k <> "question_specific_insights"%string ->
                    dict_get c2 k = None) as Hc2.
  { intros k Hk1 Hk2. unfold c2, c1. by rewrite !take_key_other. }
  rewrite (merge_key_fresh "strengths" c2 emotional h e E);
    [|by apply Hc2|done|done].
  cbv beta iota. unfold heap, loc.
  set (l := fresh (dom h)).
  assert (h !! l = None) as Hl by (apply not_elem_of_dom, is_fresh).
  set (h1 := <[l := merge_unique [] E]> h).
  set (c3 := dict_set c2 "strengths" (VList l)).
  assert (l <> e') as Hle' by congruence.
  rewrite (merge_key_fresh "development_areas" c3 emotional h1 e' E');
    [|unfold c3; rewrite dict_get_set; simpl; by apply Hc2|done
     |unfold h1, heap, loc; by rewrite lookup_insert_ne].
  cbv beta iota. unfold heap, loc.
  set (l' := fresh (dom h1)).
  assert (h1 !! l' = None) as Hl' by (apply not_elem_of_dom, is_fresh).
  assert (l <> l') as Hll'.
  { intros Heq. rewrite <- Heq in Hl'. unfold h1 in Hl'.
    by rewrite lookup_insert_eq in Hl'. }
  exists (take_key "word_emotion_correlations"
            (dict_set c3 "development_areas" (VList l')) emotional),
    (<[l' := merge_unique [] E']> h1), l, l'.
  split; [done|].
  split.
  { rewrite take_key_other, dict_get_set by done. simpl.
    unfold c3. by rewrite dict_get_set, String.eqb_refl. }
  split.
  { rewrite take_key_other, dict_get_set by done.
    by rewrite String.eqb_refl. }
  split; [done|]. split.
  { unfold h1 in Hl'. by rewrite lookup_insert_ne in Hl'. }
  split; [done|]. split.
  { unfold h1. by rewrite lookup_insert_ne, lookup_insert_eq. }
  split; [by rewrite lookup_insert_eq|].
  intros k Hk Hk'. unfold h1. by rewrite !lookup_insert_ne.
Qed.

End Combine.

Lemma combine_insights_in_place_witness :
  let primary : @insights unit :=
    [("strengths", VList 1%positive); ("development_areas", VList 2%positive)] in
  let emotional : @insights unit :=
    [("strengths", VList 3%positive); ("development_areas", VList 4%positive)] in
  let h : @heap string :=
    {[ 1%positive := ["calm"]; 2%positive := ["pace"];
       3%positive := ["calm"; "clear"]; 4%positive := ["depth"] ]} in
  exists combined,
    _combine_insights (Some primary) (Some emotional) h =
      Some (combined,
            <[2%positive := merge_unique ["pace"] ["depth"]]>
              (<[1%positive := merge_unique ["calm"] ["calm"; "clear"]]> h))
    /\ dict_get combined "strengths" = Some (VList 1%positive)
    /\ dict_get combined "development_areas" = Some (VList 2%positive)
    /\ (forall h',
          _combine_insights (Some primary) (Some emotional) h
          = Some (combined, h') ->
          list_under primary "strengths" h'
          = Some (merge_unique ["calm"] ["calm"; "clear"])
          /\ list_under primary "development_areas" h'
             = Some (merge_unique ["pace"] ["depth"])
          /\ (3%positive <> 1%positive ->
              list_under emotional "strengths" h'
              = Some ["calm"; "clear"])).
Proof.
  apply (combine_insights_in_place
           [("strengths", VList 1%positive); ("development_areas", VList 2%positive)]
           [("strengths", VList 3%positive); ("development_areas", VList 4%positive)]
           {[ 1%positive := ["calm"]; 2%positive := ["pace"];
              3%positive := ["calm"; "clear"]; 4%positive := ["depth"] ]}
           1%positive 2%positive 3%positive 4%positive);
    first [reflexivity | discriminate].
Defined.

Lemma combine_insights_fresh_witness :
  let emotional : @insights unit :=
    [("strengths", VList 3%positive); ("development_areas", VList 4%positive)] in
  let h : @heap string :=
    {[ 3%positive := ["calm"; "calm"]; 4%positive := ["depth"] ]} in
  exists combined h' l l',
    _combine_insights None (Some emotional) h = Some (combined, h')
    /\ dict_get combined "strengths" = Some (VList l)
    /\ dict_get combined "development_areas" = Some (VList l')
    /\ h !! l = None /\ h !! l' = None /\ l <> l'
    /\ h' !! l = Some (merge_unique [] ["calm"; "calm"])
    /\ h' !! l' = Some (merge_unique [] ["depth"])
    /\ forall k, k <> l -> k <> l' -> h' !! k = h !! k.
Proof.
  apply (combine_insights_fresh None
           [("strengths", VList 3%positive); ("development_areas", VList 4%positive)]
           {[ 3%positive := ["calm"; "calm"]; 4%positive := ["depth"] ]}
           3%positive 4%positive);
    first [reflexivity | by left].
Defined.

(** The merged lists of the two examples, and merges that append more
    than one item. *)
Example merge_unique_examples :
  merge_unique ["calm"] ["calm"; "clear"] = ["calm"; "clear"]
  /\ merge_unique [] ["calm"; "calm"] = ["calm"]
  /\ merge_unique ["a"; "a"] ["b"; "a"; "b"] = ["a"; "a"; "b"]
  /\ merge_unique ["a"] ["c"; "a"; "b"; "c"] = ["a"; "c"; "b"]
  /\ merge_unique [] ["z"; "y"; "z"; "x"; "y"] = ["z"; "y"; "x"].
Proof. repeat split; vm_compute; reflexivity. Qed.

End InsightsProofs.

Module FormatterProofs.
Import Analytics AnalyticsSpec AnalyticsEdges Captures Formatter
  AnalyticsProofs AnalyticsEdgesProofs CapturesProofs.

Local Open Scope string_scope.
Local Open Scope list_scope.
Local Open Scope Z_scope.
Local Arguments String.append : simpl nomatch.

(** ** Numbers in decimal *)

Lemma string_of_uint_digits (d : Decimal.uint) :
  all_chars number_char (NilEmpty.string_of_uint d) = true.
Proof. induction d; simpl; try done. Qed.

Lemma format_02d_number (n : Z) :
  all_chars number_char (format_02d n) = true.
Proof.
  assert (all_chars number_char (NilZero.string_of_int (Z.to_int n))
          = true) as Hd.
  { destruct (Z.to_int n) as [d|d]; simpl;
      (destruct d; [done|apply (string_of_uint_digits (_ d))..]). }
  unfold format_02d. destruct (_ && _); [|done]. simpl. by rewrite Hd.
Qed.

Lemma all_chars_impl (p p' : ascii -> bool) (s : string) :
  (forall a, p a = true -> p' a = true) ->
  all_chars p s = true -> all_chars p' s = true.
Proof.
  intros Himpl. induction s as [|a s IH]; simpl; [done|].
  intros [Ha Hs]%andb_true_iff. by rewrite (Himpl a Ha), IH.
Qed.

Lemma format_02d_digits (n : Z) :
  all_chars stamp_char (format_02d n) = true.
Proof.
  apply (all_chars_impl number_char); [|apply format_02d_number].
  intros a Ha. unfold stamp_char. by rewrite Ha.
Qed.

Lemma all_chars_app (p : ascii -> bool) (a b : string) :
  all_chars p (a ++ b)%string = all_chars p a && all_chars p b.
Proof.
  induction a as [|x a IH]; simpl; [done|]. rewrite IH.
  by rewrite andb_assoc.
Qed.

Lemma format_timestamp_relative_chars (relative : Z -> Z -> option (Z * Z))
    (start_ms current_ms : Z) (timestamp : string) :
  format_timestamp_relative relative start_ms current_ms = Some timestamp ->
  all_chars stamp_char timestamp = true.
Proof.
  unfold format_timestamp_relative.
  destruct (_ || _); [by intros [= <-]|].
  destruct (relative start_ms current_ms) as [[minutes seconds]|]; [|done].
  intros [= <-]. rewrite all_chars_app, format_02d_digits. simpl.
  apply format_02d_digits.
Qed.

(** A formatted time has no bar and no end of line. *)
Lemma stamp_no_bar (s : string) :
  all_chars stamp_char s = true ->
  contains "|" s = false /\ count_char newline s = 0%nat.
Proof.
  induction s as [|a s IH]; [done|].
  cbn [all_chars count_char]. intros [Ha Hs]%andb_true_iff.
  destruct (IH Hs) as [H1 H2]. rewrite contains_char, H1, H2.
  destruct (Ascii.eqb_spec "|" a) as [<-|_]; [done|].
  destruct (Ascii.eqb_spec a newline) as [->|_]; [done|]. done.
Qed.

(** ** Lines *)

Lemma split_app (sep : ascii) (a b : string) :
  split sep (a ++ String sep b)%string = split sep a ++ split sep b.
Proof.
  induction a as [|x a IH]; simpl.
  - by rewrite Ascii.eqb_refl.
  - destruct (Ascii.eqb x sep); [by rewrite IH|]. rewrite IH.
    pose proof (split_not_nil sep a) as Hnil.
    by destruct (split sep a).
Qed.

Lemma count_char_app (c : ascii) (a b : string) :
  count_char c (a ++ b)%string = (count_char c a + count_char c b)%nat.
Proof.
  induction a as [|x a IH]; simpl; [done|]. rewrite IH.
  by destruct (Ascii.eqb x c).
Qed.

Lemma split1_at (sep : ascii) (a b : string) :
  count_char sep a = 0%nat ->
  split1 sep (a ++ String sep b)%string = [a; b].
Proof.
  induction a as [|x a IH]; simpl.
  - by rewrite Ascii.eqb_refl.
  - destruct (Ascii.eqb x sep); [done|]. intros H. by rewrite IH.
Qed.

Lemma no_bar_count (s : string) :
  contains "|" s = false -> count_char "|" s = 0%nat.
Proof.
  induction s as [|a s IH]; [done|]. rewrite contains_char.
  intros [Ha Hs]%orb_false_iff. simpl.
  rewrite Ascii.eqb_sym, Ha. by apply IH.
Qed.

Lemma append_String (a : string) (c : ascii) (b d : string) :
  ((a ++ String c b) ++ d)%string = (a ++ String c (b ++ d))%string.
Proof. by rewrite append_assoc. Qed.

Ltac flatten_append :=
  repeat (rewrite append_String || rewrite append_assoc); reflexivity.


(** ** The lines that [format_transcript] writes *)

Lemma text_lines (entries : list RawEntry) (txt : string) :
  contains "|" txt = false ->
  Forall (line_ok entries) (split newline (txt ++ String newline "")%string).
Proof.
  intros Hbar. rewrite split_app. apply Forall_app. split.
  - eapply Forall_impl; [by apply split_newline_no_bar|].
    intros line Hline. by left.
  - constructor; [by left|constructor].
Qed.

Lemma turn_line_whole (timestamp : string) (entry : RawEntry) :
  all_chars stamp_char timestamp = true ->
  count_char newline (speaker_of entry) = 0%nat ->
  split newline (turn_line timestamp entry) = [turn_line timestamp entry].
Proof.
  intros Ht Hs. apply split_no_sep. unfold turn_line.
  rewrite !count_char_app, Hs.
  by destruct (stamp_no_bar timestamp Ht) as [_ ->].
Qed.

Lemma write_entry_lines (relative : Z -> Z -> option (Z * Z))
    (all : list RawEntry) (start_ms : Z) (state state' : option string * string)
    (entry : RawEntry) :
  In entry all -> plain entry ->
  well_written all (snd state) ->
  write_entry relative start_ms state entry = Some state' ->
  well_written all (snd state').
Proof.
  intros Hin [Hbar Hname] (w & Hw & Hlines). unfold write_entry.
  destruct state as [current_speaker written]. simpl in Hw. subst written.
  destruct (entry_text entry) as [|a txt] eqn:Htext;
    [intros [= <-]; by exists w|].
  rewrite <- Htext in *. clear Htext a txt.
  destruct (same_speaker current_speaker (speaker_of entry)).
  - intros [= <-]. simpl.
    exists (w ++ String newline (entry_text entry ++ String newline ""))%string.
    split.
    + flatten_append.
    + rewrite split_app. apply Forall_app. split; [done|].
      by apply text_lines.
  - destruct (format_timestamp_relative relative start_ms
                (timestamp_of entry)) as [timestamp|] eqn:Hstamp; [|done].
    intros [= <-]. simpl.
    apply format_timestamp_relative_chars in Hstamp.
    exists (w ++ String newline
              (turn_line timestamp entry
                 ++ String newline (entry_text entry ++ String newline "")))
           %string.
    split.
    + unfold turn_line. flatten_append.
    + rewrite split_app. apply Forall_app. split; [done|].
      rewrite split_app, turn_line_whole by done.
      constructor; [|by apply text_lines].
      right. exists entry, timestamp. split; [done|]. split; [|done].
      by destruct (stamp_no_bar timestamp Hstamp).
Qed.

Lemma write_entries_lines (relative : Z -> Z -> option (Z * Z))
    (all : list RawEntry) (start_ms : Z) (entries : list RawEntry) :
  forall (state : option string * string) (ok : bool) (written : string),
    incl entries all -> Forall plain entries ->
    well_written all (snd state) ->
    write_entries relative start_ms state entries = (ok, written) ->
    well_written all written.
Proof.
  induction entries as [|entry rest IH]; intros state ok written Hincl Hplain
    Hstate; simpl.
  - by intros [= _ <-].
  - apply Forall_cons in Hplain as [Hentry Hplain].
    destruct (write_entry relative start_ms state entry) as [state'|] eqn:Hw.
    + apply IH; [intros x Hx; apply Hincl; by right|done|].
      apply (write_entry_lines relative all start_ms state state' entry);
        [apply Hincl; by left|done..].
    + by intros [= _ <-].
Qed.

Lemma heading_written (all : list RawEntry) : well_written all heading.
Proof.
  exists ("Interview Transcript" ++ String newline
            ("===================" ++ String newline ""))%string.
  split; [by vm_compute|].
  vm_compute split. repeat constructor; by left.
Qed.

Lemma written_lines (all : list RawEntry) (written : string) :
  well_written all written ->
  Forall (line_ok all) (split newline written).
Proof.
  intros (w & -> & Hlines). rewrite split_app. apply Forall_app.
  split; [done|]. constructor; [by left|constructor].
Qed.

(** ** The questions of a written transcript *)

Lemma strip_after_space (s : string) : strip (String " " s) = strip s.
Proof. reflexivity. Qed.

Lemma turn_line_question (i : nat) (timestamp : string) (entry : RawEntry)
    (q : Question) :
  contains "|" timestamp = false ->
  question_of_line i (turn_line timestamp entry) = Some q ->
  Analytics.text q = strip (speaker_of entry)
  /\ is_question (strip (speaker_of entry)) = true.
Proof.
  intros Hbar Hq.
  assert (split1 "|" (turn_line timestamp entry)
          = [(timestamp ++ " ")%string; String " " (speaker_of entry)])
    as Hsplit.
  { unfold turn_line.
    change (timestamp ++ " | " ++ speaker_of entry)%string with
      (timestamp ++ (" " ++ String "|" (String " " (speaker_of entry))))
      %string.
    rewrite <- append_assoc. apply split1_at.
    rewrite count_char_app, (no_bar_count _ Hbar). done. }
  split.
  - apply question_of_line_text in Hq
      as (part0 & part1 & more & Hparts & -> & _).
    rewrite Hsplit in Hparts. injection Hparts as _ <- _.
    apply strip_after_space.
  - assert (exists q, question_of_line i (turn_line timestamp entry) = Some q)
      as Hex by (by exists q).
    apply question_of_line_Some in Hex
      as (part0 & part1 & more & _ & Hparts & _ & Hquestion).
    rewrite Hsplit in Hparts. injection Hparts as _ <- _.
    by rewrite strip_after_space in Hquestion.
Qed.

Lemma questions_of_lines (full_transcript : string) (q : Question) :
  In q (questions_of full_transcript) ->
  exists i line,
    In line (split newline full_transcript)
    /\ question_of_line i line = Some q.
Proof.
  unfold questions_of, enumerate.
  set (lines := split newline full_transcript).
  generalize (seq 0 (length lines)). intros ns.
  assert (forall (l : list (nat * string)) acc,
    In q (fold_left
            (fun questions '(i, line) =>
               match question_of_line i line with
               | Some q => questions ++ [q]
               | None => questions
               end) l acc) ->
    In q acc \/ exists i line, In (i, line) l
                               /\ question_of_line i line = Some q) as H.
  { induction l as [|[i line] l IH]; intros acc; simpl; [auto|].
    intros Hin. apply IH in Hin as [Hin|(i' & line' & Hin & Hq)].
    - destruct (question_of_line i line) as [q'|] eqn:Hq'; [|auto].
      apply in_app_or in Hin as [Hin|[<-|[]]]; [auto|].
      right. exists i, line. auto.
    - right. exists i', line'. auto. }
  intros Hin. apply H in Hin as [[]|(i & line & Hin & Hq)].
  exists i, line. split; [|done]. by apply in_combine_r in Hin.
Qed.

Lemma windows_fst (qs : list Question) (w : Question * bound) :
  In w (windows qs) -> In (fst w) qs.
Proof.
  induction qs as [|q qs IH]; simpl; [done|].
  intros [<-|Hin]; [by left|]. right. by apply IH.
Qed.

Lemma pairs_questions (segments : list Segment) (full_transcript : string)
    (p : QAPair) :
  In p (_filter_relevant_questions segments full_transcript) ->
  exists q, In q (questions_of full_transcript) /\ question p = Analytics.text q.
Proof.
  unfold _filter_relevant_questions. rewrite qa_pairs_of_windows.
  intros Hin.
  apply list_elem_of_In, list_elem_of_omap in Hin as ([q e] & Hw & Hp).
  apply list_elem_of_In, windows_fst in Hw. simpl in Hw.
  rewrite relevant_questions_filter in Hw.
  apply List.filter_In in Hw as [Hq _].
  exists q. split; [done|].
  unfold pair_of in Hp. destruct (answers segments q e); [done|].
  by injection Hp as <-.
Qed.

(** ** Times, written and read *)

Ltac digit_step :=
  repeat match goal with
    | |- context [is_digit ?a] =>
        let v := eval vm_compute in (is_digit a) in
        change (is_digit a) with v
    | |- context [digit_value ?a] =>
        let v := eval vm_compute in (digit_value a) in
        change (digit_value a) with v
    end; cbv iota.

Lemma int_digits_acc (d : Decimal.uint) :
  forall p : positive,
    int_digits (NilEmpty.string_of_uint d) (Z.pos p) true =
      Some (Z.pos (Pos.of_uint_acc d p)).
Proof.
  induction d as [|d IH|d IH|d IH|d IH|d IH|d IH|d IH|d IH|d IH|d IH];
    intros p; cbn [NilEmpty.string_of_uint int_digits Pos.of_uint_acc];
    [done|..]; digit_step; rewrite <- IH; f_equal; lia.
Qed.

Lemma int_digits_uint (d : Decimal.uint) :
  forall b : bool,
    d <> Decimal.Nil \/ b = true ->
    int_digits (NilEmpty.string_of_uint d) 0 b =
      Some (Z.of_N (Pos.of_uint d)).
Proof.
  induction d as [|d IH|d IH|d IH|d IH|d IH|d IH|d IH|d IH|d IH|d IH];
    intros b Hb; cbn [NilEmpty.string_of_uint int_digits Pos.of_uint].
  - destruct Hb as [Hb| ->]; done.
  - digit_step. change (10 * 0 + 0) with 0. apply IH. by right.
  - digit_step. apply (int_digits_acc d 1).
  - digit_step. apply (int_digits_acc d 2).
  - digit_step. apply (int_digits_acc d 3).
  - digit_step. apply (int_digits_acc d 4).
  - digit_step. apply (int_digits_acc d 5).
  - digit_step. apply (int_digits_acc d 6).
  - digit_step. apply (int_digits_acc d 7).
  - digit_step. apply (int_digits_acc d 8).
  - digit_step. apply (int_digits_acc d 9).
Qed.

Lemma number_char_not_space (a : ascii) :
  stamp_char a = true -> is_space a = false.
Proof. destruct a as [[] [] [] [] [] [] [] []]; by vm_compute. Qed.

Lemma rstrip_id (s : string) :
  all_chars stamp_char s = true -> rstrip s = s.
Proof.
  induction s as [|a s IH]; [done|]. cbn [all_chars rstrip].
  intros [Ha Hs]%andb_true_iff. rewrite (IH Hs).
  destruct s; [|done]. by rewrite (number_char_not_space a Ha).
Qed.

Lemma strip_id (s : string) :
  all_chars stamp_char s = true -> strip s = s.
Proof.
  intros Hs. unfold strip.
  assert (lstrip s = s) as ->; [|by apply rstrip_id].
  destruct s as [|a s]; [done|]. cbn [all_chars lstrip] in *.
  apply andb_true_iff in Hs as [Ha _].
  by rewrite (number_char_not_space a Ha).
Qed.

Lemma py_int_digits (d : Decimal.uint) :
  d <> Decimal.Nil ->
  py_int (NilEmpty.string_of_uint d) = Some (Z.of_N (Pos.of_uint d)).
Proof.
  intros Hd. unfold py_int. rewrite strip_id.
  - rewrite <- (int_digits_uint d false) by (by left).
    destruct d; try done.
  - apply (all_chars_impl number_char); [|apply string_of_uint_digits].
    intros a Ha. unfold stamp_char. by rewrite Ha.
Qed.

Lemma py_int_to_int (n : Z) :
  py_int (NilZero.string_of_int (Z.to_int n)) = Some n.
Proof.
  destruct n as [|p|p]; [done|..]; cbn [Z.to_int NilZero.string_of_int].
  - pose proof (DecimalPos.Unsigned.to_uint_nonnil p) as Hnil.
    assert (NilZero.string_of_uint (Pos.to_uint p)
            = NilEmpty.string_of_uint (Pos.to_uint p)) as ->
      by (destruct (Pos.to_uint p); done).
    by rewrite py_int_digits, DecimalPos.Unsigned.of_to.
  - pose proof (DecimalPos.Unsigned.to_uint_nonnil p) as Hnil.
    assert (NilZero.string_of_uint (Pos.to_uint p)
            = NilEmpty.string_of_uint (Pos.to_uint p)) as ->
      by (destruct (Pos.to_uint p); done).
    unfold py_int. rewrite strip_id.
    + rewrite int_digits_uint by (by left).
      by rewrite DecimalPos.Unsigned.of_to.
    + cbn [all_chars]. apply andb_true_iff. split; [done|].
      apply (all_chars_impl number_char); [|apply string_of_uint_digits].
      intros a Ha. unfold stamp_char. by rewrite Ha.
Qed.

Lemma py_int_format_02d (n : Z) : py_int (format_02d n) = Some n.
Proof.
  unfold format_02d.
  destruct (Z.leb_spec 0 n) as [H0|_]; [|apply py_int_to_int].
  destruct (Z.ltb_spec n 10) as [H10|_]; [|apply py_int_to_int].
  cbn [andb].
  assert (exists k : nat, (k < 10)%nat /\ n = Z.of_nat k) as (k & Hk & ->)
    by (exists (Z.to_nat n); lia).
  do 10 (destruct k as [|k]; [by vm_compute|]). lia.
Qed.

Lemma number_no_colon (s : string) :
  all_chars number_char s = true -> count_char ":" s = 0%nat.
Proof.
  induction s as [|a s IH]; [done|]. cbn [all_chars count_char].
  intros [Ha Hs]%andb_true_iff. rewrite (IH Hs).
  destruct (Ascii.eqb_spec a ":") as [->|_]; [done|]. done.
Qed.

Lemma seconds_of_formatted (minutes seconds : Z) :
  seconds_of_timestamp (format_02d minutes ++ ":" ++ format_02d seconds)
    %string = minutes * 60 + seconds.
Proof.
  unfold seconds_of_timestamp.
  change (format_02d minutes ++ ":" ++ format_02d seconds)%string with
    (format_02d minutes ++ String ":" (format_02d seconds))%string.
  rewrite split_at by apply number_no_colon, format_02d_number.
  rewrite split_no_sep by apply number_no_colon, format_02d_number.
  by rewrite !py_int_format_02d.
Qed.

(** X22: a time written by the formatter is read back by the analytics
    parser as the number of seconds it stands for.  For all integers,
    [seconds_of_timestamp] of the minutes and seconds written with
    [format_02d] around a colon is [minutes * 60 + seconds], and [int] of a
    number written with [format_02d] is that number, padded or not, negative
    or not.  Hence the time [format_timestamp_relative] writes parses to the
    seconds it was computed from (0 for the "00:00" written when a timestamp
    is 0), and a question found on a turn line carries the written time as
    its timestamp and its value in seconds as its time. *)
Theorem timestamp_round_trip (relative : Z -> Z -> option (Z * Z))
    (start_ms current_ms : Z) :
  (forall minutes seconds,
     seconds_of_timestamp
       (format_02d minutes ++ ":" ++ format_02d seconds)%string
     = minutes * 60 + seconds)
  /\ (forall n, py_int (format_02d n) = Some n)
  /\ (forall timestamp,
        format_timestamp_relative relative start_ms current_ms
        = Some timestamp ->
        seconds_of_timestamp timestamp =
          if (start_ms =? 0) || (current_ms =? 0) then 0
          else
            match relative start_ms current_ms with
            | Some (minutes, seconds) => minutes * 60 + seconds
            | None => 0
            end)
  /\ (forall i timestamp entry q,
        all_chars stamp_char timestamp = true ->
        timestamp <> EmptyString ->
        question_of_line i (turn_line timestamp entry) = Some q ->
        Analytics.timestamp q = timestamp
        /\ time_seconds q = seconds_of_timestamp timestamp).
Proof.
  split; [apply seconds_of_formatted|]. split; [apply py_int_format_02d|].
  split.
  - intros timestamp. unfold format_timestamp_relative.
    destruct (_ || _); [by intros [= <-]|].
    destruct (relative start_ms current_ms) as [[minutes seconds]|]; [|done].
    intros [= <-]. apply seconds_of_formatted.
  - intros i timestamp entry q Hchars Hne Hq.
    destruct (stamp_no_bar timestamp Hchars) as [Hbar _].
    assert (split1 "|" (turn_line timestamp entry)
            = [(timestamp ++ " ")%string; String " " (speaker_of entry)])
      as Hsplit.
    { unfold turn_line.
      change (timestamp ++ " | " ++ speaker_of entry)%string with
        (timestamp ++ (" " ++ String "|" (String " " (speaker_of entry))))
        %string.
      rewrite <- append_assoc. apply split1_at.
      rewrite count_char_app, (no_bar_count _ Hbar). done. }
    assert (strip (timestamp ++ " ")%string = timestamp) as Hstrip.
    { unfold strip.
      assert (lstrip (timestamp ++ " ")%string = (timestamp ++ " ")%string)
        as ->.
      { destruct timestamp as [|a t]; [done|]. simpl in *.
        apply andb_true_iff in Hchars as [Ha _].
        by rewrite (number_char_not_space a Ha). }
      clear Hne Hq Hsplit Hbar.
      induction timestamp as [|a t IH]; [done|].
      cbn [all_chars] in Hchars. apply andb_true_iff in Hchars as [Ha Ht].
      simpl. rewrite (IH Ht). destruct t; [|done].
      simpl. by rewrite (number_char_not_space a Ha). }
    unfold question_of_line in Hq.
    destruct (negb (contains "|" (turn_line timestamp entry))); [done|].
    rewrite Hsplit in Hq.
    destruct (contains "Daniel Kraft" _); [done|].
    destruct (is_question _); [|done].
    rewrite Hstrip in Hq.
    destruct timestamp as [|a t]; [done|]. by injection Hq as <-.
Qed.

(** X21: what [_filter_relevant_questions] finds in a transcript that
    [format_transcript] has written in the [conversation] format.  The
    only lines with a bar are the lines that open a turn, [time | speaker],
    and the text of the turn is on the lines after it.  So, as long as no
    text has a bar and no speaker name an end of line, every question that
    [_filter_relevant_questions] finds is the name of a speaker, with the
    time of the turn, and never what was said: the question of every pair
    is a speaker name, and when no speaker name reads as a question there
    is no pair at all, whatever was said and whatever the segments.  This
    holds for the text of a file that was written in part, too. *)
Theorem conversation_questions_are_speakers
    (relative : Z -> Z -> option (Z * Z)) (transcript_data : list RawEntry)
    (ok : bool) (written : string) (segments : list Segment) :
  format_transcript_conversation relative transcript_data
  = (ok, Some written) ->
  Forall plain transcript_data ->
  (forall q, In q (questions_of written) ->
     exists entry,
       In entry transcript_data
       /\ Analytics.text q = strip (speaker_of entry)
       /\ is_question (strip (speaker_of entry)) = true)
  /\ (forall p, In p (_filter_relevant_questions segments written) ->
        exists entry,
          In entry transcript_data
          /\ question p = strip (speaker_of entry))
  /\ (Forall (fun entry => is_question (strip (speaker_of entry)) = false)
        transcript_data ->
      _filter_relevant_questions segments written = []).
Proof.
  intros Hformat Hplain.
  assert (well_written transcript_data written) as Hwritten.
  { unfold format_transcript_conversation in Hformat.
    destruct (match transcript_data with
              | [] => Some 0
              | first :: _ => entry_timestamp_ms first
              end) as [start_ms|]; [|done].
    destruct (write_entries relative start_ms (None, heading)
                transcript_data) as [ok' written'] eqn:Hw.
    injection Hformat as -> ->.
    apply (write_entries_lines relative transcript_data start_ms
             transcript_data (None, heading) ok written);
      [by intros x Hx|done|apply heading_written|done]. }
  apply written_lines in Hwritten.
  assert (forall q, In q (questions_of written) ->
     exists entry,
       In entry transcript_data
       /\ Analytics.text q = strip (speaker_of entry)
       /\ is_question (strip (speaker_of entry)) = true) as Hquestions.
  { intros q Hq.
    apply questions_of_lines in Hq as (i & line & Hline & Hq).
    rewrite Forall_forall in Hwritten.
    apply list_elem_of_In in Hline.
    destruct (Hwritten line Hline) as [Hbar|(entry & ts & Hin & Hts & ->)].
    - unfold question_of_line in Hq. by rewrite Hbar in Hq.
    - exists entry. split; [done|]. by apply (turn_line_question i ts). }
  split; [exact Hquestions|]. split.
  - intros p Hp. apply pairs_questions in Hp as (q & Hq & ->).
    destruct (Hquestions q Hq) as (entry & Hin & Htext & _).
    by exists entry.
  - intros Hnone.
    destruct (_filter_relevant_questions segments written) as [|p ps] eqn:Hps;
      [done|].
    exfalso.
    destruct (pairs_questions segments written p) as (q & Hq & _);
      [rewrite Hps; by left|].
    destruct (Hquestions q Hq) as (entry & Hin & _ & Hyes).
    rewrite Forall_forall in Hnone.
    apply list_elem_of_In in Hin. by rewrite (Hnone entry Hin) in Hyes.
Qed.

Lemma conversation_questions_are_speakers_witness :
  let relative : Z -> Z -> option (Z * Z) := fun _ _ => Some (0, 5) in
  let transcript_data :=
    [mkRawEntry (Some "Interviewer") (Some 1000)
       "Can you describe your sales process?";
     mkRawEntry (Some "Daniel Kraft") (Some 6000) "Yes, I can."] in
  let written :=
    match snd (format_transcript_conversation relative transcript_data) with
    | Some w => w
    | None => EmptyString
    end in
  let segment := mkSegment "Yes, I can." 5 6 [("Joy", 0.5%float)] in
  contains "00:05 | Interviewer" written = true
  /\ contains "Can you describe your sales process?" written = true
  /\ _filter_relevant_questions [segment] written = [].
Proof.
  split; [vm_compute; reflexivity|]. split; [vm_compute; reflexivity|].
  destruct (conversation_questions_are_speakers
              (fun _ _ => Some (0, 5))
              [mkRawEntry (Some "Interviewer") (Some 1000)
                 "Can you describe your sales process?";
               mkRawEntry (Some "Daniel Kraft") (Some 6000) "Yes, I can."]
              true
              match
                snd (format_transcript_conversation (fun _ _ => Some (0, 5))
                       [mkRawEntry (Some "Interviewer") (Some 1000)
                          "Can you describe your sales process?";
                        mkRawEntry (Some "Daniel Kraft") (Some 6000)
                          "Yes, I can."])
              with
              | Some w => w
              | None => EmptyString
              end
              [mkSegment "Yes, I can." 5 6 [("Joy", 0.5%float)]])
    as (_ & _ & H).
  - vm_compute. reflexivity.
  - repeat constructor.
  - apply H. repeat constructor.
Defined.

End FormatterProofs.
